(** * MLPCpp: the CNeuralNetwork class (include/CNeuralNetwork.hpp)

    A shallow embedding of the evaluation engine of the multi-layer
    perceptron class: the variable matcher, the activation-function
    evaluator, the normalisation helpers and the forward/derivative
    propagation of [Predict].

    Conventions.
    - [std::size_t] and [unsigned] indices are [nat]; no loop of the class
      runs far enough for a wrap-around to matter.
    - [std::vector<T>] is [list T]; [v[i]] is the partial lookup [v !! i].
    - The class throws no exception.  What C++ leaves undefined (an index
      outside a vector, the dereference of an end iterator) is a fault: the
      operation returns [None], and nothing is said of what follows it.
    - [std::unordered_map<std::string, size_t>] is [gmap string nat].
    - [mlpdouble] is a type parameter of the library (a typedef of
      variable_def.hpp); it is kept abstract through the class [MlpDouble]
      and instantiated with the real numbers where a statement speaks of
      exact arithmetic. *)

From Stdlib Require Import QArith Reals Lra.
From stdpp Require Import base option list gmap strings.

Set Default Proof Using "Type".

(** ** The scalar type *)

(** The arithmetic that the class performs on [mlpdouble] values: the four
    operations, unary minus, the comparison [a > b], the decimal literals of
    the source text, and the <cmath> functions the activation functions
    call.  [mlp_pow] is [pow] at the integer exponents 2 and 3 used by the
    source. *)
Class MlpDouble (D : Type) := {
  mlp_lit : Q → D;
  mlp_add : D → D → D;
  mlp_sub : D → D → D;
  mlp_mul : D → D → D;
  mlp_div : D → D → D;
  mlp_opp : D → D;
  mlp_gt : D → D → bool;
  mlp_exp : D → D;
  mlp_tanh : D → D;
  mlp_cosh : D → D;
  mlp_erf : D → D;
  mlp_sqrt : D → D;
  mlp_pow : D → nat → D
}.

Declare Scope mlp_scope.
Delimit Scope mlp_scope with mlp.
Infix "+" := mlp_add : mlp_scope.
Infix "-" := mlp_sub : mlp_scope.
Infix "*" := mlp_mul : mlp_scope.
Infix "/" := mlp_div : mlp_scope.
Notation "- x" := (mlp_opp x) : mlp_scope.
Notation "x >? y" := (mlp_gt x y) (at level 70, no associativity) : mlp_scope.
Notation "# q" := (mlp_lit q%Q) (at level 5, format "# q") : mlp_scope.

(** ** Enumerations *)

(** [enum class ENUM_ACTIVATION_FUNCTION]: a scoped enumeration over [int].
    Every integer is a value of the type; ten of them are named. *)
Definition ENUM_ACTIVATION_FUNCTION := Z.

Module ACT.
Definition NONE : ENUM_ACTIVATION_FUNCTION := 0%Z.
Definition LINEAR : ENUM_ACTIVATION_FUNCTION := 1%Z.
Definition RELU : ENUM_ACTIVATION_FUNCTION := 2%Z.
Definition ELU : ENUM_ACTIVATION_FUNCTION := 3%Z.
Definition GELU : ENUM_ACTIVATION_FUNCTION := 4%Z.
Definition SELU : ENUM_ACTIVATION_FUNCTION := 5%Z.
Definition SIGMOID : ENUM_ACTIVATION_FUNCTION := 6%Z.
Definition SWISH : ENUM_ACTIVATION_FUNCTION := 7%Z.
Definition TANH : ENUM_ACTIVATION_FUNCTION := 8%Z.
Definition EXPONENTIAL : ENUM_ACTIVATION_FUNCTION := 9%Z.
End ACT.

(** Modelled from the spec: [ENUM_SCALING_FUNCTIONS] is declared in
    variable_def.hpp, which is not part of the sources at hand.  The three
    normalisation strategies the class switches over are min-max,
    standardisation and robust scaling. *)
Inductive ENUM_SCALING_FUNCTIONS := MINMAX | STANDARD | ROBUST.

#[global] Instance ENUM_SCALING_FUNCTIONS_eq_dec : EqDecision ENUM_SCALING_FUNCTIONS.
Proof. solve_decision. Defined.

(** ** Vectors *)

(** [v[i] = x] on a [std::vector]: a fault outside the vector. *)
Definition vset {A} (i : nat) (x : A) (v : list A) : option (list A) :=
  if decide (i < length v) then Some (<[i := x]> v) else None.

(** [v[i][j] = x]. *)
Definition vset2 {A} (i j : nat) (x : A) (v : list (list A)) : option (list (list A)) :=
  row ← v !! i; row' ← vset j x row; Some (<[i := row']> v).

(** [v[i][j][k] = x]. *)
Definition vset3 {A} (i j k : nat) (x : A) (v : list (list (list A)))
  : option (list (list (list A))) :=
  m ← v !! i; m' ← vset2 j k x m; Some (<[i := m']> v).

Definition vget2 {A} (i j : nat) (v : list (list A)) : option A :=
  row ← v !! i; row !! j.

Definition vget3 {A} (i j k : nat) (v : list (list (list A))) : option A :=
  m ← v !! i; vget2 j k m.

(** [for (i = 0; i < n; i++) body(i)] over a state that may fault. *)
Fixpoint for_loop {St} (from count : nat) (body : nat → St → option St) (s : St)
  : option St :=
  match count with
  | O => Some s
  | S count' => s' ← body from s; for_loop (S from) count' body s'
  end.

(** ** Layers *)

(** Modelled from the spec: class [CLayer] (CLayer.hpp) is not part of the
    sources at hand.  A layer holds its neuron count, the input-layer flag,
    one output value and one bias per neuron, the first-derivative buffer
    (neurons x inputs) and the second-derivative buffer
    (neurons x inputs x inputs); the accessors read and write one cell. *)
Record CLayer (D : Type) := mkCLayer {
  number_of_neurons : nat;
  is_input : bool;
  layer_outputs : list D;
  layer_biases : list D;
  layer_dYdX : list (list D);
  layer_d2YdX2 : list (list (list D))
}.
Arguments mkCLayer {D}.
Arguments number_of_neurons {D}.
Arguments is_input {D}.
Arguments layer_outputs {D}.
Arguments layer_biases {D}.
Arguments layer_dYdX {D}.
Arguments layer_d2YdX2 {D}.

Module Layer.
Section Layer.
Context {D : Type}.
Implicit Types (L : CLayer D).

Definition GetNNeurons L : nat := number_of_neurons L.
Definition IsInput L : bool := is_input L.
Definition GetOutput L (i : nat) : option D := layer_outputs L !! i.
Definition GetBias L (i : nat) : option D := layer_biases L !! i.
Definition GetdYdX L (i j : nat) : option D := vget2 i j (layer_dYdX L).
Definition Getd2YdX2 L (i j k : nat) : option D := vget3 i j k (layer_d2YdX2 L).

Definition SetOutput L (i : nat) (x : D) : option (CLayer D) :=
  o ← vset i x (layer_outputs L);
  Some (mkCLayer (number_of_neurons L) (is_input L) o (layer_biases L)
                 (layer_dYdX L) (layer_d2YdX2 L)).

Definition SetdYdX L (i j : nat) (x : D) : option (CLayer D) :=
  d ← vset2 i j x (layer_dYdX L);
  Some (mkCLayer (number_of_neurons L) (is_input L) (layer_outputs L)
                 (layer_biases L) d (layer_d2YdX2 L)).

Definition Setd2YdX2 L (i j k : nat) (x : D) : option (CLayer D) :=
  d ← vset3 i j k x (layer_d2YdX2 L);
  Some (mkCLayer (number_of_neurons L) (is_input L) (layer_outputs L)
                 (layer_biases L) (layer_dYdX L) d).
End Layer.
End Layer.

(** ** The network *)

Record MatchResult := mkMatchResult {
  is_match : bool;
  input_indices : list (nat * nat);
  output_indices : list (nat * nat)
}.

(** The data members of [CNeuralNetwork].  After [SizeWeights] the pointers
    [inputLayer], [hiddenLayers[i]] and [outputLayer] alias
    [total_layers[0]], [total_layers[i+1]] and the last element of
    [total_layers]; the record keeps the one store [total_layers] and the
    aliases are the accessors [inputLayer] and [outputLayer] below. *)
Record CNeuralNetwork (D : Type) := mkNet {
  input_names : list string;
  output_names : list string;
  n_hidden_layers : nat;
  total_layers : list (CLayer D);
  weights_mat : list (list (list D));
  input_norm : list (D * D);
  output_norm : list (D * D);
  ANN_outputs : list D;
  dOutputs_dInputs : list (list D);
  d2Outputs_dInputs2 : list (list (list D));
  Phi : D;
  Phi_prime : D;
  Phi_dprime : D;
  compute_gradient : bool;
  compute_second_gradient : bool;
  activation_function_types : list ENUM_ACTIVATION_FUNCTION;
  activation_function_names : list string;
  input_reg_method : ENUM_SCALING_FUNCTIONS;
  output_reg_method : ENUM_SCALING_FUNCTIONS
}.
Arguments mkNet {D}.
Arguments input_names {D}.
Arguments output_names {D}.
Arguments n_hidden_layers {D}.
Arguments total_layers {D}.
Arguments weights_mat {D}.
Arguments input_norm {D}.
Arguments output_norm {D}.
Arguments ANN_outputs {D}.
Arguments dOutputs_dInputs {D}.
Arguments d2Outputs_dInputs2 {D}.
Arguments Phi {D}.
Arguments Phi_prime {D}.
Arguments Phi_dprime {D}.
Arguments compute_gradient {D}.
Arguments compute_second_gradient {D}.
Arguments activation_function_types {D}.
Arguments activation_function_names {D}.
Arguments input_reg_method {D}.
Arguments output_reg_method {D}.

(** *** The variable matcher *)

(** [for (i = 0; i < names.size(); ++i) map[names[i]] = i;] with [i]
    starting at [from]: a later duplicate overwrites an earlier one. *)
Fixpoint fill_lookup_map (names : list string) (from : nat) (m : gmap string nat)
  : gmap string nat :=
  match names with
  | [] => m
  | s :: rest => fill_lookup_map rest (S from) (<[s := from]> m)
  end.

(** The loop over the network inputs: [None] stands for the early return
    after [input_indices.clear()]. *)
Fixpoint match_inputs (lookup_input_map : gmap string nat) (names : list string)
    (i : nat) (acc : list (nat * nat)) : option (list (nat * nat)) :=
  match names with
  | [] => Some acc
  | s :: rest =>
      match lookup_input_map !! s with
      | None => None
      | Some k => match_inputs lookup_input_map rest (S i) (acc ++ [(k, i)])
      end
  end.

(** The loop over the network outputs: unmatched names are skipped. *)
Fixpoint match_outputs (lookup_output_map : gmap string nat) (names : list string)
    (i : nat) (acc : list (nat * nat)) : list (nat * nat) :=
  match names with
  | [] => acc
  | s :: rest =>
      match lookup_output_map !! s with
      | None => match_outputs lookup_output_map rest (S i) acc
      | Some k => match_outputs lookup_output_map rest (S i) (acc ++ [(k, i)])
      end
  end.

Section Matcher.
Context {D : Type}.
Implicit Types (net : CNeuralNetwork D).

Definition GetnInputs net : nat := length (input_names net).
Definition GetnOutputs net : nat := length (output_names net).

Definition GetVariableMapping net (lookup_inputs lookup_outputs : list string)
  : MatchResult :=
  let result := mkMatchResult false [] [] in
  if decide (length lookup_inputs < GetnInputs net) then result
  else
    let lookup_input_map := fill_lookup_map lookup_inputs 0 (∅ : gmap string nat) in
    match match_inputs lookup_input_map (input_names net) 0 [] with
    | None => mkMatchResult false [] []
    | Some ins =>
        let lookup_output_map := fill_lookup_map lookup_outputs 0 (∅ : gmap string nat) in
        let outs := match_outputs lookup_output_map (output_names net) 0 [] in
        match outs with
        | [] => mkMatchResult false ins outs
        | _ :: _ => mkMatchResult true ins outs
        end
    end.
End Matcher.

(** *** Record updates *)

Section Updates.
Context {D : Type}.
Implicit Types (net : CNeuralNetwork D).

Definition set_total_layers net (ls : list (CLayer D)) : CNeuralNetwork D :=
  mkNet (input_names net) (output_names net) (n_hidden_layers net) ls
        (weights_mat net) (input_norm net) (output_norm net) (ANN_outputs net)
        (dOutputs_dInputs net) (d2Outputs_dInputs2 net)
        (Phi net) (Phi_prime net) (Phi_dprime net)
        (compute_gradient net) (compute_second_gradient net)
        (activation_function_types net) (activation_function_names net)
        (input_reg_method net) (output_reg_method net).

Definition set_ANN_outputs net (v : list D) : CNeuralNetwork D :=
  mkNet (input_names net) (output_names net) (n_hidden_layers net) (total_layers net)
        (weights_mat net) (input_norm net) (output_norm net) v
        (dOutputs_dInputs net) (d2Outputs_dInputs2 net)
        (Phi net) (Phi_prime net) (Phi_dprime net)
        (compute_gradient net) (compute_second_gradient net)
        (activation_function_types net) (activation_function_names net)
        (input_reg_method net) (output_reg_method net).

Definition set_dOutputs_dInputs net (v : list (list D)) : CNeuralNetwork D :=
  mkNet (input_names net) (output_names net) (n_hidden_layers net) (total_layers net)
        (weights_mat net) (input_norm net) (output_norm net) (ANN_outputs net)
        v (d2Outputs_dInputs2 net)
        (Phi net) (Phi_prime net) (Phi_dprime net)
        (compute_gradient net) (compute_second_gradient net)
        (activation_function_types net) (activation_function_names net)
        (input_reg_method net) (output_reg_method net).

Definition set_d2Outputs_dInputs2 net (v : list (list (list D))) : CNeuralNetwork D :=
  mkNet (input_names net) (output_names net) (n_hidden_layers net) (total_layers net)
        (weights_mat net) (input_norm net) (output_norm net) (ANN_outputs net)
        (dOutputs_dInputs net) v
        (Phi net) (Phi_prime net) (Phi_dprime net)
        (compute_gradient net) (compute_second_gradient net)
        (activation_function_types net) (activation_function_names net)
        (input_reg_method net) (output_reg_method net).

Definition set_Phi net (x : D) : CNeuralNetwork D :=
  mkNet (input_names net) (output_names net) (n_hidden_layers net) (total_layers net)
        (weights_mat net) (input_norm net) (output_norm net) (ANN_outputs net)
        (dOutputs_dInputs net) (d2Outputs_dInputs2 net)
        x (Phi_prime net) (Phi_dprime net)
        (compute_gradient net) (compute_second_gradient net)
        (activation_function_types net) (activation_function_names net)
        (input_reg_method net) (output_reg_method net).

Definition set_Phi_prime net (x : D) : CNeuralNetwork D :=
  mkNet (input_names net) (output_names net) (n_hidden_layers net) (total_layers net)
        (weights_mat net) (input_norm net) (output_norm net) (ANN_outputs net)
        (dOutputs_dInputs net) (d2Outputs_dInputs2 net)
        (Phi net) x (Phi_dprime net)
        (compute_gradient net) (compute_second_gradient net)
        (activation_function_types net) (activation_function_names net)
        (input_reg_method net) (output_reg_method net).

Definition set_Phi_dprime net (x : D) : CNeuralNetwork D :=
  mkNet (input_names net) (output_names net) (n_hidden_layers net) (total_layers net)
        (weights_mat net) (input_norm net) (output_norm net) (ANN_outputs net)
        (dOutputs_dInputs net) (d2Outputs_dInputs2 net)
        (Phi net) (Phi_prime net) x
        (compute_gradient net) (compute_second_gradient net)
        (activation_function_types net) (activation_function_names net)
        (input_reg_method net) (output_reg_method net).

Definition set_activation net (names : list string)
    (types : list ENUM_ACTIVATION_FUNCTION) : CNeuralNetwork D :=
  mkNet (input_names net) (output_names net) (n_hidden_layers net) (total_layers net)
        (weights_mat net) (input_norm net) (output_norm net) (ANN_outputs net)
        (dOutputs_dInputs net) (d2Outputs_dInputs2 net)
        (Phi net) (Phi_prime net) (Phi_dprime net)
        (compute_gradient net) (compute_second_gradient net)
        types names
        (input_reg_method net) (output_reg_method net).

Definition ComputeFirstOrderGradient net (input : bool) : CNeuralNetwork D :=
  mkNet (input_names net) (output_names net) (n_hidden_layers net) (total_layers net)
        (weights_mat net) (input_norm net) (output_norm net) (ANN_outputs net)
        (dOutputs_dInputs net) (d2Outputs_dInputs2 net)
        (Phi net) (Phi_prime net) (Phi_dprime net)
        input (compute_second_gradient net)
        (activation_function_types net) (activation_function_names net)
        (input_reg_method net) (output_reg_method net).

Definition ComputeSecondOrderGradient net (input : bool) : CNeuralNetwork D :=
  mkNet (input_names net) (output_names net) (n_hidden_layers net) (total_layers net)
        (weights_mat net) (input_norm net) (output_norm net) (ANN_outputs net)
        (dOutputs_dInputs net) (d2Outputs_dInputs2 net)
        (Phi net) (Phi_prime net) (Phi_dprime net)
        (compute_gradient net) input
        (activation_function_types net) (activation_function_names net)
        (input_reg_method net) (output_reg_method net).

Definition SetInputRegularization net (reg_method_input : ENUM_SCALING_FUNCTIONS)
  : CNeuralNetwork D :=
  mkNet (input_names net) (output_names net) (n_hidden_layers net) (total_layers net)
        (weights_mat net) (input_norm net) (output_norm net) (ANN_outputs net)
        (dOutputs_dInputs net) (d2Outputs_dInputs2 net)
        (Phi net) (Phi_prime net) (Phi_dprime net)
        (compute_gradient net) (compute_second_gradient net)
        (activation_function_types net) (activation_function_names net)
        reg_method_input (output_reg_method net).

Definition SetOutputRegularization net (reg_method_input : ENUM_SCALING_FUNCTIONS)
  : CNeuralNetwork D :=
  mkNet (input_names net) (output_names net) (n_hidden_layers net) (total_layers net)
        (weights_mat net) (input_norm net) (output_norm net) (ANN_outputs net)
        (dOutputs_dInputs net) (d2Outputs_dInputs2 net)
        (Phi net) (Phi_prime net) (Phi_dprime net)
        (compute_gradient net) (compute_second_gradient net)
        (activation_function_types net) (activation_function_names net)
        (input_reg_method net) reg_method_input.

(** The layer a pointer of [total_layers] designates, and the two aliases. *)
Definition layer_at net (iLayer : nat) : option (CLayer D) :=
  total_layers net !! iLayer.
Definition inputLayer net : option (CLayer D) := layer_at net 0.
Definition outputLayer_index net : nat := n_hidden_layers net + 1.
Definition outputLayer net : option (CLayer D) :=
  layer_at net (outputLayer_index net).

(** [total_layers[iLayer]->SetOutput(i, x)] and its siblings: the layer
    object is updated in place, the vector of pointers is untouched.  The
    getters below are the reads [total_layers[iLayer]->GetOutput(i)] etc. *)
Definition net_SetOutput net (iLayer i : nat) (x : D) : option (CNeuralNetwork D) :=
  L ← layer_at net iLayer; L' ← Layer.SetOutput L i x;
  Some (set_total_layers net (<[iLayer := L']> (total_layers net))).

Definition net_SetdYdX net (iLayer i j : nat) (x : D) : option (CNeuralNetwork D) :=
  L ← layer_at net iLayer; L' ← Layer.SetdYdX L i j x;
  Some (set_total_layers net (<[iLayer := L']> (total_layers net))).

Definition net_Setd2YdX2 net (iLayer i j k : nat) (x : D)
  : option (CNeuralNetwork D) :=
  L ← layer_at net iLayer; L' ← Layer.Setd2YdX2 L i j k x;
  Some (set_total_layers net (<[iLayer := L']> (total_layers net))).

Definition net_IsInput net (iLayer : nat) : option bool :=
  Layer.IsInput <$> layer_at net iLayer.
Definition net_GetBias net (iLayer i : nat) : option D :=
  L ← layer_at net iLayer; Layer.GetBias L i.
Definition net_GetOutput net (iLayer i : nat) : option D :=
  L ← layer_at net iLayer; Layer.GetOutput L i.
Definition net_GetdYdX net (iLayer i j : nat) : option D :=
  L ← layer_at net iLayer; Layer.GetdYdX L i j.
Definition net_Getd2YdX2 net (iLayer i j k : nat) : option D :=
  L ← layer_at net iLayer; Layer.Getd2YdX2 L i j k.

Definition GetNNeurons net (iLayer : nat) : option nat :=
  Layer.GetNNeurons <$> layer_at net iLayer.

Definition GetdOutputdInput net (iOutput iInput : nat) : option D :=
  vget2 iOutput iInput (dOutputs_dInputs net).
Definition Getd2OutputdInput2 net (iOutput iInput jInput : nat) : option D :=
  vget3 iOutput iInput jInput (d2Outputs_dInputs2 net).
Definition GetANNOutput net (iOutput : nat) : option D := ANN_outputs net !! iOutput.
End Updates.

(** [iLayer - 1] on [std::size_t]: at 0 the index wraps to the largest
    value, which lies outside every vector. *)
Definition previous_layer (iLayer : nat) : option nat :=
  match iLayer with O => None | S p => Some p end.

(** *** The activation-function table *)

Definition activation_function_map : gmap string ENUM_ACTIVATION_FUNCTION :=
  list_to_map
    [("none", ACT.NONE); ("linear", ACT.LINEAR); ("elu", ACT.ELU);
     ("relu", ACT.RELU); ("gelu", ACT.GELU); ("selu", ACT.SELU);
     ("sigmoid", ACT.SIGMOID); ("swish", ACT.SWISH); ("tanh", ACT.TANH);
     ("exponential", ACT.EXPONENTIAL)].

Section Setup.
Context {D : Type}.
Implicit Types (net : CNeuralNetwork D).

(** [activation_function_map.find(input)->second]: when the name is not a
    key, [find] returns [end()] and the dereference is a fault; the source
    has no other path for such a name.  The name itself has been stored by
    then. *)
Definition SetActivationFunction net (i_layer : nat) (input : string)
  : option (CNeuralNetwork D) :=
  names ← vset i_layer input (activation_function_names net);
  tag ← activation_function_map !! input;
  types ← vset i_layer tag (activation_function_types net);
  Some (set_activation net names types).
End Setup.

(** ** Evaluation *)

Section Evaluation.
Context {D : Type} `{MlpDouble D}.
Implicit Types (net : CNeuralNetwork D) (input x : D).
Local Open Scope mlp_scope.

(** *** Activation functions *)

(** The body of the [switch] of [ActivationFunction], once the tag of the
    layer has been read.  The case labels are distinct constants, so the
    [switch] is the chain of tests below; the last [else] is
    [default: break;]. *)
Definition ActivationFunction_switch net (tag : ENUM_ACTIVATION_FUNCTION) input
  : CNeuralNetwork D :=
  let alpha := #1.67326324 in
  let lambda := #1.05070098 in
  let gelu_c := #1.702 in
  if decide (tag = ACT.ELU) then
    if input >? #0 then
      let net := set_Phi net input in
      if compute_gradient net then
        let net := set_Phi_prime net #1 in
        if compute_second_gradient net then set_Phi_dprime net #0 else net
      else net
    else
      let exp_x := mlp_exp input in
      let net := set_Phi net (exp_x - #1) in
      if compute_gradient net then
        let net := set_Phi_prime net exp_x in
        if compute_second_gradient net then set_Phi_dprime net exp_x else net
      else net
  else if decide (tag = ACT.LINEAR) then
    let net := set_Phi net input in
    if compute_gradient net then
      let net := set_Phi_prime net #1 in
      if compute_second_gradient net then set_Phi_dprime net #0 else net
    else net
  else if decide (tag = ACT.EXPONENTIAL) then
    let net := set_Phi net (mlp_exp input) in
    if compute_gradient net then
      let net := set_Phi_prime net (Phi net) in
      if compute_second_gradient net then set_Phi_dprime net (Phi net) else net
    else net
  else if decide (tag = ACT.RELU) then
    let net :=
      if input >? #0 then
        let net := set_Phi net input in
        if compute_gradient net then set_Phi_prime net #1 else net
      else
        let net := set_Phi net #0 in
        if compute_gradient net then set_Phi_prime net #0 else net in
    if compute_second_gradient net then set_Phi_dprime net #0 else net
  else if decide (tag = ACT.SWISH) then
    let net := set_Phi net (input / (#1 + mlp_exp (- input))) in
    if compute_gradient net then
      let exp_x := mlp_exp input in
      let net :=
        set_Phi_prime net
          (exp_x * (input + exp_x + #1) / mlp_pow (exp_x + #1) 2) in
      if compute_second_gradient net then
        set_Phi_dprime net
          (exp_x * (- exp_x * (input - #2) + input + #2) / mlp_pow (exp_x + #1) 3)
      else net
    else net
  else if decide (tag = ACT.TANH) then
    let tanh_x := mlp_tanh input in
    let net := set_Phi net tanh_x in
    if compute_gradient net then
      let net := set_Phi_prime net (#1 / mlp_pow (mlp_cosh input) 2) in
      if compute_second_gradient net then
        set_Phi_dprime net (#(-2) * tanh_x * #1 / (mlp_pow (mlp_cosh input) 2))
      else net
    else net
  else if decide (tag = ACT.SIGMOID) then
    let exp_x := mlp_exp (- input) in
    let net := set_Phi net (#1 / (#1 + exp_x)) in
    if compute_gradient net then
      let net := set_Phi_prime net (exp_x / mlp_pow (exp_x + #1) 2) in
      if compute_second_gradient net then
        let exp_x := mlp_exp input in
        set_Phi_dprime net (- (exp_x * (exp_x - #1)) / mlp_pow (exp_x + #1) 3)
      else net
    else net
  else if decide (tag = ACT.SELU) then
    if input >? #0 then
      let net := set_Phi net (lambda * input) in
      if compute_gradient net then
        let net := set_Phi_prime net lambda in
        if compute_second_gradient net then set_Phi_dprime net #0 else net
      else net
    else
      let exp_x := mlp_exp input in
      let net := set_Phi net (lambda * alpha * (exp_x - #1)) in
      if compute_gradient net then
        let net := set_Phi_prime net (Phi net + lambda * alpha) in
        if compute_second_gradient net then set_Phi_dprime net (Phi_prime net)
        else net
      else net
  else if decide (tag = ACT.GELU) then
    let net :=
      set_Phi net (#0.5 * input * (#1 + mlp_erf (input / mlp_sqrt #2))) in
    if compute_gradient net then
      let exp_x := mlp_exp (- gelu_c * input) in
      let net :=
        set_Phi_prime net
          (exp_x * (gelu_c * input + exp_x + #1) / mlp_pow (exp_x + #1) 2) in
      if compute_second_gradient net then
        set_Phi_dprime net
          (input * ((#5.79361 * mlp_pow exp_x 2 / mlp_pow (exp_x + #1) 3) -
                    (#2.8968 * exp_x / mlp_pow (exp_x + #1) 2)) +
           #3.404 * exp_x / mlp_pow (exp_x + #1) 2)
      else net
    else net
  else if decide (tag = ACT.NONE) then
    let net := set_Phi net #0 in
    if compute_gradient net then
      let net := set_Phi_prime net #0 in
      if compute_second_gradient net then set_Phi_dprime net #0 else net
    else net
  else net.

Definition ActivationFunction net (iLayer : nat) input : option (CNeuralNetwork D) :=
  tag ← activation_function_types net !! iLayer;
  Some (ActivationFunction_switch net tag input).

(** *** Normalisation *)

(** The [default:] labels of the four switches over the strategy are not
    reachable from the three strategies; in [NormalizeInput] and
    [DimensionalizeOutput] the label shares the code of the last two cases. *)
Definition NormalizeInput net (val_input_dim : D) (iInput : nat) : option D :=
  p ← input_norm net !! iInput;
  match input_reg_method net with
  | MINMAX => Some ((val_input_dim - p.1) / (p.2 - p.1))
  | STANDARD | ROBUST => Some ((val_input_dim - p.1) / p.2)
  end.

Definition GetRegularizationScale net (iInput : nat) (is_input : bool) : option D :=
  match input_reg_method net with
  | MINMAX =>
      if is_input then p ← input_norm net !! iInput; Some (p.2 - p.1)
      else p ← output_norm net !! iInput; Some (p.2 - p.1)
  | STANDARD | ROBUST =>
      if is_input then p ← input_norm net !! iInput; Some p.2
      else p ← output_norm net !! iInput; Some p.2
  end.

Definition GetRegularizationOffset net (iInput : nat) (is_input : bool) : option D :=
  match input_reg_method net with
  | MINMAX =>
      if is_input then p ← input_norm net !! iInput; Some (#0.5 * (p.2 + p.1))
      else p ← output_norm net !! iInput; Some (#0.5 * (p.2 + p.1))
  | STANDARD | ROBUST =>
      if is_input then p ← input_norm net !! iInput; Some p.1
      else p ← output_norm net !! iInput; Some p.1
  end.

Definition DimensionalizeOutput net (val_output_norm : D) (iOutput : nat) : option D :=
  p ← output_norm net !! iOutput;
  match input_reg_method net with
  | MINMAX => Some ((p.2 - p.1) * val_output_norm + p.1)
  | STANDARD | ROBUST => Some (p.2 * val_output_norm + p.1)
  end.

(** *** Weighted sums over the previous layer *)

Definition ComputeX net (iLayer iNeuron : nat) : option D :=
  x ← net_GetBias net iLayer iNeuron;
  iPrev ← previous_layer iLayer;
  nNeurons_previous ← GetNNeurons net iPrev;
  for_loop 0 nNeurons_previous
    (λ jNeuron x,
       w ← vget3 iPrev iNeuron jNeuron (weights_mat net);
       y ← net_GetOutput net iPrev jNeuron;
       Some (x + w * y)) x.

Definition ComputePsi net (iLayer iNeuron jInput : nat) : option D :=
  iPrev ← previous_layer iLayer;
  nNeurons_previous ← GetNNeurons net iPrev;
  for_loop 0 nNeurons_previous
    (λ jNeuron psi,
       w ← vget3 iPrev iNeuron jNeuron (weights_mat net);
       d ← net_GetdYdX net iPrev jNeuron jInput;
       Some (psi + w * d)) #0.

Definition ComputeChi net (iLayer iNeuron jInput kInput : nat) : option D :=
  iPrev ← previous_layer iLayer;
  nNeurons_previous ← GetNNeurons net iPrev;
  for_loop 0 nNeurons_previous
    (λ jNeuron chi,
       w ← vget3 iPrev iNeuron jNeuron (weights_mat net);
       d ← net_Getd2YdX2 net iPrev jNeuron jInput kInput;
       Some (chi + w * d)) #0.
End Evaluation.

Section Propagation.
Context {D : Type} `{MlpDouble D}.
Implicit Types (net : CNeuralNetwork D) (inputs : list D).
Local Open Scope mlp_scope.

(** *** The input layer *)

Definition ComputeInputLayer net inputs (iNeuron : nat) : option (CNeuralNetwork D) :=
  x ← inputs !! iNeuron;
  x_norm ← NormalizeInput net x iNeuron;
  net ← net_SetOutput net 0 iNeuron x_norm;
  if compute_gradient net then
    nInputs ← GetNNeurons net 0;
    for_loop 0 nInputs
      (λ jInput net,
         net ← (if decide (jInput = iNeuron) then
                  scale ← GetRegularizationScale net iNeuron true;
                  net_SetdYdX net 0 iNeuron jInput (#1 / scale)
                else net_SetdYdX net 0 iNeuron jInput #0);
         if compute_second_gradient net then
           for_loop 0 nInputs
             (λ kInput net, net_Setd2YdX2 net 0 iNeuron jInput kInput #0) net
         else Some net) net
  else Some net.

(** *** Hidden and output layers *)

(** The innermost loop of [Predict]: the second derivatives of one neuron
    with respect to the pairs [(jInput, kInput)], [kInput] running. *)
Definition Predict_second net (iLayer iNeuron jInput nInputs : nat) (psi_j : D)
  : option (CNeuralNetwork D) :=
  for_loop 0 nInputs
    (λ kInput net,
       psi_k ← ComputePsi net iLayer iNeuron kInput;
       chi ← ComputeChi net iLayer iNeuron jInput kInput;
       let d2Yi_dIjdIk := Phi_dprime net * psi_j * psi_k + Phi_prime net * chi in
       net_Setd2YdX2 net iLayer iNeuron jInput kInput d2Yi_dIjdIk) net.

(** The loop over [jInput]: first and, on demand, second derivatives. *)
Definition Predict_gradient net (iLayer iNeuron nInputs : nat)
  : option (CNeuralNetwork D) :=
  for_loop 0 nInputs
    (λ jInput net,
       psi_j ← ComputePsi net iLayer iNeuron jInput;
       let dYi_dIj := psi_j * Phi_prime net in
       net ← net_SetdYdX net iLayer iNeuron jInput dYi_dIj;
       if compute_second_gradient net then
         Predict_second net iLayer iNeuron jInput nInputs psi_j
       else Some net) net.

(** The body of the loop over the neurons of a layer. *)
Definition Predict_neuron net inputs (iLayer iNeuron : nat)
  : option (CNeuralNetwork D) :=
  is_input_layer ← net_IsInput net iLayer;
  if (is_input_layer : bool) then ComputeInputLayer net inputs iNeuron
  else
    X ← ComputeX net iLayer iNeuron;
    net ← ActivationFunction net iLayer X;
    let Yi := Phi net in
    net ← net_SetOutput net iLayer iNeuron Yi;
    if compute_gradient net then
      nInputs ← GetNNeurons net 0;
      Predict_gradient net iLayer iNeuron nInputs
    else Some net.

Definition Predict_layer net inputs (iLayer : nat) : option (CNeuralNetwork D) :=
  nNeurons ← GetNNeurons net iLayer;
  for_loop 0 nNeurons (λ iNeuron net, Predict_neuron net inputs iLayer iNeuron) net.

(** The loop nest of [Predict] over all layers, before the outputs are
    de-normalised. *)
Definition Predict_layers net inputs : option (CNeuralNetwork D) :=
  for_loop 0 (n_hidden_layers net + 2)
    (λ iLayer net, Predict_layer net inputs iLayer) net.

(** *** The output stage *)

Definition DeNormalize_second net (iNeuron jInput nInputs : nat) (output_scale : D)
  : option (CNeuralNetwork D) :=
  let iOut := outputLayer_index net in
  for_loop 0 nInputs
    (λ kInput net,
       d ← net_Getd2YdX2 net iOut iNeuron jInput kInput;
       net ← net_Setd2YdX2 net iOut iNeuron jInput kInput (output_scale * d);
       d' ← net_Getd2YdX2 net iOut iNeuron jInput kInput;
       g ← vset3 iNeuron jInput kInput d' (d2Outputs_dInputs2 net);
       Some (set_d2Outputs_dInputs2 net g)) net.

Definition DeNormalize_gradient net (iNeuron nInputs : nat) (output_scale : D)
  : option (CNeuralNetwork D) :=
  let iOut := outputLayer_index net in
  for_loop 0 nInputs
    (λ jInput net,
       d ← net_GetdYdX net iOut iNeuron jInput;
       net ← net_SetdYdX net iOut iNeuron jInput (output_scale * d);
       d' ← net_GetdYdX net iOut iNeuron jInput;
       g ← vset2 iNeuron jInput d' (dOutputs_dInputs net);
       let net := set_dOutputs_dInputs net g in
       if compute_second_gradient net then
         DeNormalize_second net iNeuron jInput nInputs output_scale
       else Some net) net.

Definition DeNormalize_neuron net (iNeuron : nat) : option (CNeuralNetwork D) :=
  y_norm ← net_GetOutput net (outputLayer_index net) iNeuron;
  output_scale ← GetRegularizationScale net iNeuron false;
  Y_out ← DimensionalizeOutput net y_norm iNeuron;
  a ← vset iNeuron Y_out (ANN_outputs net);
  let net := set_ANN_outputs net a in
  if compute_gradient net then
    nInputs ← GetNNeurons net 0;
    DeNormalize_gradient net iNeuron nInputs output_scale
  else Some net.

Definition DeNormalizeOutputs net : option (CNeuralNetwork D) :=
  nOutputs ← GetNNeurons net (outputLayer_index net);
  for_loop 0 nOutputs (λ iNeuron net, DeNormalize_neuron net iNeuron) net.

Definition Predict net inputs : option (CNeuralNetwork D) :=
  net ← Predict_layers net inputs;
  DeNormalizeOutputs net.
End Propagation.

(** ** Sized networks *)

(** The shapes [SizeWeights] and [CLayer::SizeGradients] give the buffers. *)
Definition shape2 {A} (n m : nat) (v : list (list A)) : Prop :=
  length v = n ∧ Forall (λ row, length row = m) v.

Definition shape3 {A} (n m k : nat) (v : list (list (list A))) : Prop :=
  length v = n ∧ Forall (shape2 m k) v.

Section Sized.
Context {D : Type}.
Implicit Types (net : CNeuralNetwork D) (L : CLayer D).

Definition nInputs net : nat := default 0 (GetNNeurons net 0).
Definition nOutputs net : nat := default 0 (GetNNeurons net (outputLayer_index net)).

Record layer_sized (n_in : nat) L : Prop := {
  sized_outputs : length (layer_outputs L) = number_of_neurons L;
  sized_biases : length (layer_biases L) = number_of_neurons L;
  sized_dYdX : shape2 (number_of_neurons L) n_in (layer_dYdX L);
  sized_d2YdX2 : shape3 (number_of_neurons L) n_in n_in (layer_d2YdX2 L)
}.

(** The state of a network after the construction calls and [SizeWeights]:
    [n_hidden_layers + 2] layers of which the first, and only the first,
    is the input layer; every buffer allocated to the layer sizes; one
    weight matrix (neurons of the next layer x neurons of this layer) per
    gap; one normalisation pair per input and per output; one activation
    tag per layer. *)
Record sized net : Prop := {
  sized_total_layers : length (total_layers net) = n_hidden_layers net + 2;
  sized_layer : ∀ l L, layer_at net l = Some L →
    layer_sized (nInputs net) L ∧ is_input L = bool_decide (l = 0);
  sized_weights : ∀ l P C, layer_at net l = Some P → layer_at net (S l) = Some C →
    ∃ W, weights_mat net !! l = Some W ∧
         shape2 (number_of_neurons C) (number_of_neurons P) W;
  sized_input_norm : length (input_norm net) = nInputs net;
  sized_output_norm : length (output_norm net) = nOutputs net;
  sized_ANN_outputs : length (ANN_outputs net) = nOutputs net;
  sized_dOutputs_dInputs :
    shape2 (nOutputs net) (nInputs net) (dOutputs_dInputs net);
  sized_d2Outputs_dInputs2 :
    shape3 (nOutputs net) (nInputs net) (nInputs net) (d2Outputs_dInputs2 net);
  sized_activation_function_types :
    length (activation_function_types net) = n_hidden_layers net + 2
}.

(** The tags the [switch] of [ActivationFunction] has a case for. *)
Definition named_tag (tag : ENUM_ACTIVATION_FUNCTION) : Prop :=
  (0 ≤ tag ≤ 9)%Z.

(** Every layer after the input layer carries one of the named tags. *)
Definition activations_assigned net : Prop :=
  ∀ l tag, 0 < l → activation_function_types net !! l = Some tag → named_tag tag.

(** The derivative buffers of the network: per layer, and the two readable
    ones. *)
Definition gradient_buffers net
  : list (list (list D) * list (list (list D))) * list (list D) * list (list (list D)) :=
  ((λ L, (layer_dYdX L, layer_d2YdX2 L)) <$> total_layers net,
   dOutputs_dInputs net, d2Outputs_dInputs2 net).
End Sized.

(** ** Exact arithmetic *)

(** The Gauss error function over the reals, for [erf] of <cmath>. *)
Definition gauss (t : R) : R := exp (- (t * t)).

Lemma gauss_continuous : continuity gauss.
Proof.
  unfold gauss. apply (continuity_comp (λ t, - (t * t))%R exp).
  - reg.
  - apply derivable_continuous, derivable_exp.
Qed.

Lemma gauss_integrable (a b : R) : Riemann_integrable gauss a b.
Proof.
  destruct (Rle_dec a b) as [Hab|Hab].
  - apply continuity_implies_RiemannInt; [exact Hab|].
    intros x _. apply gauss_continuous.
  - apply RiemannInt_P1, continuity_implies_RiemannInt; [lra|].
    intros x _. apply gauss_continuous.
Qed.

Definition erf (x : R) : R := (2 / sqrt PI * RiemannInt (gauss_integrable 0 x))%R.

(** [mlpdouble] read as the real numbers: the arithmetic of the class without
    rounding. *)
#[global] Instance R_MlpDouble : MlpDouble R := {|
  mlp_lit := Q2R;
  mlp_add := Rplus;
  mlp_sub := Rminus;
  mlp_mul := Rmult;
  mlp_div := Rdiv;
  mlp_opp := Ropp;
  mlp_gt a b := if Rlt_dec b a then true else false;
  mlp_exp := exp;
  mlp_tanh := tanh;
  mlp_cosh := cosh;
  mlp_erf := erf;
  mlp_sqrt := sqrt;
  mlp_pow := pow
|}.

(** ** A small network *)

Module Example.
Local Open Scope R_scope.

Definition layer (n n_in : nat) (input : bool) (biases : list R) : CLayer R :=
  mkCLayer n input (replicate n 0) biases (replicate n (replicate n_in 0))
           (replicate n (replicate n_in (replicate n_in 0))).

(** Two inputs [u], [v]; three hidden neurons; two outputs [y], [z]. *)
Definition network (first second : bool) (tag : ENUM_ACTIVATION_FUNCTION)
    (in_method out_method : ENUM_SCALING_FUNCTIONS) : CNeuralNetwork R :=
  mkNet ["u"; "v"]%string ["y"; "z"]%string 1
    [layer 2 2 true [0; 0]; layer 3 2 false [0; 0; 1]; layer 2 2 false [0; 1]]
    [ [[1; 0]; [0; 1]; [1; 1]]; [[1; 1; 1]; [1; 0; 2]] ]
    [(0, 2); (0, 1)] [(1, 3); (0, 1)]
    [0; 0] [[0; 0]; [0; 0]] [[[0; 0]; [0; 0]]; [[0; 0]; [0; 0]]]
    1 1 1 first second [ACT.NONE; tag; ACT.LINEAR]
    ["none"; "hidden"; "linear"]%string in_method out_method.

(** One input [u] and one output [y], for the matcher. *)
Definition single : CNeuralNetwork R :=
  mkNet ["u"]%string ["y"]%string 1
    [layer 1 1 true [0]; layer 1 1 false [0]; layer 1 1 false [0]]
    [ [[1]]; [[1]] ] [(0, 1)] [(0, 1)] [0] [[0]] [[[0]]]
    0 0 0 false false [ACT.NONE; ACT.LINEAR; ACT.LINEAR]
    ["none"; "linear"; "linear"]%string MINMAX MINMAX.
End Example.

(** ** Cells of the layer buffers *)

(** One scalar of a layer: the output of a neuron, its derivative with
    respect to one input, or its second derivative with respect to a pair. *)
Inductive cell :=
  | OutputCell (l i : nat)
  | FirstCell (l i j : nat)
  | SecondCell (l i j k : nat).

#[global] Instance cell_eq_dec : EqDecision cell.
Proof. solve_decision. Defined.

Definition cell_layer (c : cell) : nat :=
  match c with OutputCell l _ | FirstCell l _ _ | SecondCell l _ _ _ => l end.

Definition cell_neuron (c : cell) : nat * nat :=
  match c with OutputCell l i | FirstCell l i _ | SecondCell l i _ _ => (l, i) end.

Section Cells.
Context {D : Type}.
Implicit Types (s : CNeuralNetwork D) (c : cell) (x : D).

Definition read_cell s c : option D :=
  match c with
  | OutputCell l i => net_GetOutput s l i
  | FirstCell l i j => net_GetdYdX s l i j
  | SecondCell l i j k => net_Getd2YdX2 s l i j k
  end.

Definition write_cell s c x : option (CNeuralNetwork D) :=
  match c with
  | OutputCell l i => net_SetOutput s l i x
  | FirstCell l i j => net_SetdYdX s l i j x
  | SecondCell l i j k => net_Setd2YdX2 s l i j k x
  end.

(** What an evaluation never changes in a layer. *)
Definition skeleton s (l : nat) : option (nat * bool * list D) :=
  (λ L, (number_of_neurons L, is_input L, layer_biases L)) <$> layer_at s l.

(** What an evaluation never changes in the network. *)
Definition static s :=
  (n_hidden_layers s, weights_mat s, input_norm s, output_norm s,
   input_reg_method s, compute_gradient s, compute_second_gradient s,
   activation_function_types s).

(** Every element of the three readable buffers of [s] exists in [s']. *)
Definition readable_defined s s' : Prop :=
  (∀ i, is_Some (GetANNOutput s i) → is_Some (GetANNOutput s' i)) ∧
  (∀ i j, is_Some (GetdOutputdInput s i j) → is_Some (GetdOutputdInput s' i j)) ∧
  (∀ i j k, is_Some (Getd2OutputdInput2 s i j k) →
            is_Some (Getd2OutputdInput2 s' i j k)).

Definition scalars s : D * D * D := (Phi s, Phi_prime s, Phi_dprime s).

(** [s'] is a later state of [s] in which the cells selected by [keeps] have
    their old content and every cell that existed still exists. *)
Record evolves (keeps : cell → Prop) s s' : Prop := {
  ev_static : static s' = static s;
  ev_skeleton : ∀ l, skeleton s' l = skeleton s l;
  ev_defined : ∀ c, is_Some (read_cell s c) → is_Some (read_cell s' c);
  ev_readable : readable_defined s s';
  ev_keeps : ∀ c, keeps c → read_cell s' c = read_cell s c
}.

Definition cell_in_range s c : Prop :=
  match c with
  | OutputCell l i => ∃ n, GetNNeurons s l = Some n ∧ i < n
  | FirstCell l i j => ∃ n, GetNNeurons s l = Some n ∧ i < n ∧ j < nInputs s
  | SecondCell l i j k =>
      ∃ n, GetNNeurons s l = Some n ∧ i < n ∧ j < nInputs s ∧ k < nInputs s
  end.

(** Everything [Predict] addresses in a sized network exists. *)
Record allocated s : Prop := {
  al_neurons : ∀ l, l < n_hidden_layers s + 2 → is_Some (GetNNeurons s l);
  al_is_input : ∀ l, l < n_hidden_layers s + 2 →
    net_IsInput s l = Some (bool_decide (l = 0));
  al_bias : ∀ l i n, GetNNeurons s l = Some n → i < n → is_Some (net_GetBias s l i);
  al_cells : ∀ c, cell_in_range s c → is_Some (read_cell s c);
  al_weights : ∀ l i j n m,
    GetNNeurons s l = Some m → GetNNeurons s (S l) = Some n → i < n → j < m →
    is_Some (vget3 l i j (weights_mat s));
  al_input_norm : ∀ i, i < nInputs s → is_Some (input_norm s !! i);
  al_output_norm : ∀ i, i < nOutputs s → is_Some (output_norm s !! i);
  al_ANN_outputs : ∀ i, i < nOutputs s → is_Some (GetANNOutput s i);
  al_dOutputs_dInputs : ∀ i j, i < nOutputs s → j < nInputs s →
    is_Some (GetdOutputdInput s i j);
  al_d2Outputs_dInputs2 : ∀ i j k, i < nOutputs s → j < nInputs s → k < nInputs s →
    is_Some (Getd2OutputdInput2 s i j k);
  al_types : ∀ l, l < n_hidden_layers s + 2 →
    is_Some (activation_function_types s !! l)
}.
End Cells.

(** ** The chain rule, as a property of a state *)

Section ChainRule.
Context {D : Type} `{MlpDouble D}.
Implicit Types (s : CNeuralNetwork D).
Local Open Scope mlp_scope.

(** The chain rule as stored for neuron [i] of layer [l]: the first
    derivative is [psi_j * Phi_prime], the second
    [Phi_dprime * psi_j * psi_k + Phi_prime * chi], with the sums and the
    activation derivatives recomputed from the state itself. *)
Definition chain_first s (l i j : nat) : Prop :=
  ∃ tag X psi_j,
    activation_function_types s !! l = Some tag ∧
    ComputeX s l i = Some X ∧ ComputePsi s l i j = Some psi_j ∧
    net_GetdYdX s l i j =
      Some (psi_j * Phi_prime (ActivationFunction_switch s tag X)).

Definition chain_second s (l i j k : nat) : Prop :=
  ∃ tag X psi_j psi_k chi,
    activation_function_types s !! l = Some tag ∧
    ComputeX s l i = Some X ∧ ComputePsi s l i j = Some psi_j ∧
    ComputePsi s l i k = Some psi_k ∧ ComputeChi s l i j k = Some chi ∧
    net_Getd2YdX2 s l i j k =
      Some (Phi_dprime (ActivationFunction_switch s tag X) * psi_j * psi_k +
            Phi_prime (ActivationFunction_switch s tag X) * chi).

Definition neuron_done s (l i : nat) : Prop :=
  ∀ j, j < nInputs s →
    chain_first s l i j ∧
    (compute_second_gradient s = true → ∀ k, k < nInputs s → chain_second s l i j k).

(** The same for a whole neuron, in the order in which the chain rule is
    usually written: with [X] the pre-activation of the neuron and [act] the
    result of the evaluator at [X], the stored first derivative with respect
    to input [j] is [Phi_prime act * psi_j] and, in second-derivative mode,
    the stored second derivative with respect to [(j, k)] is
    [Phi_dprime act * psi_j * psi_k + Phi_prime act * chi]. *)
Definition stores_chain_rule s (l i : nat) : Prop :=
  ∃ X act,
    ComputeX s l i = Some X ∧ ActivationFunction s l X = Some act ∧
    ∀ j, j < nInputs s →
      ∃ psi_j,
        ComputePsi s l i j = Some psi_j ∧
        net_GetdYdX s l i j = Some (Phi_prime act * psi_j) ∧
        (compute_second_gradient s = true →
         ∀ k, k < nInputs s →
           ∃ psi_k chi,
             ComputePsi s l i k = Some psi_k ∧
             ComputeChi s l i j k = Some chi ∧
             net_Getd2YdX2 s l i j k =
               Some (Phi_dprime act * psi_j * psi_k + Phi_prime act * chi)).
End ChainRule.

(** ** Non-degenerate normalisation parameters *)

(** The scale of a parameter pair under a strategy is not zero. *)
Definition scale_nonzero (method : ENUM_SCALING_FUNCTIONS) (p : R * R) : Prop :=
  match method with
  | MINMAX => p.2 ≠ p.1
  | STANDARD | ROBUST => p.2 ≠ 0%R
  end.

(** * Further members of the class *)

(** ** Configuration of a network *)

Section Configuration.
Context {D : Type}.
Implicit Types (net : CNeuralNetwork D) (L : CLayer D).

Definition set_weights_mat net (w : list (list (list D))) : CNeuralNetwork D :=
  mkNet (input_names net) (output_names net) (n_hidden_layers net) (total_layers net)
        w (input_norm net) (output_norm net) (ANN_outputs net)
        (dOutputs_dInputs net) (d2Outputs_dInputs2 net)
        (Phi net) (Phi_prime net) (Phi_dprime net)
        (compute_gradient net) (compute_second_gradient net)
        (activation_function_types net) (activation_function_names net)
        (input_reg_method net) (output_reg_method net).

Definition set_norms net (input output : list (D * D)) : CNeuralNetwork D :=
  mkNet (input_names net) (output_names net) (n_hidden_layers net) (total_layers net)
        (weights_mat net) input output (ANN_outputs net)
        (dOutputs_dInputs net) (d2Outputs_dInputs2 net)
        (Phi net) (Phi_prime net) (Phi_dprime net)
        (compute_gradient net) (compute_second_gradient net)
        (activation_function_types net) (activation_function_names net)
        (input_reg_method net) (output_reg_method net).

Definition set_names net (input output : list string) : CNeuralNetwork D :=
  mkNet input output (n_hidden_layers net) (total_layers net)
        (weights_mat net) (input_norm net) (output_norm net) (ANN_outputs net)
        (dOutputs_dInputs net) (d2Outputs_dInputs2 net)
        (Phi net) (Phi_prime net) (Phi_dprime net)
        (compute_gradient net) (compute_second_gradient net)
        (activation_function_types net) (activation_function_names net)
        (input_reg_method net) (output_reg_method net).

Definition set_n_hidden_layers net (n : nat) : CNeuralNetwork D :=
  mkNet (input_names net) (output_names net) n (total_layers net)
        (weights_mat net) (input_norm net) (output_norm net) (ANN_outputs net)
        (dOutputs_dInputs net) (d2Outputs_dInputs2 net)
        (Phi net) (Phi_prime net) (Phi_dprime net)
        (compute_gradient net) (compute_second_gradient net)
        (activation_function_types net) (activation_function_names net)
        (input_reg_method net) (output_reg_method net).

(** [weights_mat[i_layer][j_neuron][i_neuron] = value]: the neuron of the
    next layer indexes the row, the neuron of layer [i_layer] the column. *)
Definition SetWeight net (i_layer i_neuron j_neuron : nat) (value : D)
  : option (CNeuralNetwork D) :=
  w ← vset3 i_layer j_neuron i_neuron value (weights_mat net);
  Some (set_weights_mat net w).

(** Modelled from the spec: [CLayer::SetBias] (CLayer.hpp) stores the bias of
    one neuron. *)
Definition CLayer_SetBias L (i : nat) (x : D) : option (CLayer D) :=
  b ← vset i x (layer_biases L);
  Some (mkCLayer (number_of_neurons L) (is_input L) (layer_outputs L) b
                 (layer_dYdX L) (layer_d2YdX2 L)).

Definition SetBias net (i_layer i_neuron : nat) (value : D)
  : option (CNeuralNetwork D) :=
  L ← layer_at net i_layer; L' ← CLayer_SetBias L i_neuron value;
  Some (set_total_layers net (<[i_layer := L']> (total_layers net))).

Definition SetInputNorm net (iInput : nat) (input_min input_max : D)
  : option (CNeuralNetwork D) :=
  v ← vset iInput (input_min, input_max) (input_norm net);
  Some (set_norms net v (output_norm net)).

Definition SetOutputNorm net (iOutput : nat) (output_min output_max : D)
  : option (CNeuralNetwork D) :=
  v ← vset iOutput (output_min, output_max) (output_norm net);
  Some (set_norms net (input_norm net) v).

Definition GetInputNorm net (iInput : nat) : option (D * D) := input_norm net !! iInput.
Definition GetOutputNorm net (iOutput : nat) : option (D * D) :=
  output_norm net !! iOutput.

Definition SetOutputName net (iOutput : nat) (input : string)
  : option (CNeuralNetwork D) :=
  v ← vset iOutput input (output_names net);
  Some (set_names net (input_names net) v).

Definition SetInputName net (iInput : nat) (input : string)
  : option (CNeuralNetwork D) :=
  v ← vset iInput input (input_names net);
  Some (set_names net v (output_names net)).

Definition GetInputName net (iInput : nat) : option string := input_names net !! iInput.
Definition GetOutputName net (iOutput : nat) : option string :=
  output_names net !! iOutput.

(** [resize] of the two activation arrays: new elements are value-initialised,
    the tag to 0 (NONE) and the name to the empty string. *)
Definition SizeActivationFunctions net (n_layers : nat) : CNeuralNetwork D :=
  set_activation net (resize n_layers ""%string (activation_function_names net))
                     (resize n_layers ACT.NONE (activation_function_types net)).

Definition GetNLayers net : nat := length (total_layers net).

(** [total_layers.size() - 1] in the arithmetic of [std::size_t], [width]
    bits wide: the subtraction wraps when there is no layer. *)
Definition GetNWeightLayers (width : N) net : Z :=
  ((Z.of_nat (length (total_layers net)) - 1) mod 2 ^ Z.of_N width)%Z.
End Configuration.

Section MoreEvaluation.
Context {D : Type} `{MlpDouble D}.
Implicit Types (net : CNeuralNetwork D).
Local Open Scope mlp_scope.

Definition ComputedOutputdInput net (iLayer iNeuron iInput : nat) : option D :=
  iPrev ← previous_layer iLayer;
  nNeurons_previous ← GetNNeurons net iPrev;
  for_loop 0 nNeurons_previous
    (λ jNeuron doutput_dinput,
       w ← vget3 iPrev iNeuron jNeuron (weights_mat net);
       d ← net_GetdYdX net iPrev jNeuron iInput;
       Some (doutput_dinput + w * d)) #0.

(** [a < b] is read as [b > a]. *)
Definition CheckInputInclusion net (val_input : D) (iInput : nat) : option bool :=
  p ← input_norm net !! iInput;
  match input_reg_method net with
  | MINMAX => Some (negb ((p.1 >? val_input) || (val_input >? p.2)))
  | STANDARD =>
      let val_input_norm := (val_input - p.1) / p.2 in
      Some (negb ((#(-2) >? val_input_norm) || (val_input_norm >? #2)))
  | ROBUST =>
      let val_input_norm := (val_input - p.1) / p.2 in
      Some (negb ((#(-10) >? val_input_norm) || (val_input_norm >? #10)))
  end.
End MoreEvaluation.

(** ** Construction *)

(** The object before [SizeWeights]: the three layer collections are still
    separate, [total_layers] is filled from them by [SizeWeights].  The field
    [members] holds every other data member. *)
Record Construction (D : Type) := mkConstruction {
  members : CNeuralNetwork D;
  inputLayer_ptr : option (CLayer D);
  outputLayer_ptr : option (CLayer D);
  hiddenLayers : list (CLayer D)
}.
Arguments mkConstruction {D}.
Arguments members {D}.
Arguments inputLayer_ptr {D}.
Arguments outputLayer_ptr {D}.
Arguments hiddenLayers {D}.

Section Construction.
Context {D : Type} `{MlpDouble D}.
Implicit Types (c : Construction D) (L : CLayer D).
Local Open Scope mlp_scope.

(** The content of storage that the sources at hand do not determine: what
    the constructor of [CLayer] puts into fresh cells, and the elements of
    [new mlpdouble[n]]. *)
Variable uninit : D.

(** Modelled from the spec: the constructor [CLayer(n)] (CLayer.hpp) makes a
    layer of [n] neurons with one output and one bias each, not marked as
    input layer and without derivative buffers. *)
Definition CLayer_new (n : nat) : CLayer D :=
  mkCLayer n false (replicate n uninit) (replicate n uninit) [] [].

(** Modelled from the spec: [CLayer::SetInput]. *)
Definition CLayer_SetInput L (input : bool) : CLayer D :=
  mkCLayer (number_of_neurons L) input (layer_outputs L) (layer_biases L)
           (layer_dYdX L) (layer_d2YdX2 L).

(** Modelled from the spec: [CLayer::SizeGradients] gives the derivative
    buffers the sizes neurons x inputs and neurons x inputs x inputs. *)
Definition CLayer_SizeGradients L (nInputs : nat) : CLayer D :=
  mkCLayer (number_of_neurons L) (is_input L) (layer_outputs L) (layer_biases L)
    (resize nInputs uninit <$> resize (number_of_neurons L) [] (layer_dYdX L))
    ((λ m, resize nInputs uninit <$> resize nInputs [] m) <$>
       resize (number_of_neurons L) [] (layer_d2YdX2 L)).

(** A default-constructed network; [Phi], [Phi_prime] and [Phi_dprime] have
    no initialiser. *)
Definition new_network : Construction D :=
  mkConstruction
    (mkNet [] [] 0 [] [] [] [] [] [] [] uninit uninit uninit false false [] []
           MINMAX MINMAX)
    None None [].

Definition DefineInputLayer c (n_neurons : nat) : Construction D :=
  mkConstruction
    (set_names
       (set_norms (members c) (resize n_neurons (#0, #0) (input_norm (members c)))
                  (output_norm (members c)))
       (resize n_neurons ""%string (input_names (members c)))
       (output_names (members c)))
    (Some (CLayer_SetInput (CLayer_new n_neurons) true))
    (outputLayer_ptr c) (hiddenLayers c).

Definition DefineOutputLayer c (n_neurons : nat) : Construction D :=
  mkConstruction
    (set_names
       (set_norms (members c) (input_norm (members c))
                  (resize n_neurons (#0, #0) (output_norm (members c))))
       (input_names (members c))
       (resize n_neurons ""%string (output_names (members c))))
    (inputLayer_ptr c)
    (Some (CLayer_new n_neurons)) (hiddenLayers c).

Definition PushHiddenLayer c (n_neurons : nat) : Construction D :=
  mkConstruction
    (set_n_hidden_layers (members c) (n_hidden_layers (members c) + 1))
    (inputLayer_ptr c) (outputLayer_ptr c)
    (hiddenLayers c ++ [CLayer_new n_neurons]).

(** [weights_mat[l].resize(rows)] followed by [.resize(cols)] on each row. *)
Definition size_matrix (l rows cols : nat) (w : list (list (list D)))
  : option (list (list (list D))) :=
  m ← w !! l;
  Some (<[l := resize cols #0 <$> resize rows [] m]> w).

(** [SizeWeights].  Reading [hiddenLayers[i]] outside the vector and calling
    through a null [inputLayer] or [outputLayer] are faults; the null
    pointers are dereferenced on every path that gets as far as the sizing
    of the gradients. *)
Definition SizeWeights c : option (CNeuralNetwork D) :=
  let n := n_hidden_layers (members c) in
  if decide (n ≤ length (hiddenLayers c)) then
    let hidden := take n (hiddenLayers c) in
    first ← hidden !! 0;
    input ← inputLayer_ptr c;
    w ← size_matrix 0 (number_of_neurons first) (number_of_neurons input)
           (resize (n + 1) [] (weights_mat (members c)));
    w ← for_loop 1 (n - 1)
          (λ iLayer w,
             this ← hidden !! iLayer;
             iPrev ← previous_layer iLayer;
             prev ← hidden !! iPrev;
             size_matrix iLayer (number_of_neurons this) (number_of_neurons prev) w) w;
    output ← outputLayer_ptr c;
    iLast ← previous_layer n;
    last ← hidden !! iLast;
    w ← size_matrix n (number_of_neurons output) (number_of_neurons last) w;
    let nIn := number_of_neurons input in
    let nOut := number_of_neurons output in
    Some
      (mkNet (input_names (members c)) (output_names (members c)) n
         ((λ L, CLayer_SizeGradients L nIn) <$> ([input] ++ hidden ++ [output]))
         w (input_norm (members c)) (output_norm (members c))
         (replicate nOut uninit)
         (resize nIn #0 <$> resize nOut [] (dOutputs_dInputs (members c)))
         ((λ m, resize nIn #0 <$> resize nIn [] m) <$>
            resize nOut [] (d2Outputs_dInputs2 (members c)))
         (Phi (members c)) (Phi_prime (members c)) (Phi_dprime (members c))
         (compute_gradient (members c)) (compute_second_gradient (members c))
         (activation_function_types (members c))
         (activation_function_names (members c))
         (input_reg_method (members c)) (output_reg_method (members c)))
  else None.

(** [SizeActivationFunctions] before the layers are gathered. *)
Definition Construction_SizeActivationFunctions c (n_layers : nat) : Construction D :=
  mkConstruction (SizeActivationFunctions (members c) n_layers)
                 (inputLayer_ptr c) (outputLayer_ptr c) (hiddenLayers c).

(** The construction calls in their order: input layer, output layer, hidden
    layers, activation arrays, sizing. *)
Definition declare (n_inputs n_outputs : nat) (hidden : list nat) : Construction D :=
  Construction_SizeActivationFunctions
    (foldl PushHiddenLayer
       (DefineOutputLayer (DefineInputLayer new_network n_inputs) n_outputs) hidden)
    (length hidden + 2).
End Construction.

(** ** Destruction *)

(** The loop of [~CNeuralNetwork],
    [for (i = 1; i < total_layers.size() - 1; i++) delete total_layers[i];],
    with the bound computed in [std::size_t], [width] bits wide.  The result
    lists the positions of [total_layers] whose layer the loop deletes; the
    two [delete]s before the loop release [inputLayer] and [outputLayer],
    which after [SizeWeights] are the first and the last position. *)
Definition destructor_loop {D} (width : N) (net : CNeuralNetwork D)
  : option (list nat) :=
  let bound := ((Z.of_nat (length (total_layers net)) - 1) mod 2 ^ Z.of_N width)%Z in
  for_loop 1 (Z.to_nat bound - 1)
    (λ i deleted, _ ← total_layers net !! i; Some (deleted ++ [i])) [].

(** ** States of an evaluation *)

Section Forward.
Context {D : Type} `{MlpDouble D}.
Implicit Types (s : CNeuralNetwork D) (inputs : list D).
Local Open Scope mlp_scope.

(** Neuron [i] of the input layer holds the normalised input [i]. *)
Definition forward_input s inputs (i : nat) : Prop :=
  ∃ x v, inputs !! i = Some x ∧ NormalizeInput s x i = Some v ∧
         net_GetOutput s 0 i = Some v.

(** The derivatives stored for input neuron [i]: with respect to input [i]
    itself the reciprocal of the scale of that input, with respect to every
    other input zero; all second derivatives zero. *)
Definition input_seeded s (i : nat) : Prop :=
  ∀ j, j < nInputs s →
    net_GetdYdX s 0 i j =
      (if decide (j = i)
       then scale ← GetRegularizationScale s i true; Some (#1 / scale)
       else Some #0) ∧
    (compute_second_gradient s = true →
     ∀ k, k < nInputs s → net_Getd2YdX2 s 0 i j k = Some #0).

(** Neuron [i] of layer [l] holds the activation of the weighted sum of the
    outputs of layer [l - 1], as these are stored in [s]. *)
Definition forward_neuron s (l i : nat) : Prop :=
  ∃ tag X, activation_function_types s !! l = Some tag ∧
    ComputeX s l i = Some X ∧
    net_GetOutput s l i = Some (Phi (ActivationFunction_switch s tag X)).
End Forward.

Section OutputStage.
Context {D : Type} `{MlpDouble D}.
Implicit Types (s : CNeuralNetwork D).
Local Open Scope mlp_scope.

(** The derivatives of output [i] after the output stage that started in
    [s]: the derivative row of the output layer has been multiplied by
    [scale], and the readable buffers hold the same products. *)
Definition second_scaled s s' (i j : nat) (scale : D) : Prop :=
  ∀ k, k < nInputs s →
    ∃ d2, net_Getd2YdX2 s (outputLayer_index s) i j k = Some d2 ∧
          net_Getd2YdX2 s' (outputLayer_index s) i j k = Some (scale * d2) ∧
          Getd2OutputdInput2 s' i j k = Some (scale * d2).

Definition first_scaled s s' (i : nat) (scale : D) : Prop :=
  ∀ j, j < nInputs s →
    ∃ d, net_GetdYdX s (outputLayer_index s) i j = Some d ∧
         net_GetdYdX s' (outputLayer_index s) i j = Some (scale * d) ∧
         GetdOutputdInput s' i j = Some (scale * d) ∧
         (compute_second_gradient s = true → second_scaled s s' i j scale).

(** Output [i] after the output stage that started in [s]. *)
Definition output_done s s' (i : nat) : Prop :=
  ∃ y scale Y,
    net_GetOutput s (outputLayer_index s) i = Some y ∧
    GetRegularizationScale s i false = Some scale ∧
    DimensionalizeOutput s y i = Some Y ∧
    GetANNOutput s' i = Some Y ∧
    (compute_gradient s = true → first_scaled s s' i scale).
End OutputStage.

(** The weight matrices while [SizeWeights] runs: sized below [t], still
    empty from [t] on. *)
Definition weights_sized_below {D} `{MlpDouble D} (sizes : list nat) (n t : nat)
    (w : list (list (list D))) : Prop :=
  length w = n + 1 ∧
  (∀ l, l < t →
     w !! l = Some (replicate (default 0 (sizes !! S l))
                              (replicate (default 0 (sizes !! l)) (#0)%mlp))) ∧
  (∀ l, t ≤ l < n + 1 → w !! l = Some []).

(** Two networks of the same architecture with the same parameters: weights,
    biases, normalisation and activation tags.  The buffers, the scalars
    [Phi], [Phi_prime], [Phi_dprime] and the two derivative modes may
    differ. *)
Definition same_parameters {D} (net1 net2 : CNeuralNetwork D) : Prop :=
  n_hidden_layers net2 = n_hidden_layers net1 ∧
  weights_mat net2 = weights_mat net1 ∧
  input_norm net2 = input_norm net1 ∧ output_norm net2 = output_norm net1 ∧
  input_reg_method net2 = input_reg_method net1 ∧
  activation_function_types net2 = activation_function_types net1 ∧
  ∀ l, skeleton net2 l = skeleton net1 l.

(** ** The weighted sums, as sums *)

Section WeightedSums.
Context {D : Type} `{MlpDouble D}.
Implicit Types (s : CNeuralNetwork D).
Local Open Scope mlp_scope.

(** [init + w_0 * y_0 + w_1 * y_1 + ...], one term per pair of a weight and
    a value, the terms added from left to right. *)
Fixpoint weighted_sum (init : D) (ws ys : list D) : D :=
  match ws, ys with
  | w :: ws, y :: ys => weighted_sum (init + w * y) ws ys
  | _, _ => init
  end.

(** [r] is [init] plus the weighted sum over the neurons of layer [lp]: with
    [m] the number of neurons of that layer, [ws] the [m] weights
    [weights_mat[lp][i][0 .. m-1]] into neuron [i] of the next layer, and
    [ys] the [m] values [value 0 .. value (m-1)] read from layer [lp]. *)
Definition previous_layer_sum s (lp i : nat) (value : nat → option D) (init r : D)
  : Prop :=
  ∃ m ws ys,
    GetNNeurons s lp = Some m ∧ length ws = m ∧ length ys = m ∧
    (∀ jNeuron, jNeuron < m →
       vget3 lp i jNeuron (weights_mat s) = ws !! jNeuron ∧
       value jNeuron = ys !! jNeuron) ∧
    r = weighted_sum init ws ys.

(** The pre-activation of neuron [i] of layer [l]: its bias plus the weighted
    sum of the outputs of layer [l - 1]. *)
Definition pre_activation s (l i : nat) (X : D) : Prop :=
  ∃ lp b, l = S lp ∧ net_GetBias s l i = Some b ∧
          previous_layer_sum s lp i (net_GetOutput s lp) b X.

(** [psi_j]: the weighted sum of the first derivatives of layer [l - 1] with
    respect to input [j]. *)
Definition psi_sum s (l i j : nat) (psi : D) : Prop :=
  ∃ lp, l = S lp ∧
        previous_layer_sum s lp i (λ jNeuron, net_GetdYdX s lp jNeuron j) #0 psi.

(** [chi_jk]: the weighted sum of the second derivatives of layer [l - 1]
    with respect to the pair [(j, k)]. *)
Definition chi_sum s (l i j k : nat) (chi : D) : Prop :=
  ∃ lp, l = S lp ∧
        previous_layer_sum s lp i (λ jNeuron, net_Getd2YdX2 s lp jNeuron j k) #0 chi.

(** The chain rule as [s] holds it for neuron [i] of layer [l].  [X], the
    value of [ComputeX], is the pre-activation; [act] is the result of the
    evaluator at [X]; [psi_j] and [chi], the values of [ComputePsi] and
    [ComputeChi], are the weighted sums of the derivatives of layer [l - 1].
    The first derivative stored for input [j] is [Phi_prime act * psi_j] and,
    in second-derivative mode, the second derivative stored for [(j, k)] is
    [Phi_dprime act * psi_j * psi_k + Phi_prime act * chi], both seen through
    [rescale]: the identity where the values are stored as they are, the
    multiplication by the scale of the output where the output stage has
    passed. *)
Definition chain_rule_stored s (l i : nat) (rescale : D → D) : Prop :=
  ∃ X act,
    ComputeX s l i = Some X ∧ pre_activation s l i X ∧
    ActivationFunction s l X = Some act ∧
    ∀ j, j < nInputs s →
      ∃ psi_j,
        ComputePsi s l i j = Some psi_j ∧ psi_sum s l i j psi_j ∧
        net_GetdYdX s l i j = Some (rescale (Phi_prime act * psi_j)) ∧
        (compute_second_gradient s = true →
         ∀ k, k < nInputs s →
           ∃ psi_k chi,
             ComputePsi s l i k = Some psi_k ∧ psi_sum s l i k psi_k ∧
             ComputeChi s l i j k = Some chi ∧ chi_sum s l i j k chi ∧
             net_Getd2YdX2 s l i j k =
               Some (rescale (Phi_dprime act * psi_j * psi_k + Phi_prime act * chi))).

(** Neuron [i] of layer [l] holds the activation value of its
    pre-activation: the bias plus the weighted sum of the outputs that [s]
    holds for layer [l - 1]. *)
Definition forward_value s (l i : nat) : Prop :=
  ∃ tag X, activation_function_types s !! l = Some tag ∧
    ComputeX s l i = Some X ∧ pre_activation s l i X ∧
    net_GetOutput s l i = Some (Phi (ActivationFunction_switch s tag X)).
End WeightedSums.

(** * Properties *)

(** ** The variable matcher *)

Section MatcherFacts.
Implicit Types (m : gmap string nat) (names : list string).

Lemma fill_lookup_map_is_Some names from m s :
  is_Some (fill_lookup_map names from m !! s) ↔ s ∈ names ∨ is_Some (m !! s).
Proof.
  revert from m. induction names as [|a names IH]; intros from m; simpl.
  - rewrite elem_of_nil. tauto.
  - rewrite IH, elem_of_cons, lookup_insert_is_Some.
    destruct (decide (a = s)) as [->|Hne]; [tauto|].
    split.
    + intros [?|[?|[_ ?]]]; auto; congruence.
    + intros [[?|?]|?]; auto; congruence.
Qed.

Lemma fill_lookup_map_empty names s :
  is_Some (fill_lookup_map names 0 ∅ !! s) ↔ s ∈ names.
Proof.
  rewrite fill_lookup_map_is_Some, lookup_empty.
  split; [intros [?|[? ?]]; [done|discriminate]|auto].
Qed.

Lemma match_inputs_Some m names i acc :
  is_Some (match_inputs m names i acc) ↔ ∀ s, s ∈ names → is_Some (m !! s).
Proof.
  revert i acc. induction names as [|a names IH]; intros i acc; simpl.
  - split; [intros _ s Hs; by apply elem_of_nil in Hs|eauto].
  - destruct (m !! a) as [k|] eqn:Ha.
    + rewrite IH. split.
      * intros Hall s [-> | Hs]%elem_of_cons; eauto.
      * intros Hall s Hs. apply Hall. by right.
    + split; [by intros []|].
      intros Hall. destruct (Hall a) as [k Hk]; [by left|congruence].
Qed.

Lemma match_inputs_network_side m names i acc r :
  match_inputs m names i acc = Some r →
  r.*2 = acc.*2 ++ seq i (length names).
Proof.
  revert i acc. induction names as [|a names IH]; intros i acc; simpl.
  - intros [= <-]. by rewrite app_nil_r.
  - destruct (m !! a) as [k|]; [|done].
    intros ->%IH. by rewrite fmap_app, <-app_assoc.
Qed.

Lemma match_outputs_network_side m names i acc j :
  j ∈ (match_outputs m names i acc).*2 ↔
  j ∈ acc.*2 ∨ ∃ s, names !! (j - i) = Some s ∧ i ≤ j ∧ is_Some (m !! s).
Proof.
  revert i acc. induction names as [|a names IH]; intros i acc; simpl.
  - split; [auto|]. intros [?|(s & Hs & _)]; [done|]. by rewrite lookup_nil in Hs.
  - assert (Hshift : (∃ s, names !! (j - S i) = Some s ∧ S i ≤ j ∧ is_Some (m !! s)) ↔
              (∃ s, (a :: names) !! (j - i) = Some s ∧ i < j ∧ is_Some (m !! s))).
    { split; intros (s & Hs & Hij & Hm); exists s; split_and!; try done; try lia.
      - by replace (j - i) with (S (j - S i)) by lia.
      - by replace (j - i) with (S (j - S i)) in Hs by lia. }
    destruct (m !! a) as [k|] eqn:Ha; rewrite IH, Hshift.
    + rewrite fmap_app, elem_of_app. simpl. rewrite list_elem_of_singleton.
      split.
      * intros [[?| ->]|(s & Hs & Hij & Hm)]; eauto.
        -- right. exists a. rewrite Nat.sub_diag. by rewrite Ha; eauto.
        -- right. exists s. split_and!; [done|lia|done].
      * intros [?|(s & Hs & Hij & Hm)]; [by left; left|].
        destruct (decide (i = j)) as [->|]; [by left; right|].
        right. exists s. split_and!; [done|lia|done].
    + split.
      * intros [?|(s & Hs & Hij & Hm)]; eauto.
        right. exists s. split_and!; [done|lia|done].
      * intros [?|(s & Hs & Hij & Hm)]; [by left|].
        destruct (decide (i = j)) as [->|].
        -- rewrite Nat.sub_diag in Hs. simpl in Hs. injection Hs as <-.
           rewrite Ha in Hm. by destruct Hm.
        -- right. exists s. split_and!; [done|lia|done].
Qed.
End MatcherFacts.

Section MatcherTheorems.
Context {D : Type}.
Implicit Types (net : CNeuralNetwork D) (lookup_inputs lookup_outputs : list string).

Lemma match_outputs_from_empty (m : gmap string nat) (names : list string) j :
  j ∈ (match_outputs m names 0 []).*2 ↔
  ∃ s, names !! j = Some s ∧ is_Some (m !! s).
Proof.
  rewrite match_outputs_network_side, Nat.sub_0_r. simpl. split.
  - intros [Hnil|(s & ? & _ & ?)]; [by apply elem_of_nil in Hnil|eauto].
  - intros (s & ? & ?). right. exists s. split_and!; [done|lia|done].
Qed.

Lemma match_outputs_nonempty (m : gmap string nat) (names : list string) :
  match_outputs m names 0 [] ≠ [] ↔ ∃ s, s ∈ names ∧ is_Some (m !! s).
Proof.
  split.
  - destruct (match_outputs m names 0 []) as [|[k j] r] eqn:Hr; [done|].
    intros _. assert (Hj : j ∈ (match_outputs m names 0 []).*2).
    { rewrite Hr. simpl. by left. }
    apply match_outputs_from_empty in Hj as (s & Hs & Hm).
    exists s. split; [by eapply list_elem_of_lookup_2|done].
  - intros (s & [j Hj]%list_elem_of_lookup_1 & Hm) Hnil.
    assert (Hin : j ∈ (match_outputs m names 0 []).*2).
    { apply match_outputs_from_empty. eauto. }
    rewrite Hnil in Hin. by apply elem_of_nil in Hin.
Qed.

(** What [GetVariableMapping] returns, by the path taken. *)
Lemma GetVariableMapping_paths net lookup_inputs lookup_outputs :
  let r := GetVariableMapping net lookup_inputs lookup_outputs in
  let outs := match_outputs (fill_lookup_map lookup_outputs 0 ∅) (output_names net) 0 [] in
  (length lookup_inputs < GetnInputs net ∧ r = mkMatchResult false [] []) ∨
  (GetnInputs net ≤ length lookup_inputs ∧
   (∃ s, s ∈ input_names net ∧ s ∉ lookup_inputs) ∧ r = mkMatchResult false [] []) ∨
  (GetnInputs net ≤ length lookup_inputs ∧
   (∀ s, s ∈ input_names net → s ∈ lookup_inputs) ∧
   ∃ ins, match_inputs (fill_lookup_map lookup_inputs 0 ∅) (input_names net) 0 [] = Some ins ∧
          r = mkMatchResult (bool_decide (outs ≠ [])) ins outs).
Proof.
  intros r outs. subst r. unfold GetVariableMapping.
  destruct (decide (length lookup_inputs < GetnInputs net)) as [Hlt|Hge]; [by left|].
  right.
  destruct (match_inputs _ (input_names net) 0 []) as [ins|] eqn:Hins.
  - right. split; [lia|]. split.
    + intros s Hs. apply fill_lookup_map_empty.
      revert s Hs. apply (match_inputs_Some _ _ 0 []). by rewrite Hins.
    + exists ins. split; [done|]. fold outs. by destruct outs.
  - left. split; [lia|]. split; [|done].
    destruct (decide (Forall (λ s, s ∈ lookup_inputs) (input_names net)))
      as [Hall|Hex].
    + assert (Hsome : is_Some (match_inputs (fill_lookup_map lookup_inputs 0 ∅)
                                 (input_names net) 0 [])).
      { apply match_inputs_Some. intros s Hs. apply fill_lookup_map_empty.
        by eapply Forall_forall in Hall. }
      rewrite Hins in Hsome. by destruct Hsome.
    + apply not_Forall_Exists in Hex; [|intros ?; apply _].
      apply Exists_exists in Hex as (s & Hs & Hn). eauto.
Qed.
End MatcherTheorems.

Section MatcherClaims.
Context {D : Type}.
Implicit Types (net : CNeuralNetwork D) (lookup_inputs lookup_outputs : list string).

Lemma distinct_names_fit (names lookup : list string) :
  NoDup names → (∀ s, s ∈ names → s ∈ lookup) → length names ≤ length lookup.
Proof. intros Hnd Hsub. by apply submseteq_length, NoDup_submseteq. Qed.

Lemma filter_seq_none (i from n : nat) :
  i < from → filter (λ j, j = i) (seq from n) = [].
Proof.
  revert from. induction n as [|n IH]; intros from Hi; [done|]. simpl.
  rewrite filter_cons_False by lia. apply IH. lia.
Qed.

Lemma filter_seq_one (i from n : nat) :
  from ≤ i < from + n → length (filter (λ j, j = i) (seq from n)) = 1.
Proof.
  revert from. induction n as [|n IH]; intros from Hi; [lia|]. simpl.
  destruct (decide (from = i)) as [->|Hne].
  - rewrite filter_cons_True by done. simpl. by rewrite filter_seq_none by lia.
  - rewrite filter_cons_False by done. apply IH. lia.
Qed.

Lemma filter_network_side (i : nat) (pairs : list (nat * nat)) :
  length (filter (λ p, p.2 = i) pairs) = length (filter (λ j, j = i) pairs.*2).
Proof.
  induction pairs as [|[k j] pairs IH]; [done|]. simpl.
  destruct (decide (j = i)) as [->|Hne].
  - rewrite !filter_cons_True by done. simpl. by rewrite IH.
  - by rewrite !filter_cons_False by done.
Qed.

(** C2.  For a network with pairwise distinct input names and pairwise
    distinct output names, [GetVariableMapping] reports a match exactly when
    every network input name occurs in the lookup inputs and some network
    output name occurs in the lookup outputs; a network output that the
    lookup outputs do not name has no pair in the output-index list, and on
    a match every one they name has one.  With network inputs u, v and
    outputs y, z: lookup inputs u, v, w and lookup outputs y give a match
    with input pairs for u and v and the single output pair for y; lookup
    inputs u alone give no match whatever the lookup outputs are. *)
Theorem GetVariableMapping_match_iff net lookup_inputs lookup_outputs :
  NoDup (input_names net) → NoDup (output_names net) →
  let r := GetVariableMapping net lookup_inputs lookup_outputs in
  (is_match r = true ↔
     (∀ s, s ∈ input_names net → s ∈ lookup_inputs) ∧
     (∃ s, s ∈ output_names net ∧ s ∈ lookup_outputs)) ∧
  (∀ j s, output_names net !! j = Some s → s ∉ lookup_outputs →
          j ∉ (output_indices r).*2) ∧
  (is_match r = true →
     ∀ j s, output_names net !! j = Some s → s ∈ lookup_outputs →
            j ∈ (output_indices r).*2) ∧
  (input_names net = ["u"; "v"] → output_names net = ["y"; "z"] →
     GetVariableMapping net ["u"; "v"; "w"] ["y"] =
     mkMatchResult true [(0, 0); (1, 1)] [(0, 0)]) ∧
  (input_names net = ["u"; "v"] →
     ∀ outputs, is_match (GetVariableMapping net ["u"] outputs) = false).
Proof.
  intros Hin Hout r.
  pose proof (GetVariableMapping_paths net lookup_inputs lookup_outputs) as Hr.
  simpl in Hr. fold r in Hr.
  assert (Hnames : ∀ s, is_Some (fill_lookup_map lookup_outputs 0 ∅ !! s) ↔
                        s ∈ lookup_outputs) by (intros; apply fill_lookup_map_empty).
  split_and!.
  - destruct Hr as [[Hlt ->]|[(Hge & (s & Hs & Hn) & ->)|(Hge & Hall & ins & Hins & ->)]];
      simpl.
    + split; [done|]. intros [Hall _].
      pose proof (distinct_names_fit _ _ Hin Hall). unfold GetnInputs in Hlt. lia.
    + split; [done|]. intros [Hall _]. by destruct Hn; apply Hall.
    + rewrite bool_decide_eq_true, match_outputs_nonempty.
      setoid_rewrite Hnames. tauto.
  - intros j s Hj Hn Hjr.
    destruct Hr as [[_ ->]|[(_ & _ & ->)|(_ & _ & ins & _ & ->)]]; simpl in Hjr;
      try by apply elem_of_nil in Hjr.
    apply match_outputs_from_empty in Hjr as (s' & Hs' & Hm).
    rewrite Hj in Hs'. injection Hs' as <-. by apply Hn, Hnames.
  - destruct Hr as [[_ ->]|[(_ & _ & ->)|(_ & _ & ins & _ & ->)]]; simpl; try done.
    intros _ j s Hj Hs. apply match_outputs_from_empty.
    exists s. split; [done|]. by apply Hnames.
  - intros Hi Ho. unfold GetVariableMapping, GetnInputs. by rewrite Hi, Ho.
  - intros Hi outputs. unfold GetVariableMapping, GetnInputs. by rewrite Hi.
Qed.

(** C9.  Whenever [GetVariableMapping] reports a match, the network-side
    components of the input-index list are exactly 0, 1, ..., n-1 in this
    order, so that every network input index occurs exactly once, and the
    output-index list is not empty.  This holds for every network, those
    with n distinct input names among them. *)
Theorem GetVariableMapping_match_coverage net lookup_inputs lookup_outputs :
  let r := GetVariableMapping net lookup_inputs lookup_outputs in
  is_match r = true →
  (input_indices r).*2 = seq 0 (GetnInputs net) ∧
  (∀ i, i < GetnInputs net →
        length (filter (λ p, p.2 = i) (input_indices r)) = 1) ∧
  1 ≤ length (output_indices r).
Proof.
  intros r Hmatch.
  pose proof (GetVariableMapping_paths net lookup_inputs lookup_outputs) as Hr.
  simpl in Hr. fold r in Hr.
  destruct Hr as [[_ Hr]|[(_ & _ & Hr)|(_ & _ & ins & Hins & Hr)]];
    rewrite Hr in Hmatch |- *; simpl in *; try done.
  apply match_inputs_network_side in Hins. simpl in Hins.
  apply bool_decide_eq_true in Hmatch.
  split_and!.
  - done.
  - intros i Hi.
    rewrite filter_network_side, Hins.
    apply filter_seq_one. unfold GetnInputs in Hi. lia.
  - destruct (match_outputs _ _ _ _); [done|simpl; lia].
Qed.
End MatcherClaims.

(** C3.  The early return for a missing input clears the input-index list,
    the return for "no matching outputs" does not: with the single network
    input u among the lookup inputs and no lookup output the network knows,
    the result is a non-match that still carries the input pair. *)
Theorem GetVariableMapping_no_output_keeps_inputs :
  GetVariableMapping Example.single ["u"] ["z"] = mkMatchResult false [(0, 0)] [].
Proof. reflexivity. Qed.

(** ** The activation-function evaluator *)

Section ActivationFacts.
Context {D : Type} `{MlpDouble D}.
Implicit Types (net : CNeuralNetwork D) (X : D).
Local Open Scope mlp_scope.

(** The evaluator never touches anything but [Phi], [Phi_prime] and
    [Phi_dprime]. *)
Lemma ActivationFunction_switch_frame net tag X :
  ∃ p p' p'',
    ActivationFunction_switch net tag X =
    set_Phi_dprime (set_Phi_prime (set_Phi net p) p') p''.
Proof.
  destruct net as [? ? ? ? ? ? ? ? ? ? ? ? ? first second ? ? ? ?].
  unfold ActivationFunction_switch, set_Phi, set_Phi_prime, set_Phi_dprime; simpl.
  repeat case_decide; destruct first, second, (X >? #0);
    simpl; eexists _, _, _; reflexivity.
Qed.

(** C5.  RELU: with second-derivative mode enabled the evaluator produces
    the second derivative 0 at every input.  ELU: with first- and
    second-derivative mode enabled it produces 0 at every input greater
    than 0 and exp(input) at every other input. *)
Theorem ActivationFunction_RELU_ELU_second net (iLayer : nat) X :
  compute_second_gradient net = true →
  (activation_function_types net !! iLayer = Some ACT.RELU →
     ∃ net', ActivationFunction net iLayer X = Some net' ∧ Phi_dprime net' = #0) ∧
  (activation_function_types net !! iLayer = Some ACT.ELU →
   compute_gradient net = true →
     ∃ net', ActivationFunction net iLayer X = Some net' ∧
             Phi_dprime net' = if X >? #0 then #0 else mlp_exp X).
Proof.
  intros Hsecond. unfold ActivationFunction. split.
  - intros ->. simpl. eexists; split; [done|].
    unfold ActivationFunction_switch; simpl.
    destruct (X >? #0), (compute_gradient net); simpl; by rewrite Hsecond.
  - intros -> Hfirst. simpl. eexists; split; [done|].
    unfold ActivationFunction_switch; simpl.
    destruct (X >? #0); simpl; by rewrite Hfirst; simpl; rewrite Hsecond.
Qed.

(** C6.  Tag NONE: the evaluator yields the value 0, the first derivative 0
    when first-derivative mode is enabled, and the second derivative 0 when
    first- and second-derivative mode are both enabled.  A tag outside the
    enumeration: the evaluator returns normally and leaves the value and
    both derivatives as they were. *)
Theorem ActivationFunction_NONE_and_unknown net (iLayer : nat) X tag :
  activation_function_types net !! iLayer = Some tag →
  ∃ net', ActivationFunction net iLayer X = Some net' ∧
    (tag = ACT.NONE →
       Phi net' = #0 ∧
       (compute_gradient net = true → Phi_prime net' = #0) ∧
       (compute_gradient net = true → compute_second_gradient net = true →
          Phi_dprime net' = #0)) ∧
    (¬ named_tag tag → net' = net).
Proof.
  intros Htag. unfold ActivationFunction. rewrite Htag. simpl.
  eexists; split; [done|]. split.
  - intros ->. unfold ActivationFunction_switch; simpl.
    destruct (compute_gradient net) eqn:Hfirst; simpl;
      [destruct (compute_second_gradient net) eqn:Hsecond|]; simpl; split_and!;
      done.
  - intros Hunknown. unfold named_tag in Hunknown.
    unfold ActivationFunction_switch.
    repeat case_decide; try done; subst tag; exfalso; apply Hunknown;
      unfold ACT.ELU, ACT.LINEAR, ACT.EXPONENTIAL, ACT.RELU, ACT.SWISH, ACT.TANH,
        ACT.SIGMOID, ACT.SELU, ACT.GELU, ACT.NONE; lia.
Qed.
End ActivationFacts.

(** ** Activation functions over the reals *)

Lemma Q2R_0 : Q2R 0 = 0%R.
Proof. unfold Q2R. simpl. lra. Qed.

(** C5, as first stated, fails for ELU: with both derivative modes enabled
    and the nonzero input -1 the evaluator produces the second derivative
    exp(-1), which is not 0. *)
Lemma ActivationFunction_ELU_second_nonzero :
  (-1 ≠ 0)%R ∧
  Phi_dprime <$> ActivationFunction
    (Example.network true true ACT.ELU MINMAX MINMAX) 1 (-1)%R = Some (exp (-1)) ∧
  exp (-1) ≠ 0%R.
Proof.
  split_and!.
  - lra.
  - unfold ActivationFunction. simpl. f_equal.
    unfold ActivationFunction_switch. simpl.
    destruct (Rlt_dec (Q2R 0) (-1)) as [Hlt|_]; [|done].
    rewrite Q2R_0 in Hlt. lra.
  - pose proof (exp_pos (-1)). lra.
Qed.

(** C6, as first stated, fails for a tag outside the enumeration: with the
    tag 42 the evaluator leaves [Phi] at the value 1 it had before. *)
Lemma ActivationFunction_unknown_keeps_Phi :
  ¬ named_tag 42%Z ∧
  Phi <$> ActivationFunction
    (Example.network true true 42%Z MINMAX MINMAX) 1 0%R = Some 1%R ∧
  (1 ≠ 0)%R.
Proof.
  split_and!.
  - unfold named_tag. lia.
  - reflexivity.
  - lra.
Qed.

(** ** Normalisation *)

Section NormalisationFacts.
Context {D : Type} `{MlpDouble D}.
Implicit Types (net : CNeuralNetwork D).

(** The three helpers that act on outputs read the input-side selector
    only: the output-side selector has no influence on them. *)
Lemma output_helpers_ignore_output_method net (m : ENUM_SCALING_FUNCTIONS) i b y :
  GetRegularizationScale (SetOutputRegularization net m) i b =
    GetRegularizationScale net i b ∧
  GetRegularizationOffset (SetOutputRegularization net m) i b =
    GetRegularizationOffset net i b ∧
  DimensionalizeOutput (SetOutputRegularization net m) y i =
    DimensionalizeOutput net y i.
Proof. done. Qed.
End NormalisationFacts.

(** C4.  The selector read by [GetRegularizationScale] and
    [DimensionalizeOutput] is [input_reg_method].  With min-max inputs and
    standardised outputs, output pair (1, 3): the scale factor of output 0 is
    3 - 1 and not the second parameter 3, and the value y is mapped to
    (3 - 1) * y + 1 and not to 3 * y + 1. *)
Theorem output_scaling_follows_input_method :
  let net := Example.network true true ACT.LINEAR MINMAX STANDARD in
  output_reg_method net = STANDARD ∧
  output_norm net !! 0 = Some (1, 3)%R ∧
  GetRegularizationScale net 0 false = Some (3 - 1)%R ∧
  (3 - 1 ≠ 3)%R ∧
  ∀ y : R, DimensionalizeOutput net y 0 = Some ((3 - 1) * y + 1)%R ∧
           (y ≠ 0 → (3 - 1) * y + 1 ≠ 3 * y + 1)%R.
Proof.
  simpl. split_and!; try done; try lra.
  intros y. split; [done|]. intros Hy. lra.
Qed.

(** C7.  Over the reals: when inputs and outputs use the same strategy and
    variable [i] the same parameter pair on both sides, and the scale of the
    pair is not zero, [DimensionalizeOutput] undoes [NormalizeInput]. *)
Theorem normalization_round_trip (net : CNeuralNetwork R) (i : nat) (p : R * R) (x : R) :
  input_reg_method net = output_reg_method net →
  input_norm net !! i = Some p →
  output_norm net !! i = Some p →
  scale_nonzero (input_reg_method net) p →
  (NormalizeInput net x i ≫= λ y, DimensionalizeOutput net y i) = Some x.
Proof.
  intros _ Hin Hout Hscale.
  unfold NormalizeInput, DimensionalizeOutput. rewrite Hin. simpl.
  destruct (input_reg_method net) eqn:Hm; simpl; rewrite Hout, ?Hm; simpl;
    f_equal; simpl in Hscale; field; lra.
Qed.

(** ** Construction *)

(** The keys of [activation_function_map] are the ten recognised names. *)
Lemma activation_function_map_None (input : string) :
  input ∉ ["none"; "linear"; "relu"; "elu"; "gelu"; "selu"; "sigmoid"; "swish";
           "tanh"; "exponential"] →
  activation_function_map !! input = None.
Proof.
  intros Hnot. unfold activation_function_map. apply not_elem_of_list_to_map_1.
  simpl. rewrite !elem_of_cons, elem_of_nil.
  rewrite !elem_of_cons, elem_of_nil in Hnot. tauto.
Qed.

(** A recognised name is stored together with its tag. *)
Lemma SetActivationFunction_recognized {D} (net : CNeuralNetwork D) (i_layer : nat)
    (input : string) (tag : ENUM_ACTIVATION_FUNCTION) :
  activation_function_map !! input = Some tag →
  i_layer < length (activation_function_names net) →
  i_layer < length (activation_function_types net) →
  SetActivationFunction net i_layer input =
    Some (set_activation net (<[i_layer := input]> (activation_function_names net))
                             (<[i_layer := tag]> (activation_function_types net))).
Proof.
  intros Htag Hnames Htypes. unfold SetActivationFunction, vset.
  rewrite decide_True by done. simpl. rewrite Htag. simpl.
  by rewrite decide_True by done.
Qed.

(** C8.  A name outside the recognised set is not rejected: the call has no
    error path; it stores the name and then faults on the dereference of
    [end()]. *)
Theorem SetActivationFunction_unrecognized {D} (net : CNeuralNetwork D) (i_layer : nat)
    (input : string) :
  input ∉ ["none"; "linear"; "relu"; "elu"; "gelu"; "selu"; "sigmoid"; "swish";
           "tanh"; "exponential"] →
  SetActivationFunction net i_layer input = None.
Proof.
  intros Hname%activation_function_map_None. unfold SetActivationFunction.
  destruct (vset i_layer input (activation_function_names net)); simpl; [|done].
  by rewrite Hname.
Qed.



(** ** Vectors and loops *)

Section VectorFacts.
Context {A : Type}.
Implicit Types (x : A) (v : list A) (m : list (list A)) (t : list (list (list A))).

Lemma vset_is_Some i x v : is_Some (v !! i) → vset i x v = Some (<[i := x]> v).
Proof.
  intros Hi%lookup_lt_is_Some. unfold vset. by rewrite decide_True.
Qed.

Lemma vset_Some i x v v' : vset i x v = Some v' → v' = <[i := x]> v ∧ i < length v.
Proof. unfold vset. case_decide; [|done]. by intros [= <-]. Qed.

Lemma lookup_vset i x v v' i' :
  vset i x v = Some v' →
  v' !! i' = if decide (i' = i) then Some x else v !! i'.
Proof.
  intros [-> Hi]%vset_Some. case_decide as Heq.
  - subst i'. by apply list_lookup_insert_eq.
  - by apply list_lookup_insert_ne.
Qed.

Lemma length_vset i x v v' : vset i x v = Some v' → length v' = length v.
Proof. intros [-> _]%vset_Some. apply length_insert. Qed.

Lemma vset2_is_Some i j x m : is_Some (vget2 i j m) → is_Some (vset2 i j x m).
Proof.
  unfold vget2, vset2. destruct (m !! i) as [row|]; simpl; [|by intros []].
  intros Hj. by rewrite (vset_is_Some _ _ _ Hj).
Qed.

Lemma vget2_vset2 i j x m m' i' j' :
  vset2 i j x m = Some m' →
  vget2 i' j' m' = if decide (i' = i ∧ j' = j) then Some x else vget2 i' j' m.
Proof.
  unfold vset2, vget2. destruct (m !! i) as [row|] eqn:Hrow; simpl; [|done].
  destruct (vset j x row) as [row'|] eqn:Hset; simpl; [|done]. intros [= <-].
  destruct (decide (i' = i)) as [->|Hne].
  - rewrite list_lookup_insert_eq by (by eapply lookup_lt_Some). simpl.
    rewrite (lookup_vset _ _ _ _ j' Hset), Hrow. simpl.
    repeat case_decide; (done || (exfalso; intuition congruence)).
  - rewrite list_lookup_insert_ne by done. case_decide; (done || (exfalso; intuition congruence)).
Qed.

Lemma vset3_is_Some i j k x t : is_Some (vget3 i j k t) → is_Some (vset3 i j k x t).
Proof.
  unfold vget3, vset3. destruct (t !! i) as [m|]; simpl; [|by intros []].
  intros [m' Hm']%(vset2_is_Some _ _ x). by rewrite Hm'.
Qed.

Lemma vget3_vset3 i j k x t t' i' j' k' :
  vset3 i j k x t = Some t' →
  vget3 i' j' k' t' =
    if decide (i' = i ∧ j' = j ∧ k' = k) then Some x else vget3 i' j' k' t.
Proof.
  unfold vset3, vget3. destruct (t !! i) as [m|] eqn:Hm; simpl; [|done].
  destruct (vset2 j k x m) as [m'|] eqn:Hset; simpl; [|done]. intros [= <-].
  destruct (decide (i' = i)) as [->|Hne].
  - rewrite list_lookup_insert_eq by (by eapply lookup_lt_Some). simpl.
    rewrite (vget2_vset2 _ _ _ _ _ j' k' Hset), Hm. simpl.
    repeat case_decide; (done || (exfalso; intuition congruence)).
  - rewrite list_lookup_insert_ne by done. case_decide; (done || (exfalso; intuition congruence)).
Qed.
End VectorFacts.

Section LoopFacts.
Context {St : Type}.
Implicit Types (body : nat → St → option St) (I : nat → St → Prop).

(** The invariant rule for [for_loop]: it yields termination without a
    fault together with the invariant at the exit. *)
Lemma for_loop_rule I from count body s :
  I from s →
  (∀ i t, from ≤ i < from + count → I i t → ∃ t', body i t = Some t' ∧ I (S i) t') →
  ∃ s', for_loop from count body s = Some s' ∧ I (from + count) s'.
Proof.
  revert from s. induction count as [|count IH]; intros from s Hinit Hstep; simpl.
  - exists s. by rewrite Nat.add_0_r.
  - destruct (Hstep from s) as (t & -> & Ht); [lia|done|]. simpl.
    replace (from + S count) with (S from + count) by lia.
    apply IH; [done|]. intros i u Hi. apply Hstep. lia.
Qed.

Lemma for_loop_ext from count body body' s :
  (∀ i t, from ≤ i < from + count → body i t = body' i t) →
  for_loop from count body s = for_loop from count body' s.
Proof.
  revert from s. induction count as [|count IH]; intros from s Hext; simpl; [done|].
  rewrite Hext by lia. destruct (body' from s) as [t|]; simpl; [|done].
  apply IH. intros i u Hi. apply Hext. lia.
Qed.
End LoopFacts.

Section CellFacts.
Context {D : Type}.
Implicit Types (s : CNeuralNetwork D) (c : cell) (x : D) (L : CLayer D).

Lemma GetNNeurons_skeleton s s' l :
  skeleton s' l = skeleton s l → GetNNeurons s' l = GetNNeurons s l.
Proof.
  unfold skeleton, GetNNeurons, Layer.GetNNeurons.
  destruct (layer_at s' l), (layer_at s l); simpl; intros ?; simplify_eq; congruence.
Qed.

Lemma net_IsInput_skeleton s s' l :
  skeleton s' l = skeleton s l → net_IsInput s' l = net_IsInput s l.
Proof.
  unfold skeleton, net_IsInput, Layer.IsInput.
  destruct (layer_at s' l), (layer_at s l); simpl; intros ?; simplify_eq; congruence.
Qed.

Lemma net_GetBias_skeleton s s' l i :
  skeleton s' l = skeleton s l → net_GetBias s' l i = net_GetBias s l i.
Proof.
  unfold skeleton, net_GetBias, Layer.GetBias.
  destruct (layer_at s' l), (layer_at s l); simpl; intros ?; simplify_eq; congruence.
Qed.

Lemma layer_at_replace s l L L' l' :
  layer_at s l = Some L →
  layer_at (set_total_layers s (<[l := L']> (total_layers s))) l' =
    if decide (l' = l) then Some L' else layer_at s l'.
Proof.
  unfold layer_at. simpl. intros Hl. case_decide as Heq.
  - subst l'. apply list_lookup_insert_eq. by eapply lookup_lt_Some.
  - by apply list_lookup_insert_ne.
Qed.

Lemma readable_defined_refl s : readable_defined s s.
Proof. by split_and!. Qed.

Lemma readable_defined_trans s1 s2 s3 :
  readable_defined s1 s2 → readable_defined s2 s3 → readable_defined s1 s3.
Proof. intros (?&?&?) (?&?&?). split_and!; auto. Qed.

(** The effect of one store into a layer buffer. *)
Lemma write_cell_spec s c x :
  is_Some (read_cell s c) →
  ∃ s', write_cell s c x = Some s' ∧
        read_cell s' c = Some x ∧
        (∀ c', c' ≠ c → read_cell s' c' = read_cell s c') ∧
        static s' = static s ∧ scalars s' = scalars s ∧
        (∀ l, skeleton s' l = skeleton s l) ∧
        readable_defined s s'.
Proof.
  destruct c as [l i|l i j|l i j k]; simpl.
  - unfold net_GetOutput, net_SetOutput, Layer.GetOutput, Layer.SetOutput.
    destruct (layer_at s l) as [L|] eqn:HL; simpl; [|by intros []].
    intros Hi. rewrite (vset_is_Some _ _ _ Hi). simpl.
    eexists; split; [done|].
    assert (Hat := layer_at_replace s l L
      (mkCLayer (number_of_neurons L) (is_input L) (<[i:=x]> (layer_outputs L))
         (layer_biases L) (layer_dYdX L) (layer_d2YdX2 L))).
    split_and!; try done.
    + unfold net_GetOutput. rewrite Hat, decide_True by done. simpl.
      apply list_lookup_insert_eq. by apply lookup_lt_is_Some.
    + intros [l' i'|l' i' j'|l' i' j' k'] Hne; simpl;
        unfold net_GetOutput, net_GetdYdX, net_Getd2YdX2; rewrite Hat by done;
        case_decide; subst; rewrite ?HL; simpl; try done.
      unfold Layer.GetOutput; simpl. apply list_lookup_insert_ne. congruence.
    + intros l'. unfold skeleton. rewrite Hat by done.
      case_decide; subst; rewrite ?HL; done.
  - unfold net_GetdYdX, net_SetdYdX, Layer.GetdYdX, Layer.SetdYdX.
    destruct (layer_at s l) as [L|] eqn:HL; simpl; [|by intros []].
    intros [d Hd]%(vset2_is_Some _ _ x). rewrite Hd. simpl.
    eexists; split; [done|].
    assert (Hat := layer_at_replace s l L
      (mkCLayer (number_of_neurons L) (is_input L) (layer_outputs L)
         (layer_biases L) d (layer_d2YdX2 L))).
    split_and!; try done.
    + unfold net_GetdYdX. rewrite Hat, decide_True by done. simpl.
      unfold Layer.GetdYdX; simpl.
      rewrite (vget2_vset2 _ _ _ _ _ i j Hd). by rewrite decide_True.
    + intros [l' i'|l' i' j'|l' i' j' k'] Hne; simpl;
        unfold net_GetOutput, net_GetdYdX, net_Getd2YdX2; rewrite Hat by done;
        case_decide; subst; rewrite ?HL; simpl; try done.
      unfold Layer.GetdYdX; simpl.
      rewrite (vget2_vset2 _ _ _ _ _ i' j' Hd). apply decide_False.
      intros [-> ->]. done.
    + intros l'. unfold skeleton. rewrite Hat by done.
      case_decide; subst; rewrite ?HL; done.
  - unfold net_Getd2YdX2, net_Setd2YdX2, Layer.Getd2YdX2, Layer.Setd2YdX2.
    destruct (layer_at s l) as [L|] eqn:HL; simpl; [|by intros []].
    intros [d Hd]%(vset3_is_Some _ _ _ x). rewrite Hd. simpl.
    eexists; split; [done|].
    assert (Hat := layer_at_replace s l L
      (mkCLayer (number_of_neurons L) (is_input L) (layer_outputs L)
         (layer_biases L) (layer_dYdX L) d)).
    split_and!; try done.
    + unfold net_Getd2YdX2. rewrite Hat, decide_True by done. simpl.
      unfold Layer.Getd2YdX2; simpl.
      rewrite (vget3_vset3 _ _ _ _ _ _ i j k Hd). by rewrite decide_True.
    + intros [l' i'|l' i' j'|l' i' j' k'] Hne; simpl;
        unfold net_GetOutput, net_GetdYdX, net_Getd2YdX2; rewrite Hat by done;
        case_decide; subst; rewrite ?HL; simpl; try done.
      unfold Layer.Getd2YdX2; simpl.
      rewrite (vget3_vset3 _ _ _ _ _ _ i' j' k' Hd). apply decide_False.
      intros (-> & -> & ->). done.
    + intros l'. unfold skeleton. rewrite Hat by done.
      case_decide; subst; rewrite ?HL; done.
Qed.
End CellFacts.

Section EvolutionFacts.
Context {D : Type}.
Implicit Types (s : CNeuralNetwork D) (c : cell) (x : D) (keeps : cell → Prop).

Lemma static_fields s s' :
  static s' = static s →
  n_hidden_layers s' = n_hidden_layers s ∧ weights_mat s' = weights_mat s ∧
  input_norm s' = input_norm s ∧ output_norm s' = output_norm s ∧
  input_reg_method s' = input_reg_method s ∧
  compute_gradient s' = compute_gradient s ∧
  compute_second_gradient s' = compute_second_gradient s ∧
  activation_function_types s' = activation_function_types s.
Proof. unfold static. intros [= ? ? ? ? ? ? ? ?]. by split_and!. Qed.

Lemma evolves_refl keeps s : evolves keeps s s.
Proof. by constructor. Qed.

Lemma evolves_trans keeps s1 s2 s3 :
  evolves keeps s1 s2 → evolves keeps s2 s3 → evolves keeps s1 s3.
Proof.
  intros [H1 H2 H3 H4 H5] [K1 K2 K3 K4 K5]. constructor.
  - by rewrite K1.
  - intros l. by rewrite K2.
  - auto.
  - by eapply readable_defined_trans.
  - intros c Hc. by rewrite K5, H5.
Qed.

Lemma evolves_weaken keeps keeps' s s' :
  (∀ c, keeps' c → keeps c) → evolves keeps s s' → evolves keeps' s s'.
Proof. intros Hsub [H1 H2 H3 H4 H5]. constructor; auto. Qed.

Lemma evolves_neurons keeps s s' l :
  evolves keeps s s' → GetNNeurons s' l = GetNNeurons s l.
Proof. intros Hev. apply GetNNeurons_skeleton, Hev. Qed.

Lemma evolves_nInputs keeps s s' : evolves keeps s s' → nInputs s' = nInputs s.
Proof. intros Hev. unfold nInputs. by rewrite (evolves_neurons _ _ _ _ Hev). Qed.

Lemma evolves_nOutputs keeps s s' : evolves keeps s s' → nOutputs s' = nOutputs s.
Proof.
  intros Hev. unfold nOutputs, outputLayer_index.
  destruct (static_fields _ _ (ev_static _ _ _ Hev)) as (-> & _).
  by rewrite (evolves_neurons _ _ _ _ Hev).
Qed.

Lemma evolves_in_range keeps s s' c :
  evolves keeps s s' → cell_in_range s' c → cell_in_range s c.
Proof.
  intros Hev. destruct c; simpl;
    rewrite ?(evolves_nInputs _ _ _ Hev), (evolves_neurons _ _ _ _ Hev); done.
Qed.

(** Every store of the propagation keeps a sized network addressable. *)
Lemma allocated_evolves keeps s s' : allocated s → evolves keeps s s' → allocated s'.
Proof.
  intros Hal Hev.
  destruct (static_fields _ _ (ev_static _ _ _ Hev))
    as (Hh & Hw & Hin & Hon & _ & _ & _ & Ht).
  destruct (ev_readable _ _ _ Hev) as (Ha & Hd & Hd2).
  pose proof (evolves_nInputs _ _ _ Hev) as HnI.
  pose proof (evolves_nOutputs _ _ _ Hev) as HnO.
  constructor.
  - intros l. rewrite Hh, (evolves_neurons _ _ _ _ Hev). apply Hal.
  - intros l. rewrite Hh, (net_IsInput_skeleton _ _ _ (ev_skeleton _ _ _ Hev l)).
    apply Hal.
  - intros l i n. rewrite (evolves_neurons _ _ _ _ Hev),
      (net_GetBias_skeleton _ _ _ _ (ev_skeleton _ _ _ Hev l)). apply Hal.
  - intros c Hc. apply (ev_defined _ _ _ Hev), Hal. by eapply evolves_in_range.
  - intros l i j n m. rewrite !(evolves_neurons _ _ _ _ Hev), Hw. apply Hal.
  - intros i. rewrite HnI, Hin. apply Hal.
  - intros i. rewrite HnO, Hon. apply Hal.
  - intros i. rewrite HnO. intros Hi. by apply Ha, Hal.
  - intros i j. rewrite HnO, HnI. intros Hi Hj. by apply Hd, Hal.
  - intros i j k. rewrite HnO, HnI. intros Hi Hj Hk. by apply Hd2, Hal.
  - intros l. rewrite Hh, Ht. apply Hal.
Qed.

(** One store, seen as an evolution. *)
Lemma write_cell_evolves s c x :
  is_Some (read_cell s c) →
  ∃ s', write_cell s c x = Some s' ∧ evolves (λ c', c' ≠ c) s s' ∧
        read_cell s' c = Some x ∧ scalars s' = scalars s.
Proof.
  intros Hc.
  destruct (write_cell_spec s c x Hc) as (s' & Hw & Hr & Hk & Hs & Hsc & Hsk & Hrd).
  exists s'. split_and!; try done. constructor; try done.
  intros c' [v Hv]. destruct (decide (c' = c)) as [->|Hne]; [by rewrite Hr|].
  by rewrite Hk, Hv.
Qed.

Lemma shape2_vget2 {A} n m (v : list (list A)) i j :
  shape2 n m v → i < n → j < m → is_Some (vget2 i j v).
Proof.
  intros [Hlen Hrows] Hi Hj. unfold vget2.
  destruct (lookup_lt_is_Some_2 v i) as [row Hrow]; [lia|]. rewrite Hrow. simpl.
  apply lookup_lt_is_Some. by rewrite (Forall_lookup_1 _ _ _ _ Hrows Hrow).
Qed.

Lemma shape3_vget3 {A} n m k (v : list (list (list A))) i j j' :
  shape3 n m k v → i < n → j < m → j' < k → is_Some (vget3 i j j' v).
Proof.
  intros [Hlen Hrows] Hi Hj Hj'. unfold vget3.
  destruct (lookup_lt_is_Some_2 v i) as [row Hrow]; [lia|]. rewrite Hrow. simpl.
  eapply shape2_vget2; [|done..]. apply (Forall_lookup_1 _ _ _ _ Hrows Hrow).
Qed.

Lemma sized_allocated s : sized s → allocated s.
Proof.
  intros Hs.
  assert (Hn : ∀ l n, GetNNeurons s l = Some n →
            ∃ L, layer_at s l = Some L ∧ number_of_neurons L = n ∧
                 layer_sized (nInputs s) L).
  { intros l n. unfold GetNNeurons. destruct (layer_at s l) as [L|] eqn:HL; [|done].
    simpl. intros [= <-]. exists L. split_and!; try done.
    by apply (sized_layer _ Hs l L). }
  constructor.
  - intros l Hl. unfold GetNNeurons. apply fmap_is_Some, lookup_lt_is_Some.
    by rewrite (sized_total_layers _ Hs).
  - intros l Hl. unfold net_IsInput.
    destruct (lookup_lt_is_Some_2 (total_layers s) l) as [L HL];
      [by rewrite (sized_total_layers _ Hs)|].
    unfold layer_at. rewrite HL. simpl. f_equal.
    by apply (sized_layer _ Hs l L).
  - intros l i n (L & HL & <- & HLs)%Hn Hi. unfold net_GetBias. rewrite HL. simpl.
    apply lookup_lt_is_Some. by rewrite (sized_biases _ _ HLs).
  - intros [l i|l i j|l i j k]; simpl.
    + intros (n & (L & HL & <- & HLs)%Hn & Hi). unfold net_GetOutput. rewrite HL. simpl.
      apply lookup_lt_is_Some. by rewrite (sized_outputs _ _ HLs).
    + intros (n & (L & HL & <- & HLs)%Hn & Hi & Hj). unfold net_GetdYdX. rewrite HL.
      simpl. eapply shape2_vget2; [apply (sized_dYdX _ _ HLs)|done..].
    + intros (n & (L & HL & <- & HLs)%Hn & Hi & Hj & Hk). unfold net_Getd2YdX2.
      rewrite HL. simpl. eapply shape3_vget3; [apply (sized_d2YdX2 _ _ HLs)|done..].
  - intros l i j n m (P & HP & <- & _)%Hn (C & HC & <- & _)%Hn Hi Hj.
    destruct (sized_weights _ Hs l P C HP HC) as (W & HW & Hshape).
    unfold vget3. rewrite HW. simpl. by eapply shape2_vget2.
  - intros i Hi. apply lookup_lt_is_Some. by rewrite (sized_input_norm _ Hs).
  - intros i Hi. apply lookup_lt_is_Some. by rewrite (sized_output_norm _ Hs).
  - intros i Hi. apply lookup_lt_is_Some. by rewrite (sized_ANN_outputs _ Hs).
  - intros i j Hi Hj. eapply shape2_vget2; [apply (sized_dOutputs_dInputs _ Hs)|done..].
  - intros i j k Hi Hj Hk.
    eapply shape3_vget3; [apply (sized_d2Outputs_dInputs2 _ Hs)|done..].
  - intros l Hl. apply lookup_lt_is_Some.
    by rewrite (sized_activation_function_types _ Hs).
Qed.
End EvolutionFacts.

(** ** Weighted sums over the previous layer *)

Section SumFacts.
Context {D : Type} `{MlpDouble D}.
Implicit Types (s : CNeuralNetwork D) (keeps : cell → Prop).

Lemma ComputeX_is_Some s lp i n m :
  allocated s → GetNNeurons s lp = Some m → GetNNeurons s (S lp) = Some n → i < n →
  is_Some (ComputeX s (S lp) i).
Proof.
  intros Hal Hm Hn Hi. unfold ComputeX.
  destruct (al_bias _ Hal (S lp) i n Hn Hi) as [b ->]. simpl. rewrite Hm. simpl.
  destruct (for_loop_rule (λ _ _, True) 0 m
    (λ jNeuron x,
       w ← vget3 lp i jNeuron (weights_mat s);
       y ← net_GetOutput s lp jNeuron; Some (mlp_add x (mlp_mul w y))) b I)
    as (x & -> & _); [|done].
  intros j t Hj _.
  destruct (al_weights _ Hal lp i j n m Hm Hn Hi) as [w ->]; [lia|].
  destruct (al_cells _ Hal (OutputCell lp j)) as [y Hy]; [exists m; split; [done|lia]|].
  simpl in Hy. rewrite Hy. simpl. eauto.
Qed.

Lemma ComputePsi_is_Some s lp i j n m :
  allocated s → GetNNeurons s lp = Some m → GetNNeurons s (S lp) = Some n → i < n →
  j < nInputs s → is_Some (ComputePsi s (S lp) i j).
Proof.
  intros Hal Hm Hn Hi Hj. unfold ComputePsi. simpl. rewrite Hm. simpl.
  destruct (for_loop_rule (λ _ _, True) 0 m
    (λ jNeuron psi,
       w ← vget3 lp i jNeuron (weights_mat s);
       d ← net_GetdYdX s lp jNeuron j; Some (mlp_add psi (mlp_mul w d)))
    (mlp_lit 0) I) as (x & -> & _); [|done].
  intros jN t HjN _.
  destruct (al_weights _ Hal lp i jN n m Hm Hn Hi) as [w ->]; [lia|].
  destruct (al_cells _ Hal (FirstCell lp jN j)) as [y Hy];
    [exists m; split_and!; [done|lia|done]|].
  simpl in Hy. rewrite Hy. simpl. eauto.
Qed.

Lemma ComputeChi_is_Some s lp i j k n m :
  allocated s → GetNNeurons s lp = Some m → GetNNeurons s (S lp) = Some n → i < n →
  j < nInputs s → k < nInputs s → is_Some (ComputeChi s (S lp) i j k).
Proof.
  intros Hal Hm Hn Hi Hj Hk. unfold ComputeChi. simpl. rewrite Hm. simpl.
  destruct (for_loop_rule (λ _ _, True) 0 m
    (λ jNeuron chi,
       w ← vget3 lp i jNeuron (weights_mat s);
       d ← net_Getd2YdX2 s lp jNeuron j k; Some (mlp_add chi (mlp_mul w d)))
    (mlp_lit 0) I) as (x & -> & _); [|done].
  intros jN t HjN _.
  destruct (al_weights _ Hal lp i jN n m Hm Hn Hi) as [w ->]; [lia|].
  destruct (al_cells _ Hal (SecondCell lp jN j k)) as [y Hy];
    [exists m; split_and!; [done|lia|done..]|].
  simpl in Hy. rewrite Hy. simpl. eauto.
Qed.

(** The sums read the previous layer only. *)
Lemma ComputeX_evolves keeps s s' lp i :
  evolves keeps s s' → (∀ jNeuron, keeps (OutputCell lp jNeuron)) →
  ComputeX s' (S lp) i = ComputeX s (S lp) i.
Proof.
  intros Hev Hkeeps. unfold ComputeX.
  rewrite (net_GetBias_skeleton _ _ _ _ (ev_skeleton _ _ _ Hev (S lp))).
  destruct (net_GetBias s (S lp) i) as [b|]; simpl; [|done].
  rewrite (evolves_neurons _ _ _ _ Hev).
  destruct (GetNNeurons s lp) as [m|]; simpl; [|done].
  apply for_loop_ext. intros j t _.
  destruct (static_fields _ _ (ev_static _ _ _ Hev)) as (_ & -> & _).
  pose proof (ev_keeps _ _ _ Hev (OutputCell lp j) (Hkeeps j)) as Hk.
  simpl in Hk. by rewrite Hk.
Qed.

Lemma ComputePsi_evolves keeps s s' lp i j :
  evolves keeps s s' → (∀ jNeuron, keeps (FirstCell lp jNeuron j)) →
  ComputePsi s' (S lp) i j = ComputePsi s (S lp) i j.
Proof.
  intros Hev Hkeeps. unfold ComputePsi. simpl.
  rewrite (evolves_neurons _ _ _ _ Hev).
  destruct (GetNNeurons s lp) as [m|]; simpl; [|done].
  apply for_loop_ext. intros jN t _.
  destruct (static_fields _ _ (ev_static _ _ _ Hev)) as (_ & -> & _).
  pose proof (ev_keeps _ _ _ Hev (FirstCell lp jN j) (Hkeeps jN)) as Hk.
  simpl in Hk. by rewrite Hk.
Qed.

Lemma ComputeChi_evolves keeps s s' lp i j k :
  evolves keeps s s' → (∀ jNeuron, keeps (SecondCell lp jNeuron j k)) →
  ComputeChi s' (S lp) i j k = ComputeChi s (S lp) i j k.
Proof.
  intros Hev Hkeeps. unfold ComputeChi. simpl.
  rewrite (evolves_neurons _ _ _ _ Hev).
  destruct (GetNNeurons s lp) as [m|]; simpl; [|done].
  apply for_loop_ext. intros jN t _.
  destruct (static_fields _ _ (ev_static _ _ _ Hev)) as (_ & -> & _).
  pose proof (ev_keeps _ _ _ Hev (SecondCell lp jN j k) (Hkeeps jN)) as Hk.
  simpl in Hk. by rewrite Hk.
Qed.

(** For a named tag the derivatives the evaluator produces depend on the tag
    and on the input only. *)
Lemma ActivationFunction_switch_prime s s' tag X :
  named_tag tag → compute_gradient s = true → compute_gradient s' = true →
  Phi_prime (ActivationFunction_switch s tag X) =
  Phi_prime (ActivationFunction_switch s' tag X).
Proof.
  unfold named_tag. intros Htag Hs Hs'.
  destruct s, s'; simpl in Hs, Hs'; subst.
  assert (tag ∈ [0; 1; 2; 3; 4; 5; 6; 7; 8; 9]%Z) as Hcases.
  { rewrite !elem_of_cons. lia. }
  rewrite !elem_of_cons, elem_of_nil in Hcases.
  unfold ActivationFunction_switch.
  destruct Hcases as [->|[->|[->|[->|[->|[->|[->|[->|[->|[->|[]]]]]]]]]]]; simpl;
    destruct (mlp_gt X (mlp_lit 0)); simpl;
    repeat match goal with |- context [if ?b then _ else _] => destruct b end;
    reflexivity.
Qed.

Lemma ActivationFunction_switch_dprime s s' tag X :
  named_tag tag → compute_gradient s = true → compute_gradient s' = true →
  compute_second_gradient s = true → compute_second_gradient s' = true →
  Phi_dprime (ActivationFunction_switch s tag X) =
  Phi_dprime (ActivationFunction_switch s' tag X).
Proof.
  unfold named_tag. intros Htag Hs Hs' Ht Ht'.
  destruct s, s'; simpl in Hs, Hs', Ht, Ht'; subst.
  assert (tag ∈ [0; 1; 2; 3; 4; 5; 6; 7; 8; 9]%Z) as Hcases.
  { rewrite !elem_of_cons. lia. }
  rewrite !elem_of_cons, elem_of_nil in Hcases.
  unfold ActivationFunction_switch.
  destruct Hcases as [->|[->|[->|[->|[->|[->|[->|[->|[->|[->|[]]]]]]]]]]]; simpl;
    destruct (mlp_gt X (mlp_lit 0)); simpl; reflexivity.
Qed.
End SumFacts.

(** ** One neuron of a hidden or output layer *)

Ltac loop_rule I t' HI :=
  match goal with
  | |- context [for_loop 0 ?n ?body ?t] =>
      let Hloop := fresh "Hloop" in
      destruct (for_loop_rule I 0 n body t) as (t' & Hloop & HI);
      [ | | rewrite Hloop; simpl in HI ]
  end.

Section NeuronFacts.
Context {D : Type} `{MlpDouble D}.
Implicit Types (s t u : CNeuralNetwork D) (keeps : cell → Prop).
Local Open Scope mlp_scope.

Lemma scalars_fields s s' :
  scalars s' = scalars s →
  Phi s' = Phi s ∧ Phi_prime s' = Phi_prime s ∧ Phi_dprime s' = Phi_dprime s.
Proof. unfold scalars. by intros [= -> -> ->]. Qed.

(** The evaluator leaves every buffer alone. *)
Lemma ActivationFunction_evolves s l X tag :
  activation_function_types s !! l = Some tag →
  ActivationFunction s l X = Some (ActivationFunction_switch s tag X) ∧
  evolves (λ _, True) s (ActivationFunction_switch s tag X) ∧
  gradient_buffers (ActivationFunction_switch s tag X) = gradient_buffers s.
Proof.
  intros Htag. unfold ActivationFunction. rewrite Htag. simpl. split; [done|].
  destruct (ActivationFunction_switch_frame s tag X) as (p & p' & p'' & ->).
  split; [|done]. by constructor.
Qed.

(** The loop over [kInput] for a fixed [jInput]. *)
Lemma Predict_second_spec t lp i j n m psi_j :
  allocated t → GetNNeurons t lp = Some m → GetNNeurons t (S lp) = Some n →
  i < n → j < nInputs t →
  ∃ t', Predict_second t (S lp) i j (nInputs t) psi_j = Some t' ∧
    evolves (λ c, ∀ k, c ≠ SecondCell (S lp) i j k) t t' ∧
    scalars t' = scalars t ∧
    ∀ k, k < nInputs t →
      ∃ psi_k chi, ComputePsi t (S lp) i k = Some psi_k ∧
                   ComputeChi t (S lp) i j k = Some chi ∧
                   read_cell t' (SecondCell (S lp) i j k) =
                     Some (Phi_dprime t * psi_j * psi_k + Phi_prime t * chi).
Proof.
  intros Hal Hm Hn Hi Hj. unfold Predict_second.
  set (keeps := λ c, ∀ k, c ≠ SecondCell (S lp) i j k).
  set (I := λ (k : nat) u,
    evolves keeps t u ∧ scalars u = scalars t ∧
    ∀ k', k' < k →
      ∃ psi_k chi, ComputePsi t (S lp) i k' = Some psi_k ∧
                   ComputeChi t (S lp) i j k' = Some chi ∧
                   read_cell u (SecondCell (S lp) i j k') =
                     Some (Phi_dprime t * psi_j * psi_k + Phi_prime t * chi)).
  loop_rule I t' HI.
  - split_and!; [apply evolves_refl|done|lia].
  - intros k u Hk (Hev & Hsc & Hdone). simpl in Hk.
    destruct (ComputePsi_is_Some t lp i k n m) as [psi_k Hpsi]; try done; [lia|].
    destruct (ComputeChi_is_Some t lp i j k n m) as [chi Hchi]; try done; [lia|].
    rewrite (ComputePsi_evolves keeps t u lp i k Hev), Hpsi by (by intros jN k').
    simpl.
    rewrite (ComputeChi_evolves keeps t u lp i j k Hev), Hchi
      by (intros jN k' [=]; lia).
    simpl.
    destruct (scalars_fields _ _ Hsc) as (_ & -> & ->).
    destruct (write_cell_evolves u (SecondCell (S lp) i j k)
                (Phi_dprime t * psi_j * psi_k + Phi_prime t * chi))
      as (u' & Hw & Hev' & Hr & Hsc').
    { apply (ev_defined _ _ _ Hev), (al_cells _ Hal). exists n.
      split_and!; [done..|lia]. }
    simpl in Hw. rewrite Hw. exists u'. split; [done|]. split_and!.
    + eapply evolves_trans; [done|]. eapply evolves_weaken; [|done].
      intros c Hc ->. by apply (Hc k).
    + by rewrite Hsc'.
    + intros k' Hk'. destruct (decide (k' = k)) as [->|Hne]; [by eauto|].
      destruct (Hdone k') as (psi' & chi' & ? & ? & Hread); [lia|].
      exists psi', chi'. split_and!; [done..|].
      rewrite <-Hread. apply (ev_keeps _ _ _ Hev'). intros [=]. lia.
  - exists t'. destruct HI as (? & ? & ?). by split_and!.
Qed.

(** The loop over [jInput]. *)
Lemma Predict_gradient_spec t lp i n m :
  allocated t → GetNNeurons t lp = Some m → GetNNeurons t (S lp) = Some n → i < n →
  ∃ t', Predict_gradient t (S lp) i (nInputs t) = Some t' ∧
    evolves (λ c, ∀ j k, c ≠ FirstCell (S lp) i j ∧ c ≠ SecondCell (S lp) i j k) t t' ∧
    scalars t' = scalars t ∧
    ∀ j, j < nInputs t →
      ∃ psi_j, ComputePsi t (S lp) i j = Some psi_j ∧
        read_cell t' (FirstCell (S lp) i j) = Some (psi_j * Phi_prime t) ∧
        (compute_second_gradient t = true →
         ∀ k, k < nInputs t →
           ∃ psi_k chi, ComputePsi t (S lp) i k = Some psi_k ∧
                        ComputeChi t (S lp) i j k = Some chi ∧
                        read_cell t' (SecondCell (S lp) i j k) =
                          Some (Phi_dprime t * psi_j * psi_k + Phi_prime t * chi)).
Proof.
  intros Hal Hm Hn Hi. unfold Predict_gradient.
  set (keeps := λ c, ∀ j k, c ≠ FirstCell (S lp) i j ∧ c ≠ SecondCell (S lp) i j k).
  set (I := λ (j : nat) u,
    evolves keeps t u ∧ scalars u = scalars t ∧
    ∀ j', j' < j →
      ∃ psi_j, ComputePsi t (S lp) i j' = Some psi_j ∧
        read_cell u (FirstCell (S lp) i j') = Some (psi_j * Phi_prime t) ∧
        (compute_second_gradient t = true →
         ∀ k, k < nInputs t →
           ∃ psi_k chi, ComputePsi t (S lp) i k = Some psi_k ∧
                        ComputeChi t (S lp) i j' k = Some chi ∧
                        read_cell u (SecondCell (S lp) i j' k) =
                          Some (Phi_dprime t * psi_j * psi_k + Phi_prime t * chi))).
  loop_rule I t' HI.
  - split_and!; [apply evolves_refl|done|lia].
  - intros j u Hj (Hev & Hsc & Hdone). simpl in Hj.
    destruct (ComputePsi_is_Some t lp i j n m) as [psi_j Hpsi]; try done; [lia|].
    rewrite (ComputePsi_evolves keeps t u lp i j Hev), Hpsi
      by (intros jN j' k'; split; intros [=]; lia).
    simpl. destruct (scalars_fields _ _ Hsc) as (_ & HP' & HP'').
    rewrite HP'.
    destruct (write_cell_evolves u (FirstCell (S lp) i j) (psi_j * Phi_prime t))
      as (u1 & Hw & Hev1 & Hr1 & Hsc1).
    { apply (ev_defined _ _ _ Hev), (al_cells _ Hal). exists n.
      split_and!; [done..|lia]. }
    simpl in Hw. rewrite Hw. simpl.
    assert (Hev01 : evolves keeps t u1).
    { eapply evolves_trans; [done|]. eapply evolves_weaken; [|done].
      intros c Hc ->. by destruct (Hc j 0) as [Hne _]. }
    assert (Hsecond : compute_second_gradient u1 = compute_second_gradient t).
    { by destruct (static_fields _ _ (ev_static _ _ _ Hev01)) as (_&_&_&_&_&_&->&_). }
    rewrite Hsecond.
    assert (Hkept : ∀ u2, evolves (λ c, ∀ k, c ≠ SecondCell (S lp) i j k) u1 u2 →
              ∀ j', j' < j →
              ∃ psi_j, ComputePsi t (S lp) i j' = Some psi_j ∧
                read_cell u2 (FirstCell (S lp) i j') = Some (psi_j * Phi_prime t) ∧
                (compute_second_gradient t = true →
                 ∀ k, k < nInputs t →
                   ∃ psi_k chi, ComputePsi t (S lp) i k = Some psi_k ∧
                     ComputeChi t (S lp) i j' k = Some chi ∧
                     read_cell u2 (SecondCell (S lp) i j' k) =
                       Some (Phi_dprime t * psi_j * psi_k + Phi_prime t * chi))).
    { intros u2 Hev2 j' Hj'. destruct (Hdone j' Hj') as (psi' & Hpsi' & Hr' & Hs').
      exists psi'. split_and!; [done| |].
      - rewrite <-Hr'.
        rewrite (ev_keeps _ _ _ Hev2) by (by intros k).
        apply (ev_keeps _ _ _ Hev1). intros [=]. lia.
      - intros Hcsg k Hk. destruct (Hs' Hcsg k Hk) as (psi_k & chi & ? & ? & Hr'').
        exists psi_k, chi. split_and!; [done..|].
        rewrite <-Hr''.
        rewrite (ev_keeps _ _ _ Hev2) by (intros k' [=]; lia).
        by apply (ev_keeps _ _ _ Hev1). }
    destruct (compute_second_gradient t) eqn:Hcsg.
    + assert (Hal1 : allocated u1) by (by eapply allocated_evolves).
      assert (HnI : nInputs u1 = nInputs t) by (by eapply evolves_nInputs).
      destruct (Predict_second_spec u1 lp i j n m psi_j)
        as (u2 & Hrun & Hev2 & Hsc2 & Hcells); try done.
      { by rewrite (evolves_neurons _ _ _ _ Hev01). }
      { by rewrite (evolves_neurons _ _ _ _ Hev01). }
      { rewrite HnI. lia. }
      rewrite HnI in Hrun, Hcells. rewrite Hrun. exists u2. split; [done|].
      split_and!.
      * eapply evolves_trans; [done|]. eapply evolves_weaken; [|done].
        intros c Hc k. exact (proj2 (Hc j k)).
      * by rewrite Hsc2, Hsc1.
      * intros j' Hj'. destruct (decide (j' = j)) as [->|Hne]; [|apply Hkept; [done|lia]].
        exists psi_j. split_and!; [done| |].
        -- rewrite <-Hr1. by apply (ev_keeps _ _ _ Hev2).
        -- intros _ k Hk. destruct (Hcells k Hk) as (psi_k & chi & Hpk & Hchi & Hread).
           rewrite (ComputePsi_evolves keeps t u1 lp i k Hev01) in Hpk
             by (intros jN j'' k''; split; intros [=]; lia).
           rewrite (ComputeChi_evolves keeps t u1 lp i j k Hev01) in Hchi
             by (intros jN j'' k''; split; intros [=]; lia).
           destruct (scalars_fields _ _ Hsc1) as (_ & HQ' & HQ'').
           rewrite HQ', HQ'', HP', HP'' in Hread. eauto.
    + exists u1. split; [done|]. split_and!; [done|by rewrite Hsc1|].
      intros j' Hj'. destruct (decide (j' = j)) as [->|Hne].
      * exists psi_j. by split_and!.
      * apply (Hkept u1); [apply evolves_refl|lia].
  - exists t'. destruct HI as (? & ? & ?). by split_and!.
Qed.

Lemma neuron_done_evolves keeps s s' lp i :
  evolves keeps s s' →
  (∀ c, cell_layer c = lp → keeps c) →
  (∀ c, cell_neuron c = (S lp, i) → keeps c) →
  compute_gradient s = true → activations_assigned s →
  neuron_done s (S lp) i → neuron_done s' (S lp) i.
Proof.
  intros Hev Hprev Hself Hcg Hnamed Hdone j Hj.
  destruct (static_fields _ _ (ev_static _ _ _ Hev))
    as (_ & _ & _ & _ & _ & Hcg' & Hcsg' & Ht).
  rewrite (evolves_nInputs _ _ _ Hev) in Hj.
  destruct (Hdone j Hj) as [(tag & X & psi_j & Htag & HX & Hpsi & Hread) Hsecond].
  assert (Hn : named_tag tag) by (apply (Hnamed (S lp)); [lia|done]).
  assert (HX' : ComputeX s' (S lp) i = Some X).
  { rewrite <-HX. eapply ComputeX_evolves; [done|]. intros jN. by apply Hprev. }
  assert (Hpsi' : ∀ k psi, ComputePsi s (S lp) i k = Some psi →
                           ComputePsi s' (S lp) i k = Some psi).
  { intros k psi <-. eapply ComputePsi_evolves; [done|]. intros jN. by apply Hprev. }
  assert (HP' : Phi_prime (ActivationFunction_switch s' tag X) =
                Phi_prime (ActivationFunction_switch s tag X)).
  { apply ActivationFunction_switch_prime; congruence. }
  split.
  - exists tag, X, psi_j. split_and!; [congruence|done|by apply Hpsi'|].
    rewrite HP', <-Hread. by apply (ev_keeps _ _ _ Hev (FirstCell (S lp) i j)), Hself.
  - rewrite Hcsg', (evolves_nInputs _ _ _ Hev). intros Hcsg k Hk.
    destruct (Hsecond Hcsg k Hk)
      as (tag2 & X2 & pj & pk & chi & Htag2 & HX2 & Hpj & Hpk & Hchi & Hread2).
    assert (tag2 = tag) as -> by congruence.
    assert (X2 = X) as -> by congruence.
    exists tag, X, pj, pk, chi. split_and!; [congruence|done|by apply Hpsi'..| |].
    + rewrite <-Hchi. eapply ComputeChi_evolves; [done|]. intros jN. by apply Hprev.
    + rewrite HP'.
      rewrite (ActivationFunction_switch_dprime s' s tag X) by congruence.
      rewrite <-Hread2.
      by apply (ev_keeps _ _ _ Hev (SecondCell (S lp) i j k)), Hself.
Qed.

(** The body of the neuron loop for a layer after the input layer. *)
Lemma Predict_neuron_spec s inputs lp i n m :
  allocated s → S lp < n_hidden_layers s + 2 →
  GetNNeurons s lp = Some m → GetNNeurons s (S lp) = Some n → i < n →
  compute_gradient s = true → activations_assigned s →
  ∃ s', Predict_neuron s inputs (S lp) i = Some s' ∧
        evolves (λ c, cell_neuron c ≠ (S lp, i)) s s' ∧
        neuron_done s' (S lp) i.
Proof.
  intros Hal Hl Hm Hn Hi Hcg Hnamed. unfold Predict_neuron.
  rewrite (al_is_input _ Hal (S lp) Hl). simpl.
  destruct (ComputeX_is_Some s lp i n m) as [X HX]; try done. rewrite HX. simpl.
  destruct (al_types _ Hal (S lp) Hl) as [tag Htag].
  destruct (ActivationFunction_evolves s (S lp) X tag Htag) as (-> & Hev1 & _). simpl.
  set (s1 := ActivationFunction_switch s tag X) in *.
  assert (Hal1 : allocated s1) by (by eapply allocated_evolves).
  destruct (write_cell_evolves s1 (OutputCell (S lp) i) (Phi s1))
    as (s2 & Hw & Hev2 & _ & Hsc2).
  { apply (al_cells _ Hal1). exists n. by rewrite (evolves_neurons _ _ _ _ Hev1). }
  simpl in Hw. rewrite Hw. simpl.
  assert (Hev02 : evolves (λ c, cell_neuron c ≠ (S lp, i)) s s2).
  { eapply evolves_trans; [by eapply evolves_weaken; [|exact Hev1]|].
    eapply evolves_weaken; [|done]. intros c Hc ->. by apply Hc. }
  assert (Hal2 : allocated s2) by (by eapply allocated_evolves).
  destruct (static_fields _ _ (ev_static _ _ _ Hev02))
    as (Hh2 & _ & _ & _ & _ & Hcg2 & Hcsg2 & Ht2).
  rewrite Hcg2, Hcg.
  destruct (al_neurons _ Hal2 0) as [nIn HnIn]; [lia|]. rewrite HnIn. simpl.
  assert (HnI2 : nInputs s2 = nIn) by (unfold nInputs; by rewrite HnIn).
  destruct (Predict_gradient_spec s2 lp i n m) as (s3 & Hrun & Hev3 & Hsc3 & Hcells);
    try done; try (by rewrite (evolves_neurons _ _ _ _ Hev02)).
  rewrite HnI2 in Hrun, Hcells. rewrite Hrun. exists s3. split; [done|].
  assert (Hev03 : evolves (λ c, cell_neuron c ≠ (S lp, i)) s s3).
  { eapply evolves_trans; [done|]. eapply evolves_weaken; [|done].
    intros c Hc j k. split; intros ->; by apply Hc. }
  split; [done|].
  destruct (static_fields _ _ (ev_static _ _ _ Hev03))
    as (_ & _ & _ & _ & _ & Hcg3 & Hcsg3 & Ht3).
  assert (HX3 : ComputeX s3 (S lp) i = Some X).
  { rewrite <-HX. eapply ComputeX_evolves; [done|]. intros jN [=]. lia. }
  assert (Hpsi3 : ∀ k psi, ComputePsi s2 (S lp) i k = Some psi →
                           ComputePsi s3 (S lp) i k = Some psi).
  { intros k psi <-. eapply ComputePsi_evolves; [done|].
    intros jN j' k'. split; intros [=]; lia. }
  assert (Htagn : named_tag tag) by (apply (Hnamed (S lp)); [lia|done]).
  destruct (scalars_fields _ _ Hsc2) as (_ & HP2 & HD2).
  assert (HP3 : Phi_prime s2 = Phi_prime (ActivationFunction_switch s3 tag X)).
  { rewrite HP2. apply ActivationFunction_switch_prime; congruence. }
  intros j Hj. rewrite (evolves_nInputs _ _ _ Hev3), HnI2 in Hj.
  destruct (Hcells j Hj) as (psi_j & Hpsi & Hread & Hsecond).
  split.
  - exists tag, X, psi_j. split_and!; [congruence|done|by apply Hpsi3|].
    by rewrite <-HP3.
  - rewrite (evolves_nInputs _ _ _ Hev3), HnI2, Hcsg3. intros Hcsg k Hk.
    destruct (Hsecond (eq_trans Hcsg2 Hcsg) k Hk) as (psi_k & chi & Hpk & Hchi & Hread2).
    exists tag, X, psi_j, psi_k, chi.
    split_and!; [congruence|done|by apply Hpsi3..| |].
    + rewrite <-Hchi. eapply ComputeChi_evolves; [done|].
      intros jN j' k'. split; intros [=]; lia.
    + simpl in Hread2. rewrite Hread2, <-HP3, HD2.
      by rewrite (ActivationFunction_switch_dprime s3 s tag X) by congruence.
Qed.
End NeuronFacts.

(** ** The input layer *)

Section InputLayerFacts.
Context {D : Type} `{MlpDouble D}.
Implicit Types (s t u : CNeuralNetwork D) (inputs : list D).
Local Open Scope mlp_scope.

Lemma NormalizeInput_is_Some s x i :
  is_Some (input_norm s !! i) → is_Some (NormalizeInput s x i).
Proof.
  intros [p Hp]. unfold NormalizeInput. rewrite Hp. simpl.
  by destruct (input_reg_method s).
Qed.

Lemma GetRegularizationScale_is_Some s i (is_input : bool) :
  is_Some ((if is_input then input_norm s else output_norm s) !! i) →
  is_Some (GetRegularizationScale s i is_input).
Proof.
  intros [p Hp]. unfold GetRegularizationScale.
  destruct (input_reg_method s), is_input; rewrite Hp; done.
Qed.

Lemma DimensionalizeOutput_is_Some s y i :
  is_Some (output_norm s !! i) → is_Some (DimensionalizeOutput s y i).
Proof.
  intros [p Hp]. unfold DimensionalizeOutput. rewrite Hp. simpl.
  by destruct (input_reg_method s).
Qed.

(** A store into the outputs of a layer leaves the derivative buffers as
    lists untouched. *)
Lemma net_SetOutput_gradient_buffers s l i x s' :
  net_SetOutput s l i x = Some s' → gradient_buffers s' = gradient_buffers s.
Proof.
  unfold net_SetOutput, Layer.SetOutput.
  destruct (layer_at s l) as [L|] eqn:HL; simpl; [|done].
  destruct (vset i x (layer_outputs L)) as [o|]; simpl; [|done].
  intros [= <-]. unfold gradient_buffers. simpl. do 2 f_equal.
  rewrite list_fmap_insert. simpl. apply list_insert_id.
  rewrite list_lookup_fmap. unfold layer_at in HL. by rewrite HL.
Qed.

Lemma ComputeInputLayer_spec s inputs i :
  allocated s → i < nInputs s → nInputs s ≤ length inputs →
  ∃ s', ComputeInputLayer s inputs i = Some s' ∧
        evolves (λ c, cell_neuron c ≠ (0, i)) s s' ∧
        (compute_gradient s = false → gradient_buffers s' = gradient_buffers s).
Proof.
  intros Hal Hi Hlen. unfold ComputeInputLayer.
  destruct (lookup_lt_is_Some_2 inputs i) as [x ->]; [lia|]. simpl.
  destruct (NormalizeInput_is_Some s x i) as [x_norm ->]; [by apply Hal|]. simpl.
  destruct (al_neurons _ Hal 0) as [nIn HnIn]; [lia|].
  assert (HnI : nInputs s = nIn) by (unfold nInputs; by rewrite HnIn).
  destruct (write_cell_evolves s (OutputCell 0 i) x_norm) as (s1 & Hw & Hev1 & _ & _).
  { apply (al_cells _ Hal). exists nIn. split; [done|lia]. }
  simpl in Hw. rewrite Hw. simpl.
  set (keeps := λ c, cell_neuron c ≠ (0, i)).
  assert (Hev01 : evolves keeps s s1).
  { eapply evolves_weaken; [|done]. intros c Hc ->. by apply Hc. }
  destruct (static_fields _ _ (ev_static _ _ _ Hev01))
    as (_ & _ & Hin & _ & _ & Hcg1 & _).
  rewrite Hcg1. destruct (compute_gradient s) eqn:Hcg.
  2:{ exists s1. split_and!; [done..|]. intros _.
      by eapply net_SetOutput_gradient_buffers. }
  rewrite (evolves_neurons _ _ _ _ Hev01), HnIn. simpl.
  loop_rule (λ (_ : nat) u, evolves keeps s u) s' HI.
  - done.
  - intros j u Hj Hev. simpl in Hj.
    destruct (static_fields _ _ (ev_static _ _ _ Hev)) as (_ & _ & Hin' & _).
    assert (Hstore : ∀ v, ∃ u1, net_SetdYdX u 0 i j v = Some u1 ∧ evolves keeps s u1).
    { intros v. destruct (write_cell_evolves u (FirstCell 0 i j) v)
        as (u1 & Hw1 & Hevu & _ & _).
      { apply (ev_defined _ _ _ Hev), (al_cells _ Hal). exists nIn.
        split_and!; [done|lia..]. }
      exists u1. split; [done|]. eapply evolves_trans; [done|].
      eapply evolves_weaken; [|done]. intros c Hc ->. by apply Hc. }
    assert (∃ u1, (if decide (j = i)
                   then scale ← GetRegularizationScale u i true;
                        net_SetdYdX u 0 i j (#1 / scale)
                   else net_SetdYdX u 0 i j #0) = Some u1 ∧ evolves keeps s u1)
      as (u1 & -> & Hevu1).
    { case_decide; [|apply Hstore].
      destruct (GetRegularizationScale_is_Some u i true) as [scale ->];
        [rewrite Hin'; by apply Hal|].
      apply Hstore. }
    simpl. destruct (compute_second_gradient u1); [|by eauto].
    loop_rule (λ (_ : nat) u2, evolves keeps s u2) u2 HI2.
    + done.
    + intros k u2 Hk Hev2. simpl in Hk.
      destruct (write_cell_evolves u2 (SecondCell 0 i j k) #0)
        as (u3 & Hw3 & Hevu3 & _ & _).
      { apply (ev_defined _ _ _ Hev2), (al_cells _ Hal). exists nIn.
        split_and!; [done|lia..]. }
      exists u3. split; [done|]. eapply evolves_trans; [done|].
      eapply evolves_weaken; [|done]. intros c Hc ->. by apply Hc.
    + by eauto.
  - exists s'. by split_and!.
Qed.
End InputLayerFacts.

(** ** The loops over neurons and layers *)

Section PropagationFacts.
Context {D : Type} `{MlpDouble D}.
Implicit Types (s t u : CNeuralNetwork D) (inputs : list D).
Local Open Scope mlp_scope.

Lemma cell_neuron_layer c l i : cell_neuron c = (l, i) → cell_layer c = l.
Proof. destruct c; simpl; congruence. Qed.

Lemma activations_assigned_evolves keeps s s' :
  evolves keeps s s' → activations_assigned s → activations_assigned s'.
Proof.
  intros Hev Hs l tag Hl.
  destruct (static_fields _ _ (ev_static _ _ _ Hev)) as (_&_&_&_&_&_&_&->).
  by apply Hs.
Qed.

Lemma compute_gradient_evolves keeps s s' :
  evolves keeps s s' → compute_gradient s' = compute_gradient s.
Proof.
  intros Hev. by destruct (static_fields _ _ (ev_static _ _ _ Hev)) as (_&_&_&_&_&->&_).
Qed.

Lemma n_hidden_layers_evolves keeps s s' :
  evolves keeps s s' → n_hidden_layers s' = n_hidden_layers s.
Proof.
  intros Hev. by destruct (static_fields _ _ (ev_static _ _ _ Hev)) as (->&_).
Qed.

(** One layer, with first-derivative mode enabled. *)
Lemma Predict_layer_spec s inputs l n :
  allocated s → l < n_hidden_layers s + 2 → GetNNeurons s l = Some n →
  nInputs s ≤ length inputs → compute_gradient s = true → activations_assigned s →
  ∃ s', Predict_layer s inputs l = Some s' ∧
        evolves (λ c, cell_layer c ≠ l) s s' ∧
        (0 < l → ∀ i, i < n → neuron_done s' l i).
Proof.
  intros Hal Hl Hn Hlen Hcg Hnamed. unfold Predict_layer. rewrite Hn. simpl.
  set (keeps := λ c, cell_layer c ≠ l).
  loop_rule (λ (i : nat) u,
    evolves keeps s u ∧ (0 < l → ∀ i', i' < i → neuron_done u l i')) s' HI.
  - split; [apply evolves_refl|lia].
  - intros i u Hi (Hev & Hdone). simpl in Hi.
    assert (Halu : allocated u) by (by eapply allocated_evolves).
    assert (Hnu : GetNNeurons u l = Some n) by (by rewrite (evolves_neurons _ _ _ _ Hev)).
    assert (Hhu := n_hidden_layers_evolves _ _ _ Hev).
    destruct l as [|lp].
    + unfold Predict_neuron. rewrite (al_is_input _ Halu 0) by lia. simpl.
      destruct (ComputeInputLayer_spec u inputs i) as (u' & -> & Hev' & _); try done.
      { unfold nInputs. rewrite Hnu. simpl. lia. }
      { by rewrite (evolves_nInputs _ _ _ Hev). }
      exists u'. split; [done|]. split; [|lia].
      eapply evolves_trans; [done|]. eapply evolves_weaken; [|done].
      intros c Hc Heq. by apply Hc, (cell_neuron_layer _ _ _ Heq).
    + destruct (al_neurons _ Halu lp) as [m Hm]; [lia|].
      destruct (Predict_neuron_spec u inputs lp i n m) as (u' & -> & Hev' & Hnew);
        try done; [lia|lia|by rewrite (compute_gradient_evolves _ _ _ Hev)
                  |by eapply activations_assigned_evolves|].
      exists u'. split; [done|]. split.
      * eapply evolves_trans; [done|]. eapply evolves_weaken; [|done].
        intros c Hc Heq. by apply Hc, (cell_neuron_layer _ _ _ Heq).
      * intros _ i' Hi'. destruct (decide (i' = i)) as [->|Hne]; [done|].
        eapply neuron_done_evolves; [exact Hev'| | | | |apply Hdone; lia].
        -- intros c Hc; simpl; intros Heq%cell_neuron_layer; lia.
        -- intros c Hc; simpl; rewrite Hc; intros [=]; lia.
        -- by rewrite (compute_gradient_evolves _ _ _ Hev).
        -- by eapply activations_assigned_evolves.
  - exists s'. destruct HI as [? ?]. by split_and!.
Qed.

(** All layers, with first-derivative mode enabled. *)
Lemma Predict_layers_spec s inputs :
  allocated s → nInputs s ≤ length inputs →
  compute_gradient s = true → activations_assigned s →
  ∃ s', Predict_layers s inputs = Some s' ∧
        evolves (λ _, False) s s' ∧
        ∀ l i n, 0 < l < n_hidden_layers s + 2 → GetNNeurons s' l = Some n → i < n →
                 neuron_done s' l i.
Proof.
  intros Hal Hlen Hcg Hnamed. unfold Predict_layers.
  loop_rule (λ (l : nat) t,
    evolves (λ _, False) s t ∧
    ∀ l' i n, 0 < l' < l → GetNNeurons t l' = Some n → i < n → neuron_done t l' i)
    s' HI.
  - split; [apply evolves_refl|lia].
  - intros l t Hl (Hev & Hdone). simpl in Hl.
    assert (Halt : allocated t) by (by eapply allocated_evolves).
    assert (Hht := n_hidden_layers_evolves _ _ _ Hev).
    assert (Hcgt : compute_gradient t = true)
      by (by rewrite (compute_gradient_evolves _ _ _ Hev)).
    assert (Hnamedt : activations_assigned t)
      by (by eapply activations_assigned_evolves).
    destruct (al_neurons _ Halt l) as [n Hn]; [lia|].
    destruct (Predict_layer_spec t inputs l n) as (t' & -> & Hev' & Hnew); try done;
      [lia|by rewrite (evolves_nInputs _ _ _ Hev)|].
    exists t'. split; [done|]. split.
    + eapply evolves_trans; [done|]. by eapply evolves_weaken; [|exact Hev'].
    + intros l' i n' Hl' Hn' Hi.
      rewrite (evolves_neurons _ _ _ _ Hev') in Hn'.
      destruct (decide (l' = l)) as [->|Hne].
      * assert (n' = n) as -> by congruence. apply Hnew; [lia|done].
      * destruct l' as [|lp']; [lia|].
        eapply neuron_done_evolves; [exact Hev'| | |done|done|].
        -- intros c Hc. simpl. lia.
        -- intros c Hc%cell_neuron_layer. simpl. lia.
        -- eapply Hdone; [lia|done..].
  - exists s'. destruct HI as [? Hdone]. split_and!; [done..|].
    intros l i n Hl. apply Hdone. lia.
Qed.

(** ** Without first-derivative mode *)

Lemma Predict_neuron_frame s inputs l i n :
  allocated s → l < n_hidden_layers s + 2 → GetNNeurons s l = Some n → i < n →
  nInputs s ≤ length inputs → compute_gradient s = false →
  ∃ s', Predict_neuron s inputs l i = Some s' ∧
        evolves (λ _, False) s s' ∧ gradient_buffers s' = gradient_buffers s.
Proof.
  intros Hal Hl Hn Hi Hlen Hcg. unfold Predict_neuron.
  rewrite (al_is_input _ Hal l Hl). simpl. destruct l as [|lp]; simpl.
  - destruct (ComputeInputLayer_spec s inputs i) as (s' & -> & Hev & Hbuf); try done.
    { unfold nInputs. rewrite Hn. simpl. lia. }
    exists s'. split_and!; [done| |by apply Hbuf].
    by eapply evolves_weaken; [|exact Hev].
  - destruct (al_neurons _ Hal lp) as [m Hm]; [lia|].
    destruct (ComputeX_is_Some s lp i n m) as [X ->]; try done. simpl.
    destruct (al_types _ Hal (S lp) Hl) as [tag Htag].
    destruct (ActivationFunction_evolves s (S lp) X tag Htag) as (-> & Hev1 & Hbuf1).
    simpl. set (s1 := ActivationFunction_switch s tag X) in *.
    assert (Hal1 : allocated s1) by (by eapply allocated_evolves).
    destruct (write_cell_evolves s1 (OutputCell (S lp) i) (Phi s1))
      as (s2 & Hw & Hev2 & _ & _).
    { apply (al_cells _ Hal1). exists n. by rewrite (evolves_neurons _ _ _ _ Hev1). }
    simpl in Hw. rewrite Hw. simpl.
    assert (Hev02 : evolves (λ _, False) s s2).
    { eapply evolves_trans; by eapply evolves_weaken; [|done]. }
    rewrite (compute_gradient_evolves _ _ _ Hev02), Hcg.
    exists s2. split_and!; [done..|].
    by rewrite (net_SetOutput_gradient_buffers _ _ _ _ _ Hw).
Qed.

Lemma Predict_layers_frame s inputs :
  allocated s → nInputs s ≤ length inputs → compute_gradient s = false →
  ∃ s', Predict_layers s inputs = Some s' ∧
        evolves (λ _, False) s s' ∧ gradient_buffers s' = gradient_buffers s.
Proof.
  intros Hal Hlen Hcg. unfold Predict_layers.
  set (I := λ (_ : nat) t,
    evolves (λ _ : cell, False) s t ∧ gradient_buffers t = gradient_buffers s).
  loop_rule I s' HI.
  - split; [apply evolves_refl|done].
  - intros l t Hl (Hev & Hbuf). simpl in Hl.
    assert (Halt : allocated t) by (by eapply allocated_evolves).
    assert (Hht := n_hidden_layers_evolves _ _ _ Hev).
    destruct (al_neurons _ Halt l) as [n Hn]; [lia|].
    unfold Predict_layer. rewrite Hn. simpl.
    set (J := λ (_ : nat) u,
      evolves (λ _ : cell, False) t u ∧ gradient_buffers u = gradient_buffers t).
    loop_rule J t' HJ.
    + split; [apply evolves_refl|done].
    + intros i u Hi (Hevu & Hbufu). simpl in Hi.
      destruct (Predict_neuron_frame u inputs l i n) as (u' & -> & Hev' & Hbuf');
        try done.
      * by eapply allocated_evolves.
      * rewrite (n_hidden_layers_evolves _ _ _ Hevu). lia.
      * by rewrite (evolves_neurons _ _ _ _ Hevu).
      * lia.
      * by rewrite (evolves_nInputs _ _ _ Hevu), (evolves_nInputs _ _ _ Hev).
      * by rewrite (compute_gradient_evolves _ _ _ Hevu),
          (compute_gradient_evolves _ _ _ Hev).
      * exists u'. split; [done|]. split; [by eapply evolves_trans|congruence].
    + exists t'. destruct HJ as [? ?]. split; [done|].
      split; [by eapply evolves_trans|congruence].
  - exists s'. destruct HI as [? ?]. by split_and!.
Qed.

Lemma DeNormalizeOutputs_frame s :
  allocated s → compute_gradient s = false →
  ∃ s', DeNormalizeOutputs s = Some s' ∧ gradient_buffers s' = gradient_buffers s.
Proof.
  intros Hal Hcg. unfold DeNormalizeOutputs.
  destruct (al_neurons _ Hal (outputLayer_index s)) as [nOut HnOut];
    [unfold outputLayer_index; lia|].
  rewrite HnOut. simpl.
  assert (HnO : nOutputs s = nOut) by (unfold nOutputs; by rewrite HnOut).
  set (I := λ (_ : nat) u,
    ∃ a, u = set_ANN_outputs s a ∧ length a = length (ANN_outputs s)).
  loop_rule I s' HI.
  - exists (ANN_outputs s). split; [by destruct s|done].
  - intros i u Hi (a & -> & Hlen). simpl in Hi. unfold DeNormalize_neuron.
    destruct (al_cells _ Hal (OutputCell (outputLayer_index s) i)) as [y Hy];
      [exists nOut; split; [done|lia]|].
    simpl in Hy.
    change (net_GetOutput (set_ANN_outputs s a) (outputLayer_index (set_ANN_outputs s a)) i)
      with (net_GetOutput s (outputLayer_index s) i).
    rewrite Hy. simpl.
    destruct (GetRegularizationScale_is_Some s i false) as [scale Hscale];
      [apply (al_output_norm _ Hal); lia|].
    change (GetRegularizationScale (set_ANN_outputs s a) i false)
      with (GetRegularizationScale s i false).
    rewrite Hscale. simpl.
    destruct (DimensionalizeOutput_is_Some s y i) as [Y_out HY];
      [apply (al_output_norm _ Hal); lia|].
    change (DimensionalizeOutput (set_ANN_outputs s a) y i)
      with (DimensionalizeOutput s y i).
    rewrite HY. simpl.
    rewrite (vset_is_Some i Y_out a).
    2:{ apply lookup_lt_is_Some. rewrite Hlen. apply lookup_lt_is_Some.
        apply (al_ANN_outputs _ Hal). lia. }
    simpl. rewrite Hcg. eexists. split; [done|].
    exists (<[i := Y_out]> a). split; [done|]. by rewrite length_insert.
  - destruct HI as (a & -> & _). by eexists.
Qed.
End PropagationFacts.


(** ** The output stage *)

Section OutputStageFacts.
Context {D : Type} `{MlpDouble D}.
Implicit Types (s t u v : CNeuralNetwork D).
Local Open Scope mlp_scope.

Lemma set_ANN_outputs_evolves u i x a :
  vset i x (ANN_outputs u) = Some a → evolves (λ _, True) u (set_ANN_outputs u a).
Proof.
  intros Ha. constructor; try done. split_and!; try done.
  intros i' Hi'. unfold GetANNOutput in *. simpl.
  rewrite (lookup_vset _ _ _ _ i' Ha). by case_decide.
Qed.

Lemma set_dOutputs_dInputs_evolves u i j x g :
  vset2 i j x (dOutputs_dInputs u) = Some g →
  evolves (λ _, True) u (set_dOutputs_dInputs u g).
Proof.
  intros Hg. constructor; try done. split_and!; try done.
  intros i' j' Hij. unfold GetdOutputdInput in *. simpl.
  rewrite (vget2_vset2 _ _ _ _ _ i' j' Hg). by case_decide.
Qed.

Lemma set_d2Outputs_dInputs2_evolves u i j k x g :
  vset3 i j k x (d2Outputs_dInputs2 u) = Some g →
  evolves (λ _, True) u (set_d2Outputs_dInputs2 u g).
Proof.
  intros Hg. constructor; try done. split_and!; try done.
  intros i' j' k' Hijk. unfold Getd2OutputdInput2 in *. simpl.
  rewrite (vget3_vset3 _ _ _ _ _ _ i' j' k' Hg). by case_decide.
Qed.

(** [DeNormalizeOutputs] ends without a fault; in the layers it changes
    nothing but the derivative rows of the output layer. *)
Lemma DeNormalizeOutputs_spec s :
  allocated s →
  ∃ s', DeNormalizeOutputs s = Some s' ∧
        evolves (λ c, ∀ i j k, c ≠ FirstCell (outputLayer_index s) i j ∧
                               c ≠ SecondCell (outputLayer_index s) i j k) s s'.
Proof.
  intros Hal. unfold DeNormalizeOutputs.
  set (out := outputLayer_index s).
  set (keeps := λ c, ∀ i j k, c ≠ FirstCell out i j ∧ c ≠ SecondCell out i j k).
  destruct (al_neurons _ Hal out) as [nOut HnOut]; [unfold out, outputLayer_index; lia|].
  rewrite HnOut. simpl.
  destruct (al_neurons _ Hal 0) as [nIn HnIn]; [lia|].
  assert (Hfacts : ∀ u, evolves keeps s u →
            allocated u ∧ outputLayer_index u = out ∧ nOutputs u = nOut ∧
            nInputs u = nIn ∧ GetNNeurons u out = Some nOut ∧
            GetNNeurons u 0 = Some nIn).
  { intros u Hev. split_and!.
    - by eapply allocated_evolves.
    - unfold outputLayer_index. by rewrite (n_hidden_layers_evolves _ _ _ Hev).
    - rewrite (evolves_nOutputs _ _ _ Hev). unfold nOutputs. fold out. by rewrite HnOut.
    - rewrite (evolves_nInputs _ _ _ Hev). unfold nInputs. by rewrite HnIn.
    - by rewrite (evolves_neurons _ _ _ _ Hev).
    - by rewrite (evolves_neurons _ _ _ _ Hev). }
  assert (Hmore : ∀ u u', evolves keeps s u → evolves (λ _, True) u u' →
            evolves keeps s u').
  { intros u u' Hev Hev'. eapply evolves_trans; [done|].
    by eapply evolves_weaken; [|exact Hev']. }
  assert (Hwrite : ∀ u c x, evolves keeps s u → cell_in_range u c → ¬ keeps c →
            ∃ u', write_cell u c x = Some u' ∧ evolves keeps s u' ∧
                  read_cell u' c = Some x).
  { intros u c x Hev Hc Hnk.
    destruct (Hfacts u Hev) as (Halu & _).
    destruct (write_cell_evolves u c x) as (u' & Hw & Hev' & Hr & _);
      [by apply (al_cells _ Halu)|].
    exists u'. split_and!; [done| |done].
    eapply evolves_trans; [done|]. eapply evolves_weaken; [|done].
    intros c' Hc' ->. by apply Hnk. }
  loop_rule (λ (_ : nat) u, evolves keeps s u) s' HI.
  - apply evolves_refl.
  - intros i u Hi Hev. simpl in Hi. unfold DeNormalize_neuron.
    destruct (Hfacts u Hev) as (Halu & Hout & HnO & HnI & Hno & Hni).
    rewrite Hout.
    destruct (al_cells _ Halu (OutputCell out i)) as [y Hy];
      [exists nOut; split; [done|lia]|].
    simpl in Hy. rewrite Hy. simpl.
    destruct (GetRegularizationScale_is_Some u i false) as [scale ->];
      [apply (al_output_norm _ Halu); lia|].
    simpl.
    destruct (DimensionalizeOutput_is_Some u y i) as [Y_out ->];
      [apply (al_output_norm _ Halu); lia|].
    simpl.
    pose proof (vset_is_Some i Y_out (ANN_outputs u)) as Ha.
    rewrite Ha by (apply (al_ANN_outputs _ Halu); lia). simpl.
    set (ua := set_ANN_outputs u (<[i:=Y_out]> (ANN_outputs u))).
    assert (Heva : evolves keeps s ua).
    { eapply Hmore; [done|]. eapply set_ANN_outputs_evolves.
      apply Ha, (al_ANN_outputs _ Halu). lia. }
    destruct (compute_gradient u); [|by eauto].
    destruct (Hfacts ua Heva) as (_ & Houta & _ & _ & _ & ->). simpl.
    unfold DeNormalize_gradient. rewrite Houta.
    loop_rule (λ (_ : nat) v, evolves keeps s v) u' HJ.
    + done.
    + intros j v Hj Hevv. simpl in Hj.
      destruct (Hfacts v Hevv) as (Halv & Houtv & HnOv & HnIv & Hnov & Hniv).
      destruct (al_cells _ Halv (FirstCell out i j)) as [d Hd];
        [exists nOut; split_and!; [done|lia..]|].
      simpl in Hd. rewrite Hd. simpl.
      destruct (Hwrite v (FirstCell out i j) (scale * d) Hevv)
        as (v1 & Hw1 & Hev1 & Hr1).
      { exists nOut. split_and!; [done|lia..]. }
      { intros Hk. by destruct (Hk i j 0) as [Hne _]. }
      simpl in Hw1, Hr1. rewrite Hw1. simpl. rewrite Hr1. simpl.
      destruct (Hfacts v1 Hev1) as (Halv1 & Houtv1 & HnOv1 & HnIv1 & _ & _).
      destruct (vset2_is_Some i j (scale * d) (dOutputs_dInputs v1)) as [g Hg];
        [apply (al_dOutputs_dInputs _ Halv1); lia|].
      rewrite Hg. simpl.
      set (v2 := set_dOutputs_dInputs v1 g).
      assert (Hev2 : evolves keeps s v2).
      { eapply Hmore; [done|]. by eapply set_dOutputs_dInputs_evolves. }
      destruct (compute_second_gradient v1); [|by eauto].
      unfold DeNormalize_second.
      destruct (Hfacts v2 Hev2) as (_ & -> & _).
      loop_rule (λ (_ : nat) w, evolves keeps s w) v' HK.
      * done.
      * intros k w Hk Hevw. simpl in Hk.
        destruct (Hfacts w Hevw) as (Halw & Houtw & HnOw & HnIw & Hnow & Hniw).
        destruct (al_cells _ Halw (SecondCell out i j k)) as [d2 Hd2];
          [exists nOut; split_and!; [done|lia..]|].
        simpl in Hd2. rewrite Hd2. simpl.
        destruct (Hwrite w (SecondCell out i j k) (scale * d2) Hevw)
          as (w1 & Hww & Hevw1 & Hrw).
        { exists nOut. split_and!; [done|lia..]. }
        { intros Hkk. by destruct (Hkk i j k) as [_ Hne]. }
        simpl in Hww, Hrw. rewrite Hww. simpl. rewrite Hrw. simpl.
        destruct (Hfacts w1 Hevw1) as (Halw1 & _ & HnOw1 & HnIw1 & _ & _).
        destruct (vset3_is_Some i j k (scale * d2) (d2Outputs_dInputs2 w1))
          as [g2 Hg2]; [apply (al_d2Outputs_dInputs2 _ Halw1); lia|].
        rewrite Hg2. simpl. eexists; split; [done|].
        eapply Hmore; [done|]. by eapply set_d2Outputs_dInputs2_evolves.
      * by eauto.
    + by eauto.
  - by eauto.
Qed.
End OutputStageFacts.

(** ** [Predict]: the chain rule and the gate on the first-order flag *)

Section PredictClaims.
Context {D : Type} `{MlpDouble D}.
Implicit Types (s net : CNeuralNetwork D) (inputs : list D).
Local Open Scope mlp_scope.

Lemma neuron_done_stores s lp i n m :
  (∀ a b : D, a * b = b * a) →
  allocated s → S lp < n_hidden_layers s + 2 →
  GetNNeurons s lp = Some m → GetNNeurons s (S lp) = Some n → i < n →
  neuron_done s (S lp) i → stores_chain_rule s (S lp) i.
Proof.
  intros mlp_mul_comm Hal Hl Hm Hn Hi Hdone.
  destruct (ComputeX_is_Some s lp i n m) as [X HX]; try done.
  destruct (al_types _ Hal (S lp) Hl) as [tag Htag].
  destruct (ActivationFunction_evolves s (S lp) X tag Htag) as (Hact & _ & _).
  exists X, (ActivationFunction_switch s tag X). split_and!; [done..|].
  intros j Hj.
  destruct (Hdone j Hj) as [(tag1 & X1 & psi_j & Htag1 & HX1 & Hpsi & Hread) Hsecond].
  assert (tag1 = tag) as -> by congruence.
  assert (X1 = X) as -> by congruence.
  exists psi_j. split_and!; [done|by rewrite mlp_mul_comm|].
  intros Hcsg k Hk.
  destruct (Hsecond Hcsg k Hk)
    as (tag2 & X2 & pj & pk & chi & Htag2 & HX2 & Hpj & Hpk & Hchi & Hread2).
  assert (tag2 = tag) as -> by congruence.
  assert (X2 = X) as -> by congruence.
  assert (pj = psi_j) as -> by congruence.
  by exists pk, chi.
Qed.
End PredictClaims.

(** C10.  On a sized network with first-derivative mode disabled, [Predict]
    ends without a fault and leaves the derivative buffers as they were: the
    first- and second-derivative buffers of every layer and the two readable
    buffers [dOutputs_dInputs] and [d2Outputs_dInputs2].  Second-derivative
    mode plays no part. *)
Theorem Predict_without_gradient {D} `{MlpDouble D} (net : CNeuralNetwork D)
    (inputs : list D) :
  sized net → nInputs net ≤ length inputs → compute_gradient net = false →
  ∃ net', Predict net inputs = Some net' ∧
          gradient_buffers net' = gradient_buffers net.
Proof.
  intros Hsized Hlen Hcg.
  pose proof (sized_allocated _ Hsized) as Hal.
  destruct (Predict_layers_frame net inputs Hal Hlen Hcg) as (net1 & Hrun & Hev & Hbuf).
  destruct (DeNormalizeOutputs_frame net1) as (net2 & Hout & Hbuf2).
  { by eapply allocated_evolves. }
  { by rewrite (compute_gradient_evolves _ _ _ Hev). }
  exists net2. unfold Predict. rewrite Hrun. simpl. split; [done|congruence].
Qed.

(** ** Instances of the statements above on the small network *)

Lemma SetActivationFunction_unrecognized_witness :
  ("softmax" ∉ ["none"; "linear"; "relu"; "elu"; "gelu"; "selu"; "sigmoid"; "swish";
                "tanh"; "exponential"]) ∧
  SetActivationFunction (Example.network true true ACT.LINEAR MINMAX MINMAX) 1 "softmax"
    = None.
Proof.
  assert (Hname : "softmax" ∉ ["none"; "linear"; "relu"; "elu"; "gelu"; "selu";
                               "sigmoid"; "swish"; "tanh"; "exponential"]).
  { rewrite !elem_of_cons, elem_of_nil. intros Hin.
    repeat (destruct Hin as [Hin|Hin]; [discriminate Hin|]). exact Hin. }
  split; [exact Hname|].
  exact (SetActivationFunction_unrecognized
           (Example.network true true ACT.LINEAR MINMAX MINMAX) 1 "softmax" Hname).
Defined.

Lemma GetVariableMapping_match_iff_witness :
  let net := Example.network true true ACT.LINEAR MINMAX MINMAX in
  NoDup (input_names net) ∧ NoDup (output_names net) ∧
  (is_match (GetVariableMapping net ["u"; "v"; "w"] ["y"]) = true ↔
     (∀ s, s ∈ input_names net → s ∈ ["u"; "v"; "w"]) ∧
     (∃ s, s ∈ output_names net ∧ s ∈ ["y"])).
Proof.
  assert (Hin : NoDup ["u"; "v"]) by (by apply (bool_decide_unpack _)).
  assert (Hout : NoDup ["y"; "z"]) by (by apply (bool_decide_unpack _)).
  split_and!; [exact Hin|exact Hout|].
  exact (proj1 (GetVariableMapping_match_iff
                  (Example.network true true ACT.LINEAR MINMAX MINMAX)
                  ["u"; "v"; "w"] ["y"] Hin Hout)).
Defined.

Lemma GetVariableMapping_match_coverage_witness :
  let r := GetVariableMapping (Example.network true true ACT.LINEAR MINMAX MINMAX)
             ["w"; "v"; "u"] ["z"; "y"] in
  is_match r = true ∧ (input_indices r).*2 = [0; 1] ∧ 1 ≤ length (output_indices r).
Proof.
  split; [reflexivity|].
  destruct (GetVariableMapping_match_coverage
              (Example.network true true ACT.LINEAR MINMAX MINMAX)
              ["w"; "v"; "u"] ["z"; "y"] eq_refl) as (Hi & _ & Ho).
  split; [exact Hi|exact Ho].
Defined.

Lemma ActivationFunction_RELU_ELU_second_witness :
  let net := Example.network true true ACT.ELU MINMAX MINMAX in
  compute_second_gradient net = true ∧
  activation_function_types net !! 1 = Some ACT.ELU ∧
  compute_gradient net = true ∧
  ∃ net', ActivationFunction net 1 2%R = Some net' ∧
          Phi_dprime net' = if mlp_gt 2%R (mlp_lit 0) then mlp_lit 0 else mlp_exp 2%R.
Proof.
  split_and!; try reflexivity.
  apply (proj2 (ActivationFunction_RELU_ELU_second
                  (Example.network true true ACT.ELU MINMAX MINMAX) 1 2%R eq_refl));
    reflexivity.
Defined.

Lemma ActivationFunction_NONE_and_unknown_witness :
  let net := Example.network true true 42%Z MINMAX MINMAX in
  activation_function_types net !! 1 = Some 42%Z ∧
  ∃ net', ActivationFunction net 1 0%R = Some net' ∧
    (42%Z = ACT.NONE →
       Phi net' = mlp_lit 0 ∧
       (compute_gradient net = true → Phi_prime net' = mlp_lit 0) ∧
       (compute_gradient net = true → compute_second_gradient net = true →
          Phi_dprime net' = mlp_lit 0)) ∧
    (¬ named_tag 42%Z → net' = net).
Proof.
  split; [reflexivity|].
  apply (ActivationFunction_NONE_and_unknown
           (Example.network true true 42%Z MINMAX MINMAX) 1 0%R 42%Z).
  reflexivity.
Defined.

Lemma normalization_round_trip_witness :
  let net := Example.network true true ACT.LINEAR MINMAX MINMAX in
  input_reg_method net = output_reg_method net ∧
  input_norm net !! 1 = Some (0, 1)%R ∧
  output_norm net !! 1 = Some (0, 1)%R ∧
  scale_nonzero (input_reg_method net) (0, 1)%R ∧
  (NormalizeInput net 5%R 1 ≫= λ y, DimensionalizeOutput net y 1) = Some 5%R.
Proof.
  assert (Hscale : scale_nonzero MINMAX (0, 1)%R) by (simpl; lra).
  split_and!; try reflexivity; [exact Hscale|].
  exact (normalization_round_trip
           (Example.network true true ACT.LINEAR MINMAX MINMAX) 1 (0, 1)%R 5%R
           eq_refl eq_refl eq_refl Hscale).
Defined.

Lemma network_sized first second tag method_in method_out :
  sized (Example.network first second tag method_in method_out).
Proof.
  constructor; try done.
  - intros [|[|[|l]]] L; simpl; intros [= <-]; (split; [|done]);
      constructor; simpl; repeat (split || constructor || done).
  - intros [|[|[|l]]] P C; simpl; intros [= <-] [= <-]; eexists; (split; [done|]);
      repeat (split || constructor || done).
  - repeat (split || constructor || done).
  - repeat (split || constructor || done).
Qed.

Lemma network_activations_assigned first second method_in method_out :
  activations_assigned (Example.network first second ACT.TANH method_in method_out).
Proof.
  intros [|[|[|l]]] tag Hl; simpl; try lia; intros [= <-]; unfold named_tag;
    unfold ACT.TANH, ACT.LINEAR; lia.
Qed.

Lemma Predict_without_gradient_witness :
  let net := Example.network false true ACT.TANH MINMAX MINMAX in
  sized net ∧ nInputs net ≤ length [1; 1]%R ∧ compute_gradient net = false ∧
  ∃ net', Predict net [1; 1]%R = Some net' ∧
          gradient_buffers net' = gradient_buffers net.
Proof.
  assert (Hlen : 2 ≤ 2) by lia.
  split_and!; [apply network_sized|exact Hlen|reflexivity|].
  exact (Predict_without_gradient
           (Example.network false true ACT.TANH MINMAX MINMAX) [1; 1]%R
           (network_sized _ _ _ _ _) Hlen eq_refl).
Defined.

(** * Further properties *)

(** ** Normalisation over the reals *)

Section NormalisationReals.
Implicit Types (net : CNeuralNetwork R) (p : R * R).
Local Open Scope R_scope.

(** X1.  Over the reals, [NormalizeInput] undoes [DimensionalizeOutput] when
    variable [i] has the same parameter pair on both sides and the scale of
    the pair is not zero. *)
Theorem dimensionalize_then_normalize net (i : nat) p (y : R) :
  input_norm net !! i = Some p → output_norm net !! i = Some p →
  scale_nonzero (input_reg_method net) p →
  (DimensionalizeOutput net y i ≫= λ x, NormalizeInput net x i) = Some y.
Proof.
  intros Hin Hout Hscale. unfold NormalizeInput, DimensionalizeOutput.
  rewrite Hout. simpl.
  destruct (input_reg_method net) eqn:Hm; simpl; rewrite Hin, ?Hm; simpl;
    f_equal; simpl in Hscale; field; lra.
Qed.

(** X2.  [NormalizeInput] is affine in the raw value with slope one over
    [GetRegularizationScale (i, true)]: this is the factor [ComputeInputLayer]
    seeds the first derivative of input neuron [i] with. *)
Theorem NormalizeInput_slope net (i : nat) p (x h : R) :
  input_norm net !! i = Some p → scale_nonzero (input_reg_method net) p →
  ∃ scale a b,
    GetRegularizationScale net i true = Some scale ∧ scale ≠ 0 ∧
    NormalizeInput net x i = Some a ∧ NormalizeInput net (x + h) i = Some b ∧
    b - a = 1 / scale * h.
Proof.
  intros Hin Hscale. unfold NormalizeInput, GetRegularizationScale.
  rewrite Hin. simpl.
  destruct (input_reg_method net); simpl in *; eexists _, _, _;
    (split_and!; [reflexivity| |reflexivity|reflexivity|field]); lra.
Qed.

(** X3.  [DimensionalizeOutput] is affine in the normalised value with slope
    [GetRegularizationScale (i, false)]: this is the factor by which
    [DeNormalizeOutputs] multiplies the derivatives of output [i]. *)
Theorem DimensionalizeOutput_slope net (i : nat) p (y h : R) :
  output_norm net !! i = Some p →
  ∃ scale a b,
    GetRegularizationScale net i false = Some scale ∧
    DimensionalizeOutput net y i = Some a ∧
    DimensionalizeOutput net (y + h) i = Some b ∧
    b - a = scale * h.
Proof.
  intros Hout. unfold DimensionalizeOutput, GetRegularizationScale.
  rewrite Hout. simpl.
  destruct (input_reg_method net); simpl; eexists _, _, _;
    (split_and!; [reflexivity..|ring]).
Qed.

(** X4.  The value [GetRegularizationOffset (i, true)] is normalised to one
    half under min-max scaling (it is the midpoint of the range) and to zero
    under standardisation and robust scaling (it is the first parameter). *)
Theorem NormalizeInput_offset net (i : nat) p :
  input_norm net !! i = Some p → scale_nonzero (input_reg_method net) p →
  (GetRegularizationOffset net i true ≫= λ x, NormalizeInput net x i) =
    Some (if decide (input_reg_method net = MINMAX) then 1 / 2 else 0).
Proof.
  intros Hin Hscale. unfold NormalizeInput, GetRegularizationOffset.
  destruct (input_reg_method net) eqn:Hm; rewrite Hin; simpl; rewrite ?Hin; simpl;
    rewrite ?Hm; simpl in *; f_equal.
  - replace (Q2R 0.5) with (1 / 2) by (unfold Q2R; simpl; lra). field. lra.
  - field. lra.
  - field. lra.
Qed.

(** X5.  [CheckInputInclusion] reports a raw value as inside exactly when its
    normalised value lies in the trust region of the strategy: [0, 1] under
    min-max scaling with minimum below maximum, [-2, 2] under standardisation
    and [-10, 10] under robust scaling. *)
Theorem CheckInputInclusion_normalized net (i : nat) p (x : R) :
  input_norm net !! i = Some p →
  (input_reg_method net = MINMAX → p.1 < p.2) →
  ∃ inside v,
    CheckInputInclusion net x i = Some inside ∧ NormalizeInput net x i = Some v ∧
    (inside = true ↔
       match input_reg_method net with
       | MINMAX => 0 <= v <= 1
       | STANDARD => -2 <= v <= 2
       | ROBUST => -10 <= v <= 10
       end).
Proof.
  intros Hin Horder. unfold CheckInputInclusion, NormalizeInput. rewrite Hin. simpl.
  assert (H2 : Q2R 2 = 2) by (unfold Q2R; simpl; lra).
  assert (Hm2 : Q2R (-2) = -2) by (unfold Q2R; simpl; lra).
  assert (H10 : Q2R 10 = 10) by (unfold Q2R; simpl; lra).
  assert (Hm10 : Q2R (-10) = -10) by (unfold Q2R; simpl; lra).
  destruct (input_reg_method net); eexists _, _; (split_and!; [reflexivity..|]);
    rewrite negb_true_iff, orb_false_iff; rewrite ?H2, ?Hm2, ?H10, ?Hm10.
  - specialize (Horder eq_refl).
    assert (Hv : (x - p.1) / (p.2 - p.1) * (p.2 - p.1) = x - p.1) by (field; lra).
    set (v := (x - p.1) / (p.2 - p.1)) in *.
    destruct (Rlt_dec x p.1) as [Hlo|Hlo], (Rlt_dec p.2 x) as [Hhi|Hhi];
      (split; [intros [? ?]; try discriminate|intros [Hv0 Hv1]]);
      try split; try done; nra.
  - destruct (Rlt_dec ((x - p.1) / p.2) (-2)), (Rlt_dec 2 ((x - p.1) / p.2));
      (split; [intros [? ?]; try discriminate; lra|intros ?; try done; lra]).
  - destruct (Rlt_dec ((x - p.1) / p.2) (-10)), (Rlt_dec 10 ((x - p.1) / p.2));
      (split; [intros [? ?]; try discriminate; lra|intros ?; try done; lra]).
Qed.
End NormalisationReals.

(** ** Configuration calls on a sized network *)

Section ConfigurationFacts.
Context {D : Type}.
Implicit Types (net : CNeuralNetwork D) (L : CLayer D).

Lemma shape2_vset2 {A} n m (v v' : list (list A)) i j x :
  shape2 n m v → vset2 i j x v = Some v' → shape2 n m v'.
Proof.
  intros [Hlen Hrows]. unfold vset2.
  destruct (v !! i) as [row|] eqn:Hrow; simpl; [|done].
  destruct (vset j x row) as [row'|] eqn:Hset; simpl; [|done]. intros [= <-].
  split; [by rewrite length_insert|].
  apply Forall_insert; [done|].
  rewrite (length_vset _ _ _ _ Hset). by eapply Forall_lookup_1 in Hrows.
Qed.

(** Replacing a layer by one of the same shape keeps the network sized. *)
Lemma sized_replace_layer net l L L' :
  sized net → layer_at net l = Some L →
  number_of_neurons L' = number_of_neurons L → is_input L' = is_input L →
  layer_sized (nInputs net) L' →
  sized (set_total_layers net (<[l := L']> (total_layers net))).
Proof.
  intros Hs HL Hn Hi HL'.
  set (net' := set_total_layers net (<[l := L']> (total_layers net))).
  assert (Hat : ∀ l', layer_at net' l' = if decide (l' = l) then Some L' else layer_at net l')
    by (intros; by eapply layer_at_replace).
  assert (Hcount : ∀ l', GetNNeurons net' l' = GetNNeurons net l').
  { intros l'. unfold GetNNeurons. rewrite Hat. case_decide; [subst; rewrite HL|done].
    simpl. unfold Layer.GetNNeurons. by rewrite Hn. }
  assert (HnI : nInputs net' = nInputs net) by (unfold nInputs; by rewrite Hcount).
  assert (HnO : nOutputs net' = nOutputs net)
    by (unfold nOutputs; exact (f_equal (default 0) (Hcount (outputLayer_index net)))).
  constructor.
  - simpl. rewrite length_insert. apply Hs.
  - intros l' L0. rewrite Hat, HnI. case_decide as Heq.
    + intros [= <-]. subst l'. split; [done|]. rewrite Hi. by apply (sized_layer _ Hs l L).
    + apply Hs.
  - intros l' P C. rewrite !Hat. intros HP HC.
    assert (∃ P0 C0, layer_at net l' = Some P0 ∧ layer_at net (S l') = Some C0 ∧
              number_of_neurons P = number_of_neurons P0 ∧
              number_of_neurons C = number_of_neurons C0) as (P0 & C0 & HP0 & HC0 & -> & ->).
    { destruct (decide (l' = l)) as [Hl|Hl], (decide (S l' = l)) as [Hl2|Hl2];
        try lia; simplify_eq.
      - exists L, C. by rewrite Hn.
      - exists P, L. by rewrite Hn.
      - by exists P, C. }
    apply (sized_weights _ Hs l' P0 C0 HP0 HC0).
  - rewrite HnI. apply Hs.
  - rewrite HnO. apply Hs.
  - rewrite HnO. apply Hs.
  - rewrite HnO, HnI. apply Hs.
  - rewrite HnO, HnI. apply Hs.
  - apply Hs.
Qed.

(** X6.  On a sized network [SetWeight (l, i, j, value)] succeeds for every
    neuron [i] of layer [l] and every neuron [j] of layer [l + 1]; afterwards
    the weight that [ComputeX], [ComputePsi] and [ComputeChi] read for the
    synapse from [i] to [j], [weights_mat[l][j][i]], is [value], every other
    weight and every layer is as before, and the network is still sized. *)
Theorem SetWeight_spec net (l i j : nat) (value : D) P C :
  sized net → layer_at net l = Some P → layer_at net (S l) = Some C →
  i < number_of_neurons P → j < number_of_neurons C →
  ∃ net', SetWeight net l i j value = Some net' ∧ sized net' ∧
    total_layers net' = total_layers net ∧
    ∀ l' j' i', vget3 l' j' i' (weights_mat net') =
      if decide (l' = l ∧ j' = j ∧ i' = i) then Some value
      else vget3 l' j' i' (weights_mat net).
Proof.
  intros Hs HP HC Hi Hj.
  destruct (sized_weights _ Hs l P C HP HC) as (W & HW & Hshape).
  destruct (vset3_is_Some l j i value (weights_mat net)) as [w Hw].
  { unfold vget3. rewrite HW. simpl. by eapply shape2_vget2. }
  unfold SetWeight. rewrite Hw. simpl. eexists; split; [done|]. split_and!.
  - destruct Hs as [H1 H2 H3 H4 H5 H6 H7 H8 H9]. constructor; try done.
    intros l' P' C' HP' HC'. simpl.
    destruct (H3 l' P' C' HP' HC') as (W' & HW' & Hshape').
    unfold vset3 in Hw. rewrite HW in Hw. simpl in Hw.
    destruct (vset2 j i value W) as [Wnew|] eqn:Hset; simpl in Hw; [|done].
    injection Hw as <-. destruct (decide (l' = l)) as [->|Hne].
    + exists Wnew. rewrite list_lookup_insert_eq by (by eapply lookup_lt_Some).
      split; [done|]. assert (W' = W) as -> by congruence.
      by eapply shape2_vset2.
    + exists W'. by rewrite list_lookup_insert_ne.
  - done.
  - intros l' j' i'. simpl. by apply vget3_vset3.
Qed.

(** X7.  On a sized network [SetBias (l, i, value)] succeeds for every neuron
    [i] of layer [l]; afterwards the bias that [ComputeX] reads for that
    neuron is [value], every other bias, every weight and every buffer cell is
    as before, and the network is still sized. *)
Theorem SetBias_spec net (l i : nat) (value : D) L :
  sized net → layer_at net l = Some L → i < number_of_neurons L →
  ∃ net', SetBias net l i value = Some net' ∧ sized net' ∧
    weights_mat net' = weights_mat net ∧
    (∀ l' i', net_GetBias net' l' i' =
       if decide (l' = l ∧ i' = i) then Some value else net_GetBias net l' i') ∧
    (∀ c, read_cell net' c = read_cell net c).
Proof.
  intros Hs HL Hi.
  destruct (sized_layer _ Hs l L HL) as [HLs Hin].
  unfold SetBias, CLayer_SetBias. rewrite HL. simpl.
  rewrite (vset_is_Some i value (layer_biases L))
    by (apply lookup_lt_is_Some; by rewrite (sized_biases _ _ HLs)).
  simpl. eexists; split; [done|].
  set (L' := mkCLayer _ _ _ _ _ _).
  assert (Hat := layer_at_replace net l L L').
  split_and!.
  - eapply sized_replace_layer; try done.
    destruct HLs as [H1 H2 H3 H4]. constructor; try done.
    simpl. by rewrite length_insert.
  - done.
  - intros l' i'. unfold net_GetBias. rewrite Hat by done.
    destruct (decide (l' = l)) as [->|Hne]; simpl.
    + rewrite HL. simpl. unfold Layer.GetBias; simpl.
      destruct (decide (i' = i)) as [->|Hne'].
      * rewrite decide_True by done. apply list_lookup_insert_eq.
        by rewrite (sized_biases _ _ HLs).
      * rewrite decide_False by (intros [_ ?]; done).
        by apply list_lookup_insert_ne.
    + by rewrite decide_False by (intros [? _]; done).
  - intros [l' i'|l' i' j'|l' i' j' k']; simpl;
      unfold net_GetOutput, net_GetdYdX, net_Getd2YdX2; rewrite Hat by done;
      subst L'; destruct (decide (l' = l)) as [->|?]; rewrite ?HL; done.
Qed.

(** X8.  [SetInputNorm] and [SetOutputNorm] succeed exactly on the indices of
    the vector; the pair is read back by [GetInputNorm] (resp.
    [GetOutputNorm]), the pairs of the other variables and of the other side
    are untouched, and a sized network stays sized. *)
Theorem SetNorm_GetNorm net (i : nat) (lo hi : D) :
  (i < length (input_norm net) →
   ∃ net', SetInputNorm net i lo hi = Some net' ∧
     (∀ i', GetInputNorm net' i' =
        if decide (i' = i) then Some (lo, hi) else GetInputNorm net i') ∧
     output_norm net' = output_norm net ∧ (sized net → sized net')) ∧
  (i < length (output_norm net) →
   ∃ net', SetOutputNorm net i lo hi = Some net' ∧
     (∀ i', GetOutputNorm net' i' =
        if decide (i' = i) then Some (lo, hi) else GetOutputNorm net i') ∧
     input_norm net' = input_norm net ∧ (sized net → sized net')) ∧
  (length (input_norm net) ≤ i → SetInputNorm net i lo hi = None) ∧
  (length (output_norm net) ≤ i → SetOutputNorm net i lo hi = None).
Proof.
  unfold SetInputNorm, SetOutputNorm, GetInputNorm, GetOutputNorm. split_and!.
  - intros Hi. pose proof (vset_is_Some i (lo, hi) (input_norm net)) as Hset.
    rewrite Hset by (by apply lookup_lt_is_Some). simpl. eexists; split; [done|].
    split_and!; [|done|].
    + intros i'. simpl. eapply lookup_vset. apply Hset. by apply lookup_lt_is_Some.
    + intros [H1 H2 H3 H4 H5 H6 H7 H8 H9]. constructor; try done.
      simpl. by rewrite length_insert.
  - intros Hi. pose proof (vset_is_Some i (lo, hi) (output_norm net)) as Hset.
    rewrite Hset by (by apply lookup_lt_is_Some). simpl. eexists; split; [done|].
    split_and!; [|done|].
    + intros i'. simpl. eapply lookup_vset. apply Hset. by apply lookup_lt_is_Some.
    + intros [H1 H2 H3 H4 H5 H6 H7 H8 H9]. constructor; try done.
      simpl. by rewrite length_insert.
  - intros Hi. unfold vset. by rewrite decide_False by lia.
  - intros Hi. unfold vset. by rewrite decide_False by lia.
Qed.
End ConfigurationFacts.

(** ** Names and counts *)

Section NamingFacts.
Context {D : Type}.
Implicit Types (net : CNeuralNetwork D).

(** X9.  [SetInputName] and [SetOutputName] succeed exactly on the indices
    of the name vectors; the name is read back by [GetInputName] (resp.
    [GetOutputName]), the other names stay, and the counts [GetnInputs] and
    [GetnOutputs] that the variable matcher compares against do not change. *)
Theorem SetName_GetName net (i : nat) (name : string) :
  (i < GetnInputs net →
   ∃ net', SetInputName net i name = Some net' ∧
     (∀ i', GetInputName net' i' =
        if decide (i' = i) then Some name else GetInputName net i') ∧
     output_names net' = output_names net ∧ GetnInputs net' = GetnInputs net) ∧
  (i < GetnOutputs net →
   ∃ net', SetOutputName net i name = Some net' ∧
     (∀ i', GetOutputName net' i' =
        if decide (i' = i) then Some name else GetOutputName net i') ∧
     input_names net' = input_names net ∧ GetnOutputs net' = GetnOutputs net) ∧
  (GetnInputs net ≤ i → SetInputName net i name = None) ∧
  (GetnOutputs net ≤ i → SetOutputName net i name = None).
Proof.
  unfold SetInputName, SetOutputName, GetInputName, GetOutputName,
    GetnInputs, GetnOutputs.
  split_and!.
  - intros Hi. pose proof (vset_is_Some i name (input_names net)) as Hset.
    rewrite Hset by (by apply lookup_lt_is_Some). simpl. eexists; split; [done|].
    split_and!; [|done|simpl; by rewrite length_insert].
    intros i'. eapply lookup_vset. apply Hset. by apply lookup_lt_is_Some.
  - intros Hi. pose proof (vset_is_Some i name (output_names net)) as Hset.
    rewrite Hset by (by apply lookup_lt_is_Some). simpl. eexists; split; [done|].
    split_and!; [|done|simpl; by rewrite length_insert].
    intros i'. eapply lookup_vset. apply Hset. by apply lookup_lt_is_Some.
  - intros Hi. unfold vset. by rewrite decide_False by lia.
  - intros Hi. unfold vset. by rewrite decide_False by lia.
Qed.

(** X10.  [GetNWeightLayers] is one less than [GetNLayers] as long as there
    is a layer, which on a sized network is [n_hidden_layers + 1]; on a
    network without layers (before [SizeWeights]) the subtraction wraps to the
    largest value of [std::size_t]. *)
Theorem GetNWeightLayers_spec (width : N) net :
  (0 < GetNLayers net → (Z.of_nat (GetNLayers net) ≤ 2 ^ Z.of_N width)%Z →
   GetNWeightLayers width net = (Z.of_nat (GetNLayers net) - 1)%Z) ∧
  (sized net → (Z.of_nat (n_hidden_layers net) + 2 ≤ 2 ^ Z.of_N width)%Z →
   GetNWeightLayers width net = (Z.of_nat (n_hidden_layers net) + 1)%Z) ∧
  (GetNLayers net = 0 → GetNWeightLayers width net = (2 ^ Z.of_N width - 1)%Z).
Proof.
  unfold GetNWeightLayers, GetNLayers. split_and!.
  - intros Hpos Hfit. apply Z.mod_small. lia.
  - intros Hs Hfit. rewrite (sized_total_layers _ Hs).
    rewrite Z.mod_small; lia.
  - intros ->. simpl.
    assert (0 < 2 ^ Z.of_N width)%Z by (apply Z.pow_pos_nonneg; lia).
    rewrite <- (Z.mod_add _ 1) by lia. rewrite Z.mod_small; simpl; lia.
Qed.
End NamingFacts.

(** ** Choice of the activation function *)

Section ActivationSetup.
Context {D : Type}.
Implicit Types (net : CNeuralNetwork D).

(** X11.  For a name of the table, [SetActivationFunction] on a layer of a
    sized network stores the name and the tag the table gives it; the tag is
    one the [switch] of the evaluator has a case for, the entries of the
    other layers are untouched, the network stays sized, and if every layer
    after the first carried a named tag this is still so. *)
Theorem SetActivationFunction_recognized_spec net (i_layer : nat) (input : string)
    (tag : ENUM_ACTIVATION_FUNCTION) :
  activation_function_map !! input = Some tag →
  sized net → i_layer < n_hidden_layers net + 2 →
  i_layer < length (activation_function_names net) →
  ∃ net', SetActivationFunction net i_layer input = Some net' ∧
    named_tag tag ∧
    (∀ l, activation_function_types net' !! l =
            if decide (l = i_layer) then Some tag
            else activation_function_types net !! l) ∧
    (∀ l, activation_function_names net' !! l =
            if decide (l = i_layer) then Some input
            else activation_function_names net !! l) ∧
    sized net' ∧
    (activations_assigned net → activations_assigned net').
Proof.
  intros Htag Hs Hl Hnames.
  assert (Htypes : i_layer < length (activation_function_types net))
    by (by rewrite (sized_activation_function_types _ Hs)).
  assert (Hnamed : named_tag tag).
  { apply elem_of_list_to_map_2 in Htag.
    rewrite !elem_of_cons, elem_of_nil in Htag. unfold named_tag.
    repeat (destruct Htag as [Htag|Htag];
      [injection Htag as _ ->;
       cbv [ACT.NONE ACT.LINEAR ACT.RELU ACT.ELU ACT.GELU ACT.SELU ACT.SIGMOID
            ACT.SWISH ACT.TANH ACT.EXPONENTIAL]; lia|]).
    done. }
  rewrite (SetActivationFunction_recognized net i_layer input tag) by done.
  eexists; split; [done|]. simpl.
  assert (Hlookup : ∀ l, <[i_layer := tag]> (activation_function_types net) !! l =
            if decide (l = i_layer) then Some tag
            else activation_function_types net !! l).
  { intros l. case_decide as Heq.
    - subst l. by apply list_lookup_insert_eq.
    - by apply list_lookup_insert_ne. }
  split_and!; [done|done| | |].
  - intros l. case_decide as Heq.
    + subst l. by apply list_lookup_insert_eq.
    + by apply list_lookup_insert_ne.
  - destruct Hs as [H1 H2 H3 H4 H5 H6 H7 H8 H9]. constructor; try done.
    simpl. by rewrite length_insert.
  - intros Hall l tag' Hpos. simpl. rewrite Hlookup. case_decide.
    + by intros [= <-].
    + by apply Hall.
Qed.
End ActivationSetup.

(** ** Construction *)

Section ConstructionFacts.
Context {D : Type} `{MlpDouble D}.
Implicit Types (c : Construction D) (L : CLayer D).
Variable uninit : D.

Lemma shape2_resize {A} (n m : nat) (x : A) (v : list (list A)) :
  shape2 n m (resize m x <$> resize n [] v).
Proof.
  split; [by rewrite length_fmap, length_resize|].
  apply Forall_fmap, Forall_true. intros row. simpl. apply length_resize.
Qed.

Lemma shape3_resize {A} (n m k : nat) (x : A) (v : list (list (list A))) :
  shape3 n m k ((λ M, resize k x <$> resize m [] M) <$> resize n [] v).
Proof.
  split; [by rewrite length_fmap, length_resize|].
  apply Forall_fmap, Forall_true. intros M. simpl. apply shape2_resize.
Qed.

Lemma CLayer_SizeGradients_sized L (nIn : nat) :
  length (layer_outputs L) = number_of_neurons L →
  length (layer_biases L) = number_of_neurons L →
  layer_sized nIn (CLayer_SizeGradients uninit L nIn).
Proof.
  intros Ho Hb. constructor; simpl; try done.
  - apply shape2_resize.
  - apply shape3_resize.
Qed.

Lemma foldl_PushHiddenLayer c (hs : list nat) :
  foldl (PushHiddenLayer uninit) c hs =
  mkConstruction
    (set_n_hidden_layers (members c) (n_hidden_layers (members c) + length hs))
    (inputLayer_ptr c) (outputLayer_ptr c)
    (hiddenLayers c ++ (CLayer_new uninit <$> hs)).
Proof.
  revert c. induction hs as [|h hs IH]; intros c; simpl.
  - destruct c as [[] ? ? ?]; simpl. unfold set_n_hidden_layers; simpl.
    by rewrite Nat.add_0_r, app_nil_r.
  - rewrite IH. unfold PushHiddenLayer, set_n_hidden_layers; simpl.
    rewrite <- app_assoc. simpl. do 2 f_equal. lia.
Qed.

Lemma size_matrix_step (sizes : list nat) (n t rows cols : nat) w :
  weights_sized_below sizes n t w → t < n + 1 →
  rows = default 0 (sizes !! S t) → cols = default 0 (sizes !! t) →
  ∃ w', size_matrix t rows cols w = Some w' ∧ weights_sized_below sizes n (S t) w'.
Proof.
  intros (Hlen & Hlow & Hhigh) Ht -> ->. unfold size_matrix.
  rewrite (Hhigh t) by lia. simpl. eexists; split; [done|].
  split_and!.
  - by rewrite length_insert.
  - intros l Hl. destruct (decide (l = t)) as [->|Hne].
    + rewrite list_lookup_insert_eq by lia. rewrite resize_nil, fmap_replicate.
      by rewrite resize_nil.
    + rewrite list_lookup_insert_ne by done. apply Hlow. lia.
  - intros l Hl. rewrite list_lookup_insert_ne by lia. apply Hhigh. lia.
Qed.

(** X12.  The construction calls in their order ([DefineInputLayer],
    [DefineOutputLayer], one [PushHiddenLayer] per hidden layer,
    [SizeActivationFunctions]) followed by [SizeWeights] succeed whenever
    there is at least one hidden layer.  The network is then sized: layer [l]
    has the declared number of neurons, only layer 0 is the input layer, all
    buffers have the sizes of the architecture, every weight is zero and every
    layer carries the tag NONE, which is a named tag. *)
Theorem SizeWeights_declare (n_inputs n_outputs : nat) (hidden : list nat) :
  hidden ≠ [] →
  ∃ net, SizeWeights uninit (declare uninit n_inputs n_outputs hidden) = Some net ∧
    sized net ∧
    n_hidden_layers net = length hidden ∧
    (∀ l, GetNNeurons net l = (n_inputs :: hidden ++ [n_outputs]) !! l) ∧
    (∀ l j i w, vget3 l j i (weights_mat net) = Some w → w = (#0)%mlp) ∧
    activation_function_types net = replicate (length hidden + 2) ACT.NONE ∧
    activations_assigned net.
Proof.
  intros Hne.
  assert (Hs0 : (n_inputs :: hidden ++ [n_outputs]) !! 0 = Some n_inputs) by done.
  assert (HsS : ∀ l, l < length hidden →
            (n_inputs :: hidden ++ [n_outputs]) !! S l = hidden !! l).
  { intros l Hl. simpl. by rewrite lookup_app_l. }
  assert (Hsn : (n_inputs :: hidden ++ [n_outputs]) !! S (length hidden)
                = Some n_outputs).
  { simpl. rewrite lookup_app_r by lia. by rewrite Nat.sub_diag. }
  assert (Hsl : length (n_inputs :: hidden ++ [n_outputs]) = length hidden + 2).
  { simpl. rewrite length_app. simpl. lia. }
  remember (n_inputs :: hidden ++ [n_outputs]) as sizes eqn:Hsizes.
  assert (Hn : 0 < length hidden) by (destruct hidden; simpl; [done|lia]).
  remember (length hidden) as n eqn:Hlen.
  unfold declare, Construction_SizeActivationFunctions, SizeWeights.
  rewrite foldl_PushHiddenLayer. cbn [members hiddenLayers inputLayer_ptr outputLayer_ptr
    DefineOutputLayer DefineInputLayer new_network app].
  assert (Hsz : ∀ l, l < n → (CLayer_new uninit <$> hidden) !! l =
                      Some (CLayer_new uninit (default 0 (sizes !! S l)))).
  { intros l Hl. rewrite list_lookup_fmap, HsS by done.
    destruct (lookup_lt_is_Some_2 hidden l) as [k ->]; [lia|done]. }
  cbn. rewrite ?length_fmap, <- ?Hlen. rewrite decide_True by lia.
  rewrite firstn_all2 by (rewrite length_fmap; lia).
  rewrite (Hsz 0) by done. cbn.
  assert (Hw0 : weights_sized_below sizes n 0 (resize (n + 1) [] [])).
  { rewrite resize_nil. split_and!.
    - by rewrite length_replicate.
    - intros; lia.
    - intros l Hl. apply lookup_replicate_2. lia. }
  destruct (size_matrix_step sizes n 0 (default 0 (sizes !! 1)) n_inputs _ Hw0)
    as (w1 & -> & Hw1); [lia|done|by rewrite Hs0|]. cbn.
  destruct (for_loop_rule (weights_sized_below sizes n) 1 (n - 1)
    (λ iLayer w,
       this ← (CLayer_new uninit <$> hidden) !! iLayer;
       iPrev ← previous_layer iLayer;
       prev ← (CLayer_new uninit <$> hidden) !! iPrev;
       size_matrix iLayer (number_of_neurons this) (number_of_neurons prev) w) w1)
    as (w2 & -> & Hw2); [done| |].
  { intros i t Hi Ht. rewrite (Hsz i) by lia. cbn.
    destruct i as [|i]; [lia|]. cbn. rewrite (Hsz i) by lia. cbn.
    apply size_matrix_step; try done. lia. }
  cbn. replace (1 + (n - 1)) with n in Hw2 by lia.
  destruct n as [|n']; [lia|]. cbn. rewrite (Hsz n') by lia. cbn.
  destruct (size_matrix_step sizes (S n') (S n') n_outputs
              (default 0 (sizes !! S n')) _ Hw2) as (w3 & -> & Hw3);
    [lia|by rewrite Hsn|done|].
  cbn. eexists; split; [done|].
  match goal with |- sized ?x ∧ _ => set (net := x) end.
  assert (Hcount : ∀ l, GetNNeurons net l = sizes !! l).
  { intros [|l]; [by rewrite Hs0|]. rewrite Hsizes.
    unfold GetNNeurons, layer_at, net. cbn [total_layers].
    rewrite !lookup_cons. cbv beta iota.
    change [CLayer_new uninit n_outputs] with (CLayer_new uninit <$> [n_outputs]).
    rewrite <- fmap_app, !list_lookup_fmap.
    by destruct ((hidden ++ [n_outputs]) !! l). }
  assert (Hlay : ∀ l L, layer_at net l = Some L →
            layer_sized n_inputs L ∧ is_input L = bool_decide (l = 0)).
  { intros [|l] L; unfold layer_at, net; cbn [total_layers];
      rewrite lookup_cons; cbv beta iota.
    - intros [= <-]. split; [|done].
      apply CLayer_SizeGradients_sized; cbn; by rewrite length_replicate.
    - change [CLayer_new uninit n_outputs] with (CLayer_new uninit <$> [n_outputs]).
      rewrite <- fmap_app, !list_lookup_fmap.
      destruct ((hidden ++ [n_outputs]) !! l) as [k|]; [|done]. cbn.
      intros [= <-]. split; [|done].
      apply CLayer_SizeGradients_sized; cbn; by rewrite length_replicate. }
  assert (HnIn : nInputs net = n_inputs) by (unfold nInputs; by rewrite Hcount, Hs0).
  assert (HnOut : nOutputs net = n_outputs).
  { unfold nOutputs, outputLayer_index. rewrite Hcount. cbn.
    replace (S (n' + 1)) with (S (S n')) by lia. by rewrite Hsn. }
  assert (Hweights : ∀ l, S l < length sizes →
            weights_mat net !! l =
            Some (replicate (default 0 (sizes !! S l))
                            (replicate (default 0 (sizes !! l)) (#0)%mlp))).
  { intros l Hl. destruct Hw3 as (_ & Hlow & _). apply Hlow. lia. }
  split_and!.
  - constructor.
    + cbn. rewrite length_fmap, length_app, length_fmap. cbn. lia.
    + rewrite HnIn. exact Hlay.
    + intros l P C HP HC.
      assert (HnP : GetNNeurons net l = Some (number_of_neurons P))
        by (unfold GetNNeurons; by rewrite HP).
      assert (HnC : GetNNeurons net (S l) = Some (number_of_neurons C))
        by (unfold GetNNeurons; by rewrite HC).
      rewrite Hcount in HnP, HnC.
      rewrite Hweights by (by eapply lookup_lt_Some). rewrite HnP, HnC. cbn.
      eexists; split; [done|]. split; [by rewrite length_replicate|].
      apply Forall_replicate. by rewrite length_replicate.
    + rewrite HnIn. cbn. by rewrite length_resize.
    + rewrite HnOut. cbn. by rewrite length_resize.
    + rewrite HnOut. cbn. by rewrite length_replicate.
    + rewrite HnIn, HnOut. apply shape2_resize.
    + rewrite HnIn, HnOut. apply shape3_resize.
    + cbn. rewrite length_replicate. lia.
  - done.
  - exact Hcount.
  - intros l j i w. unfold vget3, vget2.
    destruct (decide (S l < length sizes)) as [Hl|Hl].
    + rewrite Hweights by done. cbn. intros Hw.
      destruct (replicate _ _ !! j) as [row|] eqn:Hrow; [|done].
      apply lookup_replicate in Hrow as [-> _]. cbn in Hw.
      by apply lookup_replicate in Hw as [-> _].
    + destruct Hw3 as (Hlen3 & _ & _).
      rewrite (lookup_ge_None_2 (weights_mat net) l); [done|]. cbn. lia.
  - cbn. by replace (S n' + 2) with (S (n' + 2)) by lia.
  - intros l tag _ Hlook. cbn in Hlook. apply list_elem_of_lookup_2 in Hlook.
    rewrite elem_of_cons, elem_of_replicate in Hlook.
    destruct Hlook as [->|[-> _]]; unfold named_tag, ACT.NONE; lia.
Qed.

(** X13.  [SizeWeights] faults when no hidden layer was pushed (the index
    [n_hidden_layers - 1] wraps), when the input or the output layer was never
    defined, and when fewer hidden layers exist than are counted. *)
Theorem SizeWeights_fault c :
  n_hidden_layers (members c) = 0 ∨ inputLayer_ptr c = None ∨
  outputLayer_ptr c = None ∨ length (hiddenLayers c) < n_hidden_layers (members c) →
  SizeWeights uninit c = None.
Proof.
  unfold SizeWeights. intros Hc. case_decide as Hn; [|done].
  destruct Hc as [H0|[Hi|[Ho|Hl]]]; [| | |lia].
  - by rewrite H0.
  - rewrite Hi. by destruct (take _ _ !! 0).
  - rewrite Ho. destruct (take _ _ !! 0); [|done]. cbn.
    destruct (inputLayer_ptr c); [|done]. cbn.
    destruct (size_matrix 0 _ _ _); [|done]. cbn.
    by destruct (for_loop _ _ _ _).
Qed.
End ConstructionFacts.

(** ** The activation functions and their derivatives *)

Section ActivationDerivatives.
Local Open Scope R_scope.
Implicit Types (net : CNeuralNetwork R) (x : R).

Lemma derivable_pt_lim_value (f : R → R) x l l' :
  derivable_pt_lim f x l' → l' = l → derivable_pt_lim f x l.
Proof. by intros ? <-. Qed.

Ltac dlim :=
  lazymatch goal with
  | |- derivable_pt_lim exp _ _ => apply derivable_pt_lim_exp
  | |- derivable_pt_lim (fun t => t) _ _ => apply derivable_pt_lim_id
  | |- derivable_pt_lim (fun t => @?f t + @?g t) _ _ =>
      eapply (derivable_pt_lim_plus f g); dlim
  | |- derivable_pt_lim (fun t => @?f t - @?g t) _ _ =>
      eapply (derivable_pt_lim_minus f g); dlim
  | |- derivable_pt_lim (fun t => @?f t * @?g t) _ _ =>
      eapply (derivable_pt_lim_mult f g); dlim
  | |- derivable_pt_lim (fun t => @?f t / @?g t) _ _ =>
      eapply (derivable_pt_lim_div f g); [dlim|dlim|]
  | |- derivable_pt_lim (fun t => - @?f t) _ _ =>
      eapply (derivable_pt_lim_opp f); dlim
  | |- derivable_pt_lim (fun t => exp (@?f t)) _ _ =>
      eapply (derivable_pt_lim_comp f exp); [dlim|apply derivable_pt_lim_exp]
  | |- derivable_pt_lim (fun t => cosh (@?f t)) _ _ =>
      eapply (derivable_pt_lim_comp f cosh); [dlim|apply derivable_pt_lim_cosh]
  | |- derivable_pt_lim (fun t => sinh (@?f t)) _ _ =>
      eapply (derivable_pt_lim_comp f sinh); [dlim|apply derivable_pt_lim_sinh]
  | |- derivable_pt_lim (fun t => (@?f t) ^ ?n) _ _ =>
      eapply (derivable_pt_lim_comp f (fun y => y ^ n));
      [dlim|apply derivable_pt_lim_pow]
  | |- derivable_pt_lim (fun t => ?c) _ _ => apply derivable_pt_lim_const
  end.

Lemma cosh_sinh_exp x : cosh x = (exp x + / exp x) / 2 ∧ sinh x = (exp x - / exp x) / 2.
Proof. unfold cosh, sinh. by rewrite exp_Ropp. Qed.

Lemma cosh_pos x : 0 < cosh x.
Proof.
  destruct (cosh_sinh_exp x) as [-> _]. pose proof (exp_pos x) as He.
  pose proof (Rinv_0_lt_compat _ He). lra.
Qed.

Lemma derivable_pt_lim_tanh x : derivable_pt_lim tanh x (1 / cosh x ^ 2).
Proof.
  pose proof (cosh_pos x) as Hc.
  eapply derivable_pt_lim_value.
  - apply (derivable_pt_lim_div sinh cosh);
      [apply derivable_pt_lim_sinh|apply derivable_pt_lim_cosh|by apply Rgt_not_eq].
  - unfold Rsqr. destruct (cosh_sinh_exp x) as [Hcosh Hsinh].
    rewrite Hcosh, Hsinh in *. pose proof (exp_pos x). field.
    split; apply Rgt_not_eq; nra.
Qed.

Ltac literals :=
  rewrite ?RMicromega.Q2R_0, ?RMicromega.Q2R_1;
  try change (Q2R 2) with (2 * / 1); try change (Q2R (-2)) with (-2 * / 1).

(** The branch of a test [t > 0] is fixed around every point but 0. *)
Lemma derivable_pt_lim_branch (f g : R → R) x l :
  x ≠ 0 →
  derivable_pt_lim (if Rlt_dec 0 x then f else g) x l →
  derivable_pt_lim (λ t, if Rlt_dec 0 t then f t else g t) x l.
Proof.
  intros Hx. destruct (Rlt_dec 0 x) as [Hpos|Hneg]; intros Hd.
  - eapply (derivable_pt_lim_locally_ext f _ x 0 (x + 1)); [lra| |done].
    intros z Hz. destruct (Rlt_dec 0 z); [done|lra].
  - eapply (derivable_pt_lim_locally_ext g _ x (x - 1) 0); [lra| |done].
    intros z Hz. destruct (Rlt_dec 0 z); [lra|done].
Qed.

Ltac piecewise x f g :=
  eapply (derivable_pt_lim_ext (λ t, if Rlt_dec 0 t then f t else g t));
  [ intros z; literals; destruct (Rlt_dec 0 z); simpl; literals; reflexivity
  | apply derivable_pt_lim_branch; [done|];
    literals; destruct (Rlt_dec 0 x); simpl;
    [ eapply (derivable_pt_lim_value f); [dlim|literals; (lra || ring)]
    | eapply (derivable_pt_lim_value g); [dlim|literals; (lra || ring)] ] ].

(** X14.  Over the reals, with both derivative modes enabled, the value the
    evaluator leaves in [Phi_prime] is the derivative at [x] of the function
    it leaves in [Phi], and the value in [Phi_dprime] is the derivative of
    the one in [Phi_prime]: for LINEAR, EXPONENTIAL, SIGMOID, TANH and SWISH
    at every [x], for RELU, ELU and SELU at every [x] other than 0, where
    their two branches meet. *)
Theorem ActivationFunction_derivatives net (tag : ENUM_ACTIVATION_FUNCTION) x :
  compute_gradient net = true → compute_second_gradient net = true →
  tag ∈ [ACT.LINEAR; ACT.EXPONENTIAL; ACT.SIGMOID; ACT.TANH; ACT.SWISH] ∨
  tag ∈ [ACT.RELU; ACT.ELU; ACT.SELU] ∧ x ≠ 0 →
  derivable_pt_lim (λ t, Phi (ActivationFunction_switch net tag t)) x
    (Phi_prime (ActivationFunction_switch net tag x)) ∧
  derivable_pt_lim (λ t, Phi_prime (ActivationFunction_switch net tag t)) x
    (Phi_dprime (ActivationFunction_switch net tag x)).
Proof.
  intros Hg Hs Htag. destruct net; simpl in Hg, Hs; subst.
  pose proof (exp_pos x) as He. pose proof (cosh_pos x) as Hc.
  rewrite !elem_of_cons, elem_of_nil in Htag.
  destruct Htag as [[->|[->|[->|[->|[->|[]]]]]]|[[->|[->|[->|[]]]] Hx]];
    unfold ActivationFunction_switch; simpl.
  - (* LINEAR *)
    literals. split; (eapply derivable_pt_lim_value; [dlim|lra]).
  - (* EXPONENTIAL *)
    split; (eapply derivable_pt_lim_value; [dlim|lra]).
  - (* SIGMOID *)
    literals. split.
    + eapply derivable_pt_lim_value; [dlim|].
      * rewrite exp_Ropp. pose proof (Rinv_0_lt_compat _ He). lra.
      * unfold Rsqr. rewrite exp_Ropp. field. lra.
    + eapply derivable_pt_lim_value; [dlim|].
      * rewrite exp_Ropp. pose proof (Rinv_0_lt_compat _ He).
        apply Rgt_not_eq. nra.
      * unfold Rsqr. rewrite exp_Ropp. field. lra.
  - (* TANH *)
    literals. split.
    + eapply derivable_pt_lim_value; [apply derivable_pt_lim_tanh|]. field. lra.
    + eapply derivable_pt_lim_value; [dlim|].
      * apply Rgt_not_eq. nra.
      * unfold Rsqr, tanh. simpl. field. lra.
  - (* SWISH *)
    literals. split.
    + eapply derivable_pt_lim_value; [dlim|].
      * rewrite exp_Ropp. pose proof (Rinv_0_lt_compat _ He). lra.
      * unfold Rsqr. rewrite exp_Ropp. field. lra.
    + eapply derivable_pt_lim_value; [dlim|].
      * apply Rgt_not_eq. nra.
      * unfold Rsqr. simpl. field. lra.
  - (* RELU *)
    split.
    + piecewise x (λ t : R, t) (λ _ : R, 0).
    + piecewise x (λ _ : R, 1) (λ _ : R, 0).
  - (* ELU *)
    split.
    + piecewise x (λ t : R, t) (λ t : R, exp t - 1).
    + piecewise x (λ _ : R, 1) (λ t : R, exp t).
  - (* SELU *)
    split.
    + piecewise x (λ t : R, Q2R 1.05070098 * t)
        (λ t : R, Q2R 1.05070098 * Q2R 1.67326324 * (exp t - 1)).
    + piecewise x (λ _ : R, Q2R 1.05070098)
        (λ t : R, Q2R 1.05070098 * Q2R 1.67326324 * (exp t - 1) +
                  Q2R 1.05070098 * Q2R 1.67326324).
Qed.
(** X15.  GELU stands apart.  With both derivative modes enabled, the
    derivative at [x] of the function the evaluator leaves in [Phi_prime] is
    [c^2 * x * e * (e - 1) / (e + 1)^3] with [c = 1.702] and
    [e = exp (- c * x)]; at 0 this is 0, whereas the value the evaluator
    leaves in [Phi_dprime] at 0 is [3.404 / 4].  So for GELU [Phi_dprime] is
    not the derivative of [Phi_prime]. *)
Theorem ActivationFunction_GELU_second net x :
  compute_gradient net = true → compute_second_gradient net = true →
  let c := Q2R 1.702 in
  let e := exp (- c * x) in
  derivable_pt_lim (λ t, Phi_prime (ActivationFunction_switch net ACT.GELU t)) x
    (c * c * x * e * (e - 1) / (e + 1) ^ 3) ∧
  Phi_dprime (ActivationFunction_switch net ACT.GELU 0) = Q2R 3.404 / 4 ∧
  ¬ derivable_pt_lim (λ t, Phi_prime (ActivationFunction_switch net ACT.GELU t)) 0
      (Phi_dprime (ActivationFunction_switch net ACT.GELU 0)).
Proof.
  intros Hg Hs c e. destruct net; simpl in Hg, Hs; subst.
  unfold ActivationFunction_switch; simpl. fold c.
  assert (Hderiv : ∀ y,
    derivable_pt_lim
      (λ t, exp (- c * t) * (c * t + exp (- c * t) + Q2R 1) /
            ((exp (- c * t) + Q2R 1) * ((exp (- c * t) + Q2R 1) * 1))) y
      (c * c * y * exp (- c * y) * (exp (- c * y) - 1) / (exp (- c * y) + 1) ^ 3)).
  { intros y. pose proof (exp_pos (- c * y)) as He. literals.
    eapply derivable_pt_lim_value; [dlim|].
    - apply Rgt_not_eq. nra.
    - unfold Rsqr. simpl. field. lra. }
  assert (Hvalue :
    0 * (Q2R 5.79361 * (exp (- c * 0) * (exp (- c * 0) * 1)) /
           ((exp (- c * 0) + Q2R 1) *
            ((exp (- c * 0) + Q2R 1) * ((exp (- c * 0) + Q2R 1) * 1))) -
         Q2R 2.8968 * exp (- c * 0) /
           ((exp (- c * 0) + Q2R 1) * ((exp (- c * 0) + Q2R 1) * 1))) +
    Q2R 3.404 * exp (- c * 0) /
      ((exp (- c * 0) + Q2R 1) * ((exp (- c * 0) + Q2R 1) * 1)) = Q2R 3.404 / 4).
  { replace (- c * 0) with 0 by ring. rewrite exp_0. literals. field. }
  split_and!.
  - apply Hderiv.
  - exact Hvalue.
  - rewrite Hvalue. intros Hbad.
    pose proof (uniqueness_limite _ _ _ _ Hbad (Hderiv 0)) as Heq.
    replace (c * c * 0 * exp (- c * 0) * (exp (- c * 0) - 1) / (exp (- c * 0) + 1) ^ 3)
      with 0 in Heq by (unfold Rdiv; ring).
    assert (0 < Q2R 3.404) by (unfold Q2R; simpl; lra). lra.
Qed.
End ActivationDerivatives.

(** ** What a prediction computes *)

Section PartialLoops.
Context {St : Type}.
Implicit Types (body : nat → St → option St) (I : nat → St → Prop).

(** The invariant rule for a run of [for_loop] that is known to end. *)
Lemma for_loop_inv I from count body s s' :
  for_loop from count body s = Some s' → I from s →
  (∀ i t t', from ≤ i < from + count → I i t → body i t = Some t' → I (S i) t') →
  I (from + count) s'.
Proof.
  revert from s. induction count as [|count IH]; intros from s; simpl.
  - intros [= <-] HI _. by rewrite Nat.add_0_r.
  - destruct (body from s) as [t|] eqn:Hb; simpl; [|done]. intros Hrun HI Hstep.
    replace (from + S count) with (S from + count) by lia.
    apply (IH (S from) t); [done|apply (Hstep from s); [lia|done..]|].
    intros i u u' Hi. apply Hstep. lia.
Qed.

(** A pass that faults in every state faults the loop. *)
Lemma for_loop_fault from count body s i :
  from ≤ i < from + count → (∀ t, body i t = None) →
  for_loop from count body s = None.
Proof.
  revert from s. induction count as [|count IH]; intros from s Hi Hnone; simpl; [lia|].
  destruct (decide (i = from)) as [->|Hne]; [by rewrite Hnone|].
  destruct (body from s) as [t|]; simpl; [|done]. apply IH; [lia|done].
Qed.
End PartialLoops.

Section StoreFacts.
Context {D : Type}.
Implicit Types (s : CNeuralNetwork D) (c : cell) (x : D).

Lemma vset_Some_lookup {A} i (x : A) v v' : vset i x v = Some v' → is_Some (v !! i).
Proof. intros [_ Hi]%vset_Some. by apply lookup_lt_is_Some. Qed.

Lemma vset2_Some_vget2 {A} i j (x : A) m m' :
  vset2 i j x m = Some m' → is_Some (vget2 i j m).
Proof.
  unfold vset2, vget2. destruct (m !! i) as [row|]; simpl; [|done].
  destruct (vset j x row) as [row'|] eqn:Hrow; simpl; [|done].
  intros _. by eapply vset_Some_lookup.
Qed.

Lemma vset3_Some_vget3 {A} i j k (x : A) t t' :
  vset3 i j k x t = Some t' → is_Some (vget3 i j k t).
Proof.
  unfold vset3, vget3. destruct (t !! i) as [m|]; simpl; [|done].
  destruct (vset2 j k x m) as [m'|] eqn:Hm; simpl; [|done].
  intros _. by eapply vset2_Some_vget2.
Qed.

(** A store succeeds only into a cell that exists. *)
Lemma write_cell_is_Some s c x s' :
  write_cell s c x = Some s' → is_Some (read_cell s c).
Proof.
  destruct c as [l i|l i j|l i j k]; simpl;
    unfold net_SetOutput, net_SetdYdX, net_Setd2YdX2,
           net_GetOutput, net_GetdYdX, net_Getd2YdX2,
           Layer.SetOutput, Layer.SetdYdX, Layer.Setd2YdX2,
           Layer.GetOutput, Layer.GetdYdX, Layer.Getd2YdX2;
    destruct (layer_at s l) as [L|]; simpl; try done.
  - destruct (vset i x (layer_outputs L)) eqn:Hv; simpl; [|done].
    intros _. by eapply vset_Some_lookup.
  - destruct (vset2 i j x (layer_dYdX L)) eqn:Hv; simpl; [|done].
    intros _. by eapply vset2_Some_vget2.
  - destruct (vset3 i j k x (layer_d2YdX2 L)) eqn:Hv; simpl; [|done].
    intros _. by eapply vset3_Some_vget3.
Qed.

(** A store into a layer leaves the three readable buffers alone. *)
Lemma write_cell_readable s c x s' :
  write_cell s c x = Some s' →
  ANN_outputs s' = ANN_outputs s ∧ dOutputs_dInputs s' = dOutputs_dInputs s ∧
  d2Outputs_dInputs2 s' = d2Outputs_dInputs2 s.
Proof.
  destruct c as [l i|l i j|l i j k]; simpl;
    unfold net_SetOutput, net_SetdYdX, net_Setd2YdX2;
    destruct (layer_at s l) as [L|]; simpl; try done.
  - destruct (Layer.SetOutput L i x); simpl; [|done]. intros [= <-]. by split_and!.
  - destruct (Layer.SetdYdX L i j x); simpl; [|done]. intros [= <-]. by split_and!.
  - destruct (Layer.Setd2YdX2 L i j k x); simpl; [|done]. intros [= <-]. by split_and!.
Qed.

Lemma write_cell_step s c x s' :
  write_cell s c x = Some s' →
  evolves (λ c', c' ≠ c) s s' ∧ read_cell s' c = Some x ∧ scalars s' = scalars s.
Proof.
  intros Hw. destruct (write_cell_evolves s c x) as (s'' & Hw' & Hev & Hr & Hsc);
    [by eapply write_cell_is_Some|].
  rewrite Hw in Hw'. injection Hw' as <-. by split_and!.
Qed.
End StoreFacts.

Section ForwardFacts.
Context {D : Type} `{MlpDouble D}.
Implicit Types (s t u : CNeuralNetwork D) (keeps : cell → Prop) (inputs : list D).
Local Open Scope mlp_scope.

Lemma kept_output keeps s s' l i :
  evolves keeps s s' → keeps (OutputCell l i) →
  net_GetOutput s' l i = net_GetOutput s l i.
Proof. intros Hev Hk. exact (ev_keeps _ _ _ Hev (OutputCell l i) Hk). Qed.

Lemma kept_first keeps s s' l i j :
  evolves keeps s s' → keeps (FirstCell l i j) →
  net_GetdYdX s' l i j = net_GetdYdX s l i j.
Proof. intros Hev Hk. exact (ev_keeps _ _ _ Hev (FirstCell l i j) Hk). Qed.

Lemma kept_second keeps s s' l i j k :
  evolves keeps s s' → keeps (SecondCell l i j k) →
  net_Getd2YdX2 s' l i j k = net_Getd2YdX2 s l i j k.
Proof. intros Hev Hk. exact (ev_keeps _ _ _ Hev (SecondCell l i j k) Hk). Qed.

Lemma NormalizeInput_evolves keeps s s' x i :
  evolves keeps s s' → NormalizeInput s' x i = NormalizeInput s x i.
Proof.
  intros Hev. unfold NormalizeInput.
  by destruct (static_fields _ _ (ev_static _ _ _ Hev)) as (_ & _ & -> & _ & -> & _).
Qed.

Lemma GetRegularizationScale_evolves keeps s s' i (is_input : bool) :
  evolves keeps s s' →
  GetRegularizationScale s' i is_input = GetRegularizationScale s i is_input.
Proof.
  intros Hev. unfold GetRegularizationScale.
  by destruct (static_fields _ _ (ev_static _ _ _ Hev)) as (_ & _ & -> & -> & -> & _).
Qed.

Lemma DimensionalizeOutput_evolves keeps s s' y i :
  evolves keeps s s' → DimensionalizeOutput s' y i = DimensionalizeOutput s y i.
Proof.
  intros Hev. unfold DimensionalizeOutput.
  by destruct (static_fields _ _ (ev_static _ _ _ Hev)) as (_ & _ & _ & -> & -> & _).
Qed.

(** For a named tag the value the evaluator produces depends on the tag and
    on the input only. *)
Lemma ActivationFunction_switch_Phi s s' tag X :
  named_tag tag →
  Phi (ActivationFunction_switch s tag X) = Phi (ActivationFunction_switch s' tag X).
Proof.
  unfold named_tag. intros Htag.
  assert (tag ∈ [0; 1; 2; 3; 4; 5; 6; 7; 8; 9]%Z) as Hcases.
  { rewrite !elem_of_cons. lia. }
  rewrite !elem_of_cons, elem_of_nil in Hcases.
  destruct s as [? ? ? ? ? ? ? ? ? ? ? ? ? g1 g2 ? ? ? ?],
           s' as [? ? ? ? ? ? ? ? ? ? ? ? ? h1 h2 ? ? ? ?].
  unfold ActivationFunction_switch.
  destruct Hcases as [->|[->|[->|[->|[->|[->|[->|[->|[->|[->|[]]]]]]]]]]]; simpl;
    destruct (mlp_gt X (mlp_lit 0)), g1, g2, h1, h2; reflexivity.
Qed.

Lemma forward_input_evolves keeps s s' inputs i :
  evolves keeps s s' → keeps (OutputCell 0 i) →
  forward_input s inputs i → forward_input s' inputs i.
Proof.
  intros Hev Hk (x & v & Hx & Hv & Hr). exists x, v. split_and!; [done| |].
  - by rewrite (NormalizeInput_evolves _ _ _ _ _ Hev).
  - rewrite <-Hr. by eapply kept_output.
Qed.

Lemma input_seeded_evolves keeps s s' i :
  evolves keeps s s' → (∀ c, cell_neuron c = (0, i) → keeps c) →
  input_seeded s i → input_seeded s' i.
Proof.
  intros Hev Hk Hseed j. rewrite (evolves_nInputs _ _ _ Hev). intros Hj.
  destruct (Hseed j Hj) as [Hfirst Hsecond].
  destruct (static_fields _ _ (ev_static _ _ _ Hev)) as (_&_&_&_&_&_&Hcsg&_).
  rewrite (GetRegularizationScale_evolves _ _ _ _ _ Hev), Hcsg. split.
  - rewrite <-Hfirst. eapply kept_first; [done|]. by apply Hk.
  - intros Hc k Hk'. rewrite <-(Hsecond Hc k Hk').
    eapply kept_second; [done|]. by apply Hk.
Qed.

Lemma forward_neuron_evolves keeps s s' lp i :
  evolves keeps s s' → (∀ j, keeps (OutputCell lp j)) → keeps (OutputCell (S lp) i) →
  activations_assigned s →
  forward_neuron s (S lp) i → forward_neuron s' (S lp) i.
Proof.
  intros Hev Hprev Hself Hnamed (tag & X & Htag & HX & Hr).
  destruct (static_fields _ _ (ev_static _ _ _ Hev)) as (_&_&_&_&_&_&_&Ht).
  exists tag, X. split_and!; [congruence| |].
  - rewrite <-HX. by eapply ComputeX_evolves.
  - rewrite (ActivationFunction_switch_Phi s' s tag X)
      by (apply (Hnamed (S lp)); [lia|done]).
    rewrite <-Hr. by eapply kept_output.
Qed.

(** What a pass of [ComputeInputLayer] that ends leaves in the input
    layer. *)
Lemma ComputeInputLayer_values s inputs i s' :
  ComputeInputLayer s inputs i = Some s' →
  evolves (λ c, cell_neuron c ≠ (0, i)) s s' ∧
  forward_input s' inputs i ∧
  (compute_gradient s = true → input_seeded s' i).
Proof.
  unfold ComputeInputLayer.
  destruct (inputs !! i) as [x|] eqn:Hx; simpl; [|done].
  destruct (NormalizeInput s x i) as [v|] eqn:Hv; simpl; [|done].
  destruct (net_SetOutput s 0 i v) as [s1|] eqn:Hw; simpl; [|done].
  destruct (write_cell_step s (OutputCell 0 i) v s1 Hw) as (Hev1 & Hr1 & _).
  pose proof (compute_gradient_evolves _ _ _ Hev1) as Hcg1. rewrite Hcg1.
  set (mine := λ c, cell_neuron c ≠ (0, i)).
  assert (Hev01 : evolves mine s s1).
  { eapply evolves_weaken; [|done]. intros c Hc ->. by apply Hc. }
  destruct (compute_gradient s) eqn:Hcg.
  2:{ intros [= <-]. split_and!; [done| |done].
      exists x, v. by rewrite (NormalizeInput_evolves _ _ _ _ _ Hev1). }
  destruct (GetNNeurons s1 0) as [nIn|] eqn:HnIn; simpl; [|done].
  assert (HnI : ∀ u, evolves (λ _, False) s1 u → nInputs u = nIn).
  { intros u Hu. rewrite (evolves_nInputs _ _ _ Hu). unfold nInputs. by rewrite HnIn. }
  set (derivs := λ c, ∀ j k, c ≠ FirstCell 0 i j ∧ c ≠ SecondCell 0 i j k).
  set (seeded := λ u (j : nat),
    net_GetdYdX u 0 i j =
      (if decide (j = i)
       then scale ← GetRegularizationScale s i true; Some (#1 / scale)
       else Some #0) ∧
    (compute_second_gradient s = true →
     ∀ k, k < nIn → net_Getd2YdX2 u 0 i j k = Some #0)).
  intros Hrun.
  pose proof (for_loop_inv
    (λ j u, evolves derivs s1 u ∧ ∀ j', j' < j → seeded u j') _ _ _ _ _ Hrun)
    as Hinv. simpl in Hinv.
  destruct Hinv as [Hev Hseeded].
  { split; [apply evolves_refl|lia]. }
  { clear Hrun. intros j u u' Hj (Hev & Hdone) Hstep.
    assert (∃ u1 d, net_SetdYdX u 0 i j d = Some u1 ∧
              Some d = (if decide (j = i)
                        then scale ← GetRegularizationScale s i true; Some (#1 / scale)
                        else Some #0) ∧
              (if compute_second_gradient u1
               then for_loop 0 nIn
                      (λ kInput net, net_Setd2YdX2 net 0 i j kInput #0) u1
               else Some u1) = Some u') as (u1 & d & Hw1 & Hd & Hrest).
    { rewrite <-(GetRegularizationScale_evolves _ _ _ i true Hev01),
        <-(GetRegularizationScale_evolves _ _ _ i true Hev).
      destruct (decide (j = i)) as [->|Hne].
      - destruct (GetRegularizationScale u i true) as [scale|]; simpl in *; [|done].
        destruct (net_SetdYdX u 0 i i (#1 / scale)) as [u1|] eqn:Hw1;
          simpl in *; [|done].
        by exists u1, (#1 / scale).
      - destruct (net_SetdYdX u 0 i j #0) as [u1|] eqn:Hw1; simpl in *; [|done].
        by exists u1, #0. }
    destruct (write_cell_step u (FirstCell 0 i j) d u1 Hw1) as (Hevu1 & Hru1 & _).
    assert (Hev1u1 : evolves derivs s1 u1).
    { eapply evolves_trans; [done|]. eapply evolves_weaken; [|done].
      intros c Hc ->. by destruct (Hc j 0) as [Hne _]. }
    assert (Hcsg : compute_second_gradient u1 = compute_second_gradient s).
    { destruct (static_fields _ _ (ev_static _ _ _ Hev1u1)) as (_&_&_&_&_&_&->&_).
      by destruct (static_fields _ _ (ev_static _ _ _ Hev1)) as (_&_&_&_&_&_&->&_). }
    rewrite Hcsg in Hrest.
    assert (Hkept : ∀ u2, evolves (λ c, ∀ k, c ≠ SecondCell 0 i j k) u1 u2 →
              ∀ j', j' < j → seeded u2 j').
    { intros u2 Hev2 j' Hj'. destruct (Hdone j' Hj') as [Hf Hs]. split.
      - rewrite <-Hf. rewrite (kept_first _ _ _ _ _ _ Hev2) by done.
        eapply kept_first; [done|]. intros [=]. lia.
      - intros Hc k Hk. rewrite <-(Hs Hc k Hk).
        rewrite (kept_second _ _ _ _ _ _ _ Hev2) by (intros k' [=]; lia).
        by eapply kept_second. }
    destruct (compute_second_gradient s) eqn:Hsecond.
    - pose proof (for_loop_inv
        (λ k w, evolves (λ c, ∀ k', c ≠ SecondCell 0 i j k') u1 w ∧
                ∀ k', k' < k → net_Getd2YdX2 w 0 i j k' = Some #0)
        _ _ _ _ _ Hrest) as Hinner. simpl in Hinner.
      destruct Hinner as [Hev2 Hzero].
      { split; [apply evolves_refl|lia]. }
      { intros k w w' Hk (Hevw & Hz) Hwk.
        destruct (write_cell_step w (SecondCell 0 i j k) #0 w' Hwk) as (Hevw' & Hrw & _).
        split.
        - eapply evolves_trans; [done|]. eapply evolves_weaken; [|done].
          intros c Hc ->. by apply (Hc k).
        - intros k' Hk'. destruct (decide (k' = k)) as [->|Hne]; [done|].
          rewrite <-(Hz k') by lia.
          eapply kept_second; [done|]. intros [=]. lia. }
      split.
      + eapply evolves_trans; [done|]. eapply evolves_weaken; [|done].
        intros c Hc k. exact (proj2 (Hc j k)).
      + intros j' Hj'. destruct (decide (j' = j)) as [->|Hne];
          [|apply Hkept; [done|lia]].
        split; [|by intros _ k Hk; apply Hzero].
        rewrite <-Hd, <-Hru1. by eapply kept_first.
    - injection Hrest as <-. split; [done|].
      intros j' Hj'. destruct (decide (j' = j)) as [->|Hne];
        [|apply (Hkept u1); [apply evolves_refl|lia]].
      split; [by rewrite <-Hd|done]. }
  assert (Hev0 : evolves mine s s').
  { eapply evolves_trans; [done|]. eapply evolves_weaken; [|done].
    intros c Hc j k. split; intros ->; by apply Hc. }
  split_and!; [done| |].
  - exists x, v. split_and!; [done| |].
    + by rewrite (NormalizeInput_evolves _ _ _ _ _ Hev0).
    + rewrite <-Hr1. eapply kept_output; [done|]. by intros j k.
  - intros _ j Hj. rewrite (HnI s') in Hj by (by eapply evolves_weaken; [|exact Hev]).
    rewrite (HnI s') by (by eapply evolves_weaken; [|exact Hev]).
    destruct (Hseeded j Hj) as [Hf Hs].
    destruct (static_fields _ _ (ev_static _ _ _ Hev0)) as (_&_&_&_&_&_&Hcsg&_).
    rewrite (GetRegularizationScale_evolves _ _ _ _ _ Hev0), Hcsg. by split.
Qed.

(** The body of the neuron loop, in either mode. *)
Lemma Predict_neuron_forward s inputs l i n :
  allocated s → l < n_hidden_layers s + 2 → GetNNeurons s l = Some n → i < n →
  nInputs s ≤ length inputs → activations_assigned s →
  ∃ s', Predict_neuron s inputs l i = Some s' ∧
        evolves (λ c, cell_neuron c ≠ (l, i)) s s' ∧
        (l = 0 → forward_input s' inputs i ∧
                 (compute_gradient s = true → input_seeded s' i)) ∧
        (0 < l → forward_neuron s' l i).
Proof.
  intros Hal Hl Hn Hi Hlen Hnamed. unfold Predict_neuron.
  rewrite (al_is_input _ Hal l Hl). simpl. destruct l as [|lp]; simpl.
  - destruct (ComputeInputLayer_spec s inputs i) as (s' & Hrun & _); try done.
    { unfold nInputs. rewrite Hn. simpl. lia. }
    rewrite Hrun. destruct (ComputeInputLayer_values _ _ _ _ Hrun) as (Hev & Hin & Hseed).
    exists s'. split_and!; [done..|lia].
  - destruct (al_neurons _ Hal lp) as [m Hm]; [lia|].
    destruct (ComputeX_is_Some s lp i n m) as [X HX]; try done. rewrite HX. simpl.
    destruct (al_types _ Hal (S lp) Hl) as [tag Htag].
    destruct (ActivationFunction_evolves s (S lp) X tag Htag) as (-> & Hev1 & _).
    simpl. set (s1 := ActivationFunction_switch s tag X) in *.
    assert (Hal1 : allocated s1) by (by eapply allocated_evolves).
    destruct (write_cell_evolves s1 (OutputCell (S lp) i) (Phi s1))
      as (s2 & Hw & Hev2 & Hr2 & _).
    { apply (al_cells _ Hal1). exists n. by rewrite (evolves_neurons _ _ _ _ Hev1). }
    simpl in Hw, Hr2. rewrite Hw. simpl.
    set (mine := λ c, cell_neuron c ≠ (S lp, i)).
    assert (Hev02 : evolves mine s s2).
    { eapply evolves_trans; [by eapply evolves_weaken; [|exact Hev1]|].
      eapply evolves_weaken; [|done]. intros c Hc ->. by apply Hc. }
    assert (Hal2 : allocated s2) by (by eapply allocated_evolves).
    assert (Hdone : ∀ s3, evolves mine s s3 →
              net_GetOutput s3 (S lp) i = Some (Phi s1) → forward_neuron s3 (S lp) i).
    { intros s3 Hev3 Hr3.
      destruct (static_fields _ _ (ev_static _ _ _ Hev3)) as (_&_&_&_&_&_&_&Ht).
      exists tag, X. split_and!; [congruence| |].
      - rewrite <-HX. eapply ComputeX_evolves; [done|]. intros jN [=]. lia.
      - rewrite Hr3. f_equal. apply ActivationFunction_switch_Phi.
        apply (Hnamed (S lp)); [lia|done]. }
    destruct (compute_gradient s2) eqn:Hcg2.
    + destruct (al_neurons _ Hal2 0) as [nIn HnIn]; [lia|]. rewrite HnIn. simpl.
      assert (HnI2 : nInputs s2 = nIn) by (unfold nInputs; by rewrite HnIn).
      destruct (Predict_gradient_spec s2 lp i n m) as (s3 & Hrun & Hev3 & _);
        try done; try (by rewrite (evolves_neurons _ _ _ _ Hev02)).
      rewrite HnI2 in Hrun. rewrite Hrun. exists s3.
      assert (Hev03 : evolves mine s s3).
      { eapply evolves_trans; [done|]. eapply evolves_weaken; [|done].
        intros c Hc j k. split; intros ->; by apply Hc. }
      split_and!; [done..| |].
      * intros [=].
      * intros _. apply Hdone; [done|]. rewrite <-Hr2.
        eapply kept_output; [done|]. by intros j k.
    + exists s2. split_and!; [done..| |].
      * intros [=].
      * intros _. by apply Hdone.
Qed.

(** One layer. *)
Lemma Predict_layer_forward s inputs l n :
  allocated s → l < n_hidden_layers s + 2 → GetNNeurons s l = Some n →
  nInputs s ≤ length inputs → activations_assigned s →
  ∃ s', Predict_layer s inputs l = Some s' ∧
        evolves (λ c, cell_layer c ≠ l) s s' ∧
        (l = 0 → ∀ i, i < n → forward_input s' inputs i ∧
                              (compute_gradient s = true → input_seeded s' i)) ∧
        (0 < l → ∀ i, i < n → forward_neuron s' l i).
Proof.
  intros Hal Hl Hn Hlen Hnamed. unfold Predict_layer. rewrite Hn. simpl.
  set (keeps := λ c, cell_layer c ≠ l).
  loop_rule (λ (i : nat) u,
    evolves keeps s u ∧
    (l = 0 → ∀ i', i' < i → forward_input u inputs i' ∧
                             (compute_gradient s = true → input_seeded u i')) ∧
    (0 < l → ∀ i', i' < i → forward_neuron u l i')) s' HI.
  - split_and!; [apply evolves_refl|lia..].
  - intros i u Hi (Hev & Hin & Hdone). simpl in Hi.
    assert (Halu : allocated u) by (by eapply allocated_evolves).
    assert (Hnu : GetNNeurons u l = Some n) by (by rewrite (evolves_neurons _ _ _ _ Hev)).
    assert (Hhu := n_hidden_layers_evolves _ _ _ Hev).
    assert (Hcgu := compute_gradient_evolves _ _ _ Hev).
    destruct (Predict_neuron_forward u inputs l i n) as (u' & -> & Hev' & Hin' & Hnew);
      try done; [lia|lia|by rewrite (evolves_nInputs _ _ _ Hev)
                |by eapply activations_assigned_evolves|].
    exists u'. split; [done|]. split_and!.
    + eapply evolves_trans; [done|]. eapply evolves_weaken; [|done].
      intros c Hc Heq. by apply Hc, (cell_neuron_layer _ _ _ Heq).
    + intros -> i' Hi'. destruct (decide (i' = i)) as [->|Hne].
      * rewrite <-Hcgu. by apply Hin'.
      * destruct (Hin eq_refl i') as [Hfi Hsi]; [lia|]. split.
        -- eapply forward_input_evolves; [exact Hev'| |done].
           simpl. intros [=]. lia.
        -- intros Hcg. eapply input_seeded_evolves; [exact Hev'| |by apply Hsi].
           intros c Hc. simpl. rewrite Hc. intros [=]. lia.
    + intros Hpos i' Hi'. destruct (decide (i' = i)) as [->|Hne]; [by apply Hnew|].
      destruct l as [|lp]; [lia|].
      eapply forward_neuron_evolves; [exact Hev'| | | |apply Hdone; lia].
      * intros j. simpl. intros [=]. lia.
      * simpl. intros [=]. lia.
      * by eapply activations_assigned_evolves.
  - exists s'. destruct HI as (? & ? & ?). by split_and!.
Qed.

(** All layers. *)
Lemma Predict_layers_forward s inputs :
  allocated s → nInputs s ≤ length inputs → activations_assigned s →
  ∃ s', Predict_layers s inputs = Some s' ∧
        evolves (λ _, False) s s' ∧
        (∀ i, i < nInputs s → forward_input s' inputs i ∧
                              (compute_gradient s = true → input_seeded s' i)) ∧
        (∀ l i n, 0 < l < n_hidden_layers s + 2 → GetNNeurons s l = Some n → i < n →
                  forward_neuron s' l i).
Proof.
  intros Hal Hlen Hnamed. unfold Predict_layers.
  loop_rule (λ (l : nat) t,
    evolves (λ c, l ≤ cell_layer c) s t ∧
    (0 < l → ∀ i, i < nInputs s → forward_input t inputs i ∧
                                  (compute_gradient s = true → input_seeded t i)) ∧
    (∀ l' i n, 0 < l' < l → GetNNeurons s l' = Some n → i < n →
               forward_neuron t l' i)) s' HI.
  - split_and!; [apply evolves_refl|lia|lia].
  - intros l t Hl (Hev & Hin & Hdone). simpl in Hl.
    assert (Halt : allocated t) by (by eapply allocated_evolves).
    assert (Hht := n_hidden_layers_evolves _ _ _ Hev).
    assert (Hcgt := compute_gradient_evolves _ _ _ Hev).
    assert (Hnamedt : activations_assigned t)
      by (by eapply activations_assigned_evolves).
    destruct (al_neurons _ Halt l) as [n Hn]; [lia|].
    destruct (Predict_layer_forward t inputs l n) as (t' & -> & Hev' & Hin' & Hnew);
      try done; [lia|by rewrite (evolves_nInputs _ _ _ Hev)|].
    exists t'. split; [done|]. split_and!.
    + eapply evolves_trans.
      * eapply evolves_weaken; [|exact Hev]. intros c Hc. simpl in *. lia.
      * eapply evolves_weaken; [|exact Hev']. intros c Hc. simpl in *. lia.
    + intros _ i Hi. destruct l as [|lp].
      * rewrite <-Hcgt. apply Hin'; [done|].
        unfold nInputs in Hi. rewrite <-(evolves_neurons _ _ _ 0 Hev), Hn in Hi. done.
      * destruct (Hin ltac:(lia) i Hi) as [Hfi Hsi]. split.
        -- eapply forward_input_evolves; [exact Hev'| |done]. simpl. lia.
        -- intros Hcg. eapply input_seeded_evolves; [exact Hev'| |by apply Hsi].
           intros c Hc%cell_neuron_layer. simpl. lia.
    + intros l' i n' Hl' Hn' Hi.
      destruct (decide (l' = l)) as [->|Hne].
      * rewrite <-(evolves_neurons _ _ _ _ Hev), Hn in Hn'.
        injection Hn' as <-. apply Hnew; [lia|done].
      * destruct l' as [|lp']; [lia|].
        eapply forward_neuron_evolves; [exact Hev'| | |done|].
        -- intros j. simpl. lia.
        -- simpl. lia.
        -- eapply Hdone; [lia|done..].
  - exists s'. destruct HI as (Hev & Hin & Hdone). split_and!; [done| | |].
    + by eapply evolves_weaken; [|exact Hev].
    + intros i Hi. apply Hin; [lia|done].
    + intros l i n Hl. apply Hdone. lia.
Qed.
End ForwardFacts.

(** ** What the output stage computes *)

Section OutputStageValues.
Context {D : Type} `{MlpDouble D}.
Implicit Types (s t u v w : CNeuralNetwork D).
Local Open Scope mlp_scope.

Lemma outputLayer_index_evolves keeps s s' :
  evolves keeps s s' → outputLayer_index s' = outputLayer_index s.
Proof.
  intros Hev. unfold outputLayer_index. by rewrite (n_hidden_layers_evolves _ _ _ Hev).
Qed.

Lemma compute_second_gradient_evolves keeps s s' :
  evolves keeps s s' → compute_second_gradient s' = compute_second_gradient s.
Proof.
  intros Hev. by destruct (static_fields _ _ (ev_static _ _ _ Hev)) as (_&_&_&_&_&_&->&_).
Qed.

(** The loop over [kInput] of the output stage. *)
Lemma DeNormalize_second_values w0 i j n scale w' :
  DeNormalize_second w0 i j n scale = Some w' →
  evolves (λ c, ∀ k, c ≠ SecondCell (outputLayer_index w0) i j k) w0 w' ∧
  ANN_outputs w' = ANN_outputs w0 ∧ dOutputs_dInputs w' = dOutputs_dInputs w0 ∧
  (∀ i' j' k', (i', j') ≠ (i, j) →
     Getd2OutputdInput2 w' i' j' k' = Getd2OutputdInput2 w0 i' j' k') ∧
  (∀ k, k < n →
     ∃ d, net_Getd2YdX2 w0 (outputLayer_index w0) i j k = Some d ∧
          net_Getd2YdX2 w' (outputLayer_index w0) i j k = Some (scale * d) ∧
          Getd2OutputdInput2 w' i j k = Some (scale * d)).
Proof.
  unfold DeNormalize_second. set (out := outputLayer_index w0).
  set (keeps := λ c, ∀ k, c ≠ SecondCell out i j k).
  intros Hrun.
  pose proof (for_loop_inv (λ k w,
    evolves keeps w0 w ∧ ANN_outputs w = ANN_outputs w0 ∧
    dOutputs_dInputs w = dOutputs_dInputs w0 ∧
    (∀ i' j' k', (i', j') ≠ (i, j) ∨ k ≤ k' →
       Getd2OutputdInput2 w i' j' k' = Getd2OutputdInput2 w0 i' j' k') ∧
    (∀ k', k ≤ k' → net_Getd2YdX2 w out i j k' = net_Getd2YdX2 w0 out i j k') ∧
    (∀ k', k' < k →
       ∃ d, net_Getd2YdX2 w0 out i j k' = Some d ∧
            net_Getd2YdX2 w out i j k' = Some (scale * d) ∧
            Getd2OutputdInput2 w i j k' = Some (scale * d))) _ _ _ _ _ Hrun) as Hinv.
  simpl in Hinv. destruct Hinv as (Hev & Ha & Hg & Hh & _ & Hdone).
  { split_and!; [apply evolves_refl|done..|lia]. }
  { clear Hrun. intros k w w2 Hk (Hev & Ha & Hg & Hh & Hun & Hdone) Hstep.
    destruct (net_Getd2YdX2 w out i j k) as [d|] eqn:Hd; simpl in Hstep; [|done].
    destruct (net_Setd2YdX2 w out i j k (scale * d)) as [w1|] eqn:Hw;
      simpl in Hstep; [|done].
    destruct (write_cell_step w (SecondCell out i j k) _ w1 Hw) as (Hev1 & Hr1 & _).
    destruct (write_cell_readable w (SecondCell out i j k) _ w1 Hw) as (Ha1 & Hg1 & Hh1).
    simpl in Hr1. rewrite Hr1 in Hstep. simpl in Hstep.
    destruct (vset3 i j k (scale * d) (d2Outputs_dInputs2 w1)) as [g|] eqn:Hset;
      simpl in Hstep; [|done].
    injection Hstep as <-.
    pose proof (set_d2Outputs_dInputs2_evolves w1 i j k _ g Hset) as Hev2.
    assert (Hread : ∀ i' j' k',
      Getd2OutputdInput2 (set_d2Outputs_dInputs2 w1 g) i' j' k' =
      if decide (i' = i ∧ j' = j ∧ k' = k) then Some (scale * d)
      else Getd2OutputdInput2 w i' j' k').
    { intros i' j' k'. unfold Getd2OutputdInput2. simpl.
      by rewrite (vget3_vset3 _ _ _ _ _ _ i' j' k' Hset), Hh1. }
    split_and!.
    - eapply evolves_trans; [done|]. eapply evolves_trans.
      + eapply evolves_weaken; [|exact Hev1]. intros c Hc ->. by apply (Hc k).
      + by eapply evolves_weaken; [|exact Hev2].
    - simpl. congruence.
    - simpl. congruence.
    - intros i' j' k' Hc. rewrite Hread, decide_False.
      + apply Hh. destruct Hc; [by left|right; lia].
      + intros (-> & -> & ->). destruct Hc; [done|lia].
    - intros k' Hk'. rewrite (kept_second _ _ _ _ _ _ _ Hev2) by done.
      rewrite (kept_second _ _ _ _ _ _ _ Hev1) by (intros [=]; lia).
      apply Hun. lia.
    - intros k' Hk'. destruct (decide (k' = k)) as [->|Hne].
      + exists d. split_and!.
        * by rewrite <-Hun, Hd.
        * by rewrite (kept_second _ _ _ _ _ _ _ Hev2).
        * by rewrite Hread, decide_True.
      + destruct (Hdone k') as (d' & H0 & H1 & H2); [lia|].
        exists d'. split_and!; [done| |].
        * rewrite (kept_second _ _ _ _ _ _ _ Hev2) by done.
          by rewrite (kept_second _ _ _ _ _ _ _ Hev1) by (intros [=]; lia).
        * rewrite Hread, decide_False; [done|]. intros (_ & _ & ->). done. }
  split_and!; try done. intros i' j' k' Hne. apply Hh. by left.
Qed.

(** The loop over [jInput] of the output stage. *)
Lemma DeNormalize_gradient_values v0 i n scale v' :
  DeNormalize_gradient v0 i n scale = Some v' →
  evolves (λ c, ∀ j k, c ≠ FirstCell (outputLayer_index v0) i j ∧
                       c ≠ SecondCell (outputLayer_index v0) i j k) v0 v' ∧
  ANN_outputs v' = ANN_outputs v0 ∧
  (∀ i' j', i' ≠ i → GetdOutputdInput v' i' j' = GetdOutputdInput v0 i' j') ∧
  (∀ i' j' k', i' ≠ i →
     Getd2OutputdInput2 v' i' j' k' = Getd2OutputdInput2 v0 i' j' k') ∧
  (∀ j, j < n →
     ∃ d, net_GetdYdX v0 (outputLayer_index v0) i j = Some d ∧
          net_GetdYdX v' (outputLayer_index v0) i j = Some (scale * d) ∧
          GetdOutputdInput v' i j = Some (scale * d) ∧
          (compute_second_gradient v0 = true →
           ∀ k, k < n →
             ∃ d2, net_Getd2YdX2 v0 (outputLayer_index v0) i j k = Some d2 ∧
                   net_Getd2YdX2 v' (outputLayer_index v0) i j k = Some (scale * d2) ∧
                   Getd2OutputdInput2 v' i j k = Some (scale * d2))).
Proof.
  unfold DeNormalize_gradient. set (out := outputLayer_index v0).
  set (keeps := λ c, ∀ j k, c ≠ FirstCell out i j ∧ c ≠ SecondCell out i j k).
  set (done_in := λ v (j : nat),
    ∃ d, net_GetdYdX v0 out i j = Some d ∧
         net_GetdYdX v out i j = Some (scale * d) ∧
         GetdOutputdInput v i j = Some (scale * d) ∧
         (compute_second_gradient v0 = true →
          ∀ k, k < n →
            ∃ d2, net_Getd2YdX2 v0 out i j k = Some d2 ∧
                  net_Getd2YdX2 v out i j k = Some (scale * d2) ∧
                  Getd2OutputdInput2 v i j k = Some (scale * d2))).
  intros Hrun.
  pose proof (for_loop_inv (λ j v,
    evolves keeps v0 v ∧ ANN_outputs v = ANN_outputs v0 ∧
    (∀ i' j', i' ≠ i ∨ j ≤ j' → GetdOutputdInput v i' j' = GetdOutputdInput v0 i' j') ∧
    (∀ i' j' k', i' ≠ i ∨ j ≤ j' →
       Getd2OutputdInput2 v i' j' k' = Getd2OutputdInput2 v0 i' j' k') ∧
    (∀ j', j ≤ j' → net_GetdYdX v out i j' = net_GetdYdX v0 out i j') ∧
    (∀ j' k, j ≤ j' → net_Getd2YdX2 v out i j' k = net_Getd2YdX2 v0 out i j' k) ∧
    (∀ j', j' < j → done_in v j')) _ _ _ _ _ Hrun) as Hinv.
  simpl in Hinv. destruct Hinv as (Hev & Ha & Hg & Hh & _ & _ & Hdone).
  { split_and!; [apply evolves_refl|done..|lia]. }
  { clear Hrun. intros j v vf Hj (Hev & Ha & Hg & Hh & Hun1 & Hun2 & Hdone) Hstep.
    destruct (net_GetdYdX v out i j) as [d|] eqn:Hd; simpl in Hstep; [|done].
    destruct (net_SetdYdX v out i j (scale * d)) as [v1|] eqn:Hw;
      simpl in Hstep; [|done].
    destruct (write_cell_step v (FirstCell out i j) _ v1 Hw) as (Hev1 & Hr1 & _).
    destruct (write_cell_readable v (FirstCell out i j) _ v1 Hw) as (Ha1 & Hg1 & Hh1).
    simpl in Hr1. rewrite Hr1 in Hstep. simpl in Hstep.
    destruct (vset2 i j (scale * d) (dOutputs_dInputs v1)) as [g|] eqn:Hset;
      simpl in Hstep; [|done].
    set (v2 := set_dOutputs_dInputs v1 g) in *.
    pose proof (set_dOutputs_dInputs_evolves v1 i j _ g Hset) as Hev2. fold v2 in Hev2.
    assert (Hread : ∀ i' j',
      GetdOutputdInput v2 i' j' =
      if decide (i' = i ∧ j' = j) then Some (scale * d) else GetdOutputdInput v i' j').
    { intros i' j'. unfold GetdOutputdInput. simpl.
      by rewrite (vget2_vset2 _ _ _ _ _ i' j' Hset), Hg1. }
    assert (Hev02 : evolves keeps v0 v2).
    { eapply evolves_trans; [done|]. eapply evolves_trans.
      - eapply evolves_weaken; [|exact Hev1]. intros c Hc ->.
        by destruct (Hc j 0) as [Hne _].
      - by eapply evolves_weaken; [|exact Hev2]. }
    assert (Hout2 : outputLayer_index v2 = out)
      by (by rewrite (outputLayer_index_evolves _ _ _ Hev02)).
    assert (Hcsg2 : compute_second_gradient v2 = compute_second_gradient v0)
      by (by rewrite (compute_second_gradient_evolves _ _ _ Hev02)).
    assert (Hlast :
      evolves (λ c, ∀ k, c ≠ SecondCell out i j k) v2 vf ∧
      ANN_outputs vf = ANN_outputs v2 ∧ dOutputs_dInputs vf = dOutputs_dInputs v2 ∧
      (∀ i' j' k', (i', j') ≠ (i, j) →
         Getd2OutputdInput2 vf i' j' k' = Getd2OutputdInput2 v2 i' j' k') ∧
      (compute_second_gradient v0 = true →
       ∀ k, k < n →
         ∃ d2, net_Getd2YdX2 v2 out i j k = Some d2 ∧
               net_Getd2YdX2 vf out i j k = Some (scale * d2) ∧
               Getd2OutputdInput2 vf i j k = Some (scale * d2))).
    { change (compute_second_gradient v1) with (compute_second_gradient v2) in Hstep.
      rewrite Hcsg2 in Hstep. destruct (compute_second_gradient v0).
      - pose proof (DeNormalize_second_values _ _ _ _ _ _ Hstep) as Hsec.
        rewrite Hout2 in Hsec. destruct Hsec as (? & ? & ? & ? & ?). by split_and!.
      - injection Hstep as <-. split_and!; [apply evolves_refl|done..]. }
    destruct Hlast as (Hev3 & Ha3 & Hg3 & Hh3 & Hsec).
    assert (Hfirst_kept : ∀ j', j' ≠ j →
              net_GetdYdX vf out i j' = net_GetdYdX v out i j').
    { intros j' Hne. rewrite (kept_first _ _ _ _ _ _ Hev3) by done.
      rewrite (kept_first _ _ _ _ _ _ Hev2) by done.
      apply (kept_first _ _ _ _ _ _ Hev1). intros [=]. done. }
    assert (Hsecond_kept : ∀ j' k, j' ≠ j →
              net_Getd2YdX2 vf out i j' k = net_Getd2YdX2 v out i j' k).
    { intros j' k Hne. rewrite (kept_second _ _ _ _ _ _ _ Hev3) by (intros k' [=]; done).
      rewrite (kept_second _ _ _ _ _ _ _ Hev2) by done.
      by apply (kept_second _ _ _ _ _ _ _ Hev1). }
    split_and!.
    - eapply evolves_trans; [exact Hev02|]. eapply evolves_weaken; [|exact Hev3].
      intros c Hc k. exact (proj2 (Hc j k)).
    - rewrite Ha3. simpl. congruence.
    - intros i' j' Hc. unfold GetdOutputdInput at 1. rewrite Hg3.
      fold (GetdOutputdInput v2 i' j'). rewrite Hread, decide_False.
      + apply Hg. destruct Hc; [by left|right; lia].
      + intros [-> ->]. destruct Hc; [done|lia].
    - intros i' j' k' Hc. rewrite Hh3.
      + unfold Getd2OutputdInput2 at 1. simpl. rewrite Hh1.
        apply Hh. destruct Hc; [by left|right; lia].
      + intros [= -> ->]. destruct Hc; [done|lia].
    - intros j' Hj'. rewrite Hfirst_kept by lia. apply Hun1. lia.
    - intros j' k Hj'. rewrite Hsecond_kept by lia. apply Hun2. lia.
    - intros j' Hj'. destruct (decide (j' = j)) as [->|Hne].
      + exists d. split_and!.
        * by rewrite <-Hun1, Hd.
        * rewrite (kept_first _ _ _ _ _ _ Hev3) by done.
          by rewrite (kept_first _ _ _ _ _ _ Hev2).
        * unfold GetdOutputdInput at 1. rewrite Hg3.
          fold (GetdOutputdInput v2 i j). by rewrite Hread, decide_True.
        * intros Hcsg k Hk. destruct (Hsec Hcsg k Hk) as (d2 & H0 & H1 & H2).
          exists d2. split_and!; [|done..].
          rewrite <-H0, <-Hun2 by done.
          rewrite (kept_second _ _ _ _ _ _ _ Hev2) by done.
          by rewrite (kept_second _ _ _ _ _ _ _ Hev1).
      + destruct (Hdone j') as (d' & H0 & H1 & H2 & Hsnd); [lia|].
        exists d'. split_and!; [done| | |].
        * by rewrite Hfirst_kept.
        * unfold GetdOutputdInput at 1. rewrite Hg3.
          fold (GetdOutputdInput v2 i j'). rewrite Hread, decide_False; [done|].
          intros [_ ->]. done.
        * intros Hcsg k Hk. destruct (Hsnd Hcsg k Hk) as (d2 & K0 & K1 & K2).
          exists d2. split_and!; [done| |].
          -- by rewrite Hsecond_kept.
          -- rewrite Hh3 by (intros [= ->]; done).
             unfold Getd2OutputdInput2 at 1. simpl. by rewrite Hh1. }
  split_and!; try done.
  - intros i' j' Hne. apply Hg. by left.
  - intros i' j' k' Hne. apply Hh. by left.
Qed.

(** One output neuron of the output stage. *)
Lemma DeNormalize_neuron_values u0 i u' :
  DeNormalize_neuron u0 i = Some u' →
  evolves (λ c, ∀ j k, c ≠ FirstCell (outputLayer_index u0) i j ∧
                       c ≠ SecondCell (outputLayer_index u0) i j k) u0 u' ∧
  (∀ i', i' ≠ i → GetANNOutput u' i' = GetANNOutput u0 i') ∧
  (∀ i' j', i' ≠ i → GetdOutputdInput u' i' j' = GetdOutputdInput u0 i' j') ∧
  (∀ i' j' k', i' ≠ i →
     Getd2OutputdInput2 u' i' j' k' = Getd2OutputdInput2 u0 i' j' k') ∧
  output_done u0 u' i.
Proof.
  unfold DeNormalize_neuron. set (out := outputLayer_index u0).
  destruct (net_GetOutput u0 out i) as [y|] eqn:Hy; simpl; [|done].
  destruct (GetRegularizationScale u0 i false) as [scale|] eqn:Hscale; simpl; [|done].
  destruct (DimensionalizeOutput u0 y i) as [Y|] eqn:HY; simpl; [|done].
  destruct (vset i Y (ANN_outputs u0)) as [a|] eqn:Hset; simpl; [|done].
  set (ua := set_ANN_outputs u0 a).
  pose proof (set_ANN_outputs_evolves u0 i Y a Hset) as Heva. fold ua in Heva.
  assert (Hann : ∀ i', GetANNOutput ua i' =
            if decide (i' = i) then Some Y else GetANNOutput u0 i').
  { intros i'. unfold GetANNOutput. simpl. apply (lookup_vset _ _ _ _ i' Hset). }
  destruct (compute_gradient u0) eqn:Hcg.
  - change (GetNNeurons ua 0) with (GetNNeurons u0 0).
    destruct (GetNNeurons u0 0) as [nIn|] eqn:HnIn; simpl; [|done].
    assert (HnI : nInputs u0 = nIn) by (unfold nInputs; by rewrite HnIn).
    intros Hrun.
    destruct (DeNormalize_gradient_values ua i nIn scale u' Hrun)
      as (Hev & Ha & Hg & Hh & Hdone).
    change (outputLayer_index ua) with out in Hev, Hdone.
    split_and!.
    + eapply evolves_trans; [|exact Hev]. by eapply evolves_weaken; [|exact Heva].
    + intros i' Hne. unfold GetANNOutput at 1. rewrite Ha.
      fold (GetANNOutput ua i'). by rewrite Hann, decide_False.
    + done.
    + done.
    + exists y, scale, Y. split_and!; [done..| |].
      * unfold GetANNOutput at 1. rewrite Ha.
        fold (GetANNOutput ua i). by rewrite Hann, decide_True.
      * intros _ j Hj. rewrite HnI in Hj.
        destruct (Hdone j Hj) as (d & H0 & H1 & H2 & Hsec).
        exists d. split_and!; [done..|]. intros Hcsg k Hk. rewrite HnI in Hk.
        by apply Hsec.
  - intros [= <-]. split_and!.
    + by eapply evolves_weaken; [|exact Heva].
    + intros i' Hne. by rewrite Hann, decide_False.
    + done.
    + done.
    + exists y, scale, Y. split_and!; [done..| |].
      * by rewrite Hann, decide_True.
      * intros Hc. congruence.
Qed.

(** What the output stage leaves behind, for a run that ends. *)
Lemma DeNormalizeOutputs_values s s' :
  DeNormalizeOutputs s = Some s' → ∀ i, i < nOutputs s → output_done s s' i.
Proof.
  unfold DeNormalizeOutputs. set (out := outputLayer_index s).
  destruct (GetNNeurons s out) as [nOut|] eqn:HnOut; simpl; [|done].
  assert (HnO : nOutputs s = nOut) by (unfold nOutputs; fold out; by rewrite HnOut).
  set (keeps := λ c, ∀ i j k, c ≠ FirstCell out i j ∧ c ≠ SecondCell out i j k).
  intros Hrun.
  pose proof (for_loop_inv (λ i u,
    evolves keeps s u ∧
    (∀ i' j, i ≤ i' → net_GetdYdX u out i' j = net_GetdYdX s out i' j) ∧
    (∀ i' j k, i ≤ i' → net_Getd2YdX2 u out i' j k = net_Getd2YdX2 s out i' j k) ∧
    (∀ i', i' < i → output_done s u i')) _ _ _ _ _ Hrun) as Hinv.
  simpl in Hinv. destruct Hinv as (_ & _ & _ & Hdone).
  { split_and!; [apply evolves_refl|done..|lia]. }
  { clear Hrun. intros i u u' Hi (Hev & Hun1 & Hun2 & Hdone) Hstep.
    destruct (DeNormalize_neuron_values u i u' Hstep) as (Hev' & Ha & Hg & Hh & Hnew).
    assert (Hout : outputLayer_index u = out)
      by (by rewrite (outputLayer_index_evolves _ _ _ Hev)).
    rewrite Hout in Hev'.
    assert (Hfirst_kept : ∀ i' j, i' ≠ i →
              net_GetdYdX u' out i' j = net_GetdYdX u out i' j).
    { intros i' j Hne. apply (kept_first _ _ _ _ _ _ Hev').
      intros j' k'. split; intros [=]; done. }
    assert (Hsecond_kept : ∀ i' j k, i' ≠ i →
              net_Getd2YdX2 u' out i' j k = net_Getd2YdX2 u out i' j k).
    { intros i' j k Hne. apply (kept_second _ _ _ _ _ _ _ Hev').
      intros j' k'. split; intros [=]; done. }
    split_and!.
    - eapply evolves_trans; [done|]. eapply evolves_weaken; [|exact Hev'].
      intros c Hc j k. apply Hc.
    - intros i' j Hi'. rewrite Hfirst_kept by lia. apply Hun1. lia.
    - intros i' j k Hi'. rewrite Hsecond_kept by lia. apply Hun2. lia.
    - intros i' Hi'. destruct (decide (i' = i)) as [->|Hne].
      + destruct Hnew as (y & scale & Y & Hy & Hscale & HY & HA & Hfirst).
        rewrite Hout in Hy.
        exists y, scale, Y. fold out. split_and!.
        * rewrite <-Hy. symmetry. apply (kept_output _ _ _ _ _ Hev).
          by intros i' j k.
        * by rewrite <-(GetRegularizationScale_evolves _ _ _ _ _ Hev).
        * by rewrite <-(DimensionalizeOutput_evolves _ _ _ _ _ Hev).
        * done.
        * rewrite <-(compute_gradient_evolves _ _ _ Hev). intros Hcg j Hj.
          rewrite <-(evolves_nInputs _ _ _ Hev) in Hj.
          destruct (Hfirst Hcg j Hj) as (d & H0 & H1 & H2 & Hsec).
          rewrite Hout in H0, H1.
          exists d. split_and!; [by rewrite <-Hun1|done..|].
          rewrite <-(compute_second_gradient_evolves _ _ _ Hev). intros Hcsg k Hk.
          rewrite <-(evolves_nInputs _ _ _ Hev) in Hk.
          destruct (Hsec Hcsg k Hk) as (d2 & K0 & K1 & K2).
          rewrite Hout in K0, K1.
          exists d2. split_and!; [by rewrite <-Hun2|done..].
      + destruct (Hdone i') as (y & scale & Y & Hy & Hscale & HY & HA & Hfirst); [lia|].
        exists y, scale, Y. split_and!; [done..|by rewrite Ha|].
        intros Hcg j Hj. destruct (Hfirst Hcg j Hj) as (d & H0 & H1 & H2 & Hsec).
        exists d. fold out in H0, H1 |- *.
        split_and!; [done|by rewrite Hfirst_kept|by rewrite Hg|].
        intros Hcsg k Hk. destruct (Hsec Hcsg k Hk) as (d2 & K0 & K1 & K2).
        exists d2. fold out in K0, K1 |- *.
        split_and!; [done|by rewrite Hsecond_kept|by rewrite Hh]. }
  intros i Hi. apply Hdone. lia.
Qed.
End OutputStageValues.

(** ** The three loops over the previous layer are the weighted sums *)

Section SumCharacterisation.
Context {D : Type} `{MlpDouble D}.
Implicit Types (s : CNeuralNetwork D).
Local Open Scope mlp_scope.

(** A loop that adds one product per pass returns [r] exactly when its
    reads succeed and [r] is the sum of the products. *)
Lemma for_loop_weighted_sum (w v : nat → option D) from m init r :
  for_loop from m (λ jNeuron x, a ← w jNeuron; y ← v jNeuron; Some (x + a * y)) init
    = Some r ↔
  ∃ ws ys, length ws = m ∧ length ys = m ∧
    (∀ jNeuron, jNeuron < m →
       w (from + jNeuron)%nat = ws !! jNeuron ∧ v (from + jNeuron)%nat = ys !! jNeuron) ∧
    r = weighted_sum init ws ys.
Proof.
  revert from init. induction m as [|m IH]; intros from init; simpl.
  - split.
    + intros [= <-]. exists [], []. split_and!; [done..|lia|done].
    + intros (ws & ys & Hws & Hys & _ & ->).
      apply nil_length_inv in Hws as ->. done.
  - split.
    + destruct (w from) as [a|] eqn:Ha; simpl; [|done].
      destruct (v from) as [y|] eqn:Hy; simpl; [|done].
      intros (ws & ys & Hws & Hys & Hread & ->)%IH.
      exists (a :: ws), (y :: ys). simpl. split_and!; [by f_equal..| |done].
      intros [|jN] HjN; simpl.
      * by rewrite Nat.add_0_r.
      * replace (from + S jN)%nat with (S from + jN)%nat by lia. apply Hread. lia.
    + intros (ws & ys & Hws & Hys & Hread & ->).
      destruct ws as [|a ws]; [done|]. destruct ys as [|y ys]; [done|].
      destruct (Hread 0%nat) as [Ha Hy]; [lia|]. rewrite Nat.add_0_r in Ha, Hy.
      rewrite Ha, Hy. simpl. apply IH. exists ws, ys.
      split_and!; [by injection Hws|by injection Hys| |done].
      intros jN HjN. replace (S from + jN)%nat with (from + S jN)%nat by lia.
      apply (Hread (S jN)). lia.
Qed.

(** [ComputeX] returns the bias plus the weighted sum of the outputs of the
    layer before, and faults exactly when one of its reads does. *)
Lemma ComputeX_sum s l i X : ComputeX s l i = Some X ↔ pre_activation s l i X.
Proof.
  unfold ComputeX, pre_activation, previous_layer_sum. split.
  - destruct (net_GetBias s l i) as [b|] eqn:Hb; simpl; [|done].
    destruct l as [|lp]; simpl; [done|].
    destruct (GetNNeurons s lp) as [m|] eqn:Hm; simpl; [|done].
    intros (ws & ys & Hws & Hys & Hread & ->)%for_loop_weighted_sum.
    exists lp, b. split_and!; [done..|]. by exists m, ws, ys.
  - intros (lp & b & -> & -> & m & ws & ys & Hm & Hws & Hys & Hread & ->). simpl.
    rewrite Hm. simpl. apply for_loop_weighted_sum. by exists ws, ys.
Qed.

Lemma ComputePsi_sum s l i j psi : ComputePsi s l i j = Some psi ↔ psi_sum s l i j psi.
Proof.
  unfold ComputePsi, psi_sum, previous_layer_sum. split.
  - destruct l as [|lp]; simpl; [done|].
    destruct (GetNNeurons s lp) as [m|] eqn:Hm; simpl; [|done].
    intros (ws & ys & Hws & Hys & Hread & ->)%for_loop_weighted_sum.
    exists lp. split; [done|]. by exists m, ws, ys.
  - intros (lp & -> & m & ws & ys & Hm & Hws & Hys & Hread & ->). simpl.
    rewrite Hm. simpl. apply for_loop_weighted_sum. by exists ws, ys.
Qed.

Lemma ComputeChi_sum s l i j k chi :
  ComputeChi s l i j k = Some chi ↔ chi_sum s l i j k chi.
Proof.
  unfold ComputeChi, chi_sum, previous_layer_sum. split.
  - destruct l as [|lp]; simpl; [done|].
    destruct (GetNNeurons s lp) as [m|] eqn:Hm; simpl; [|done].
    intros (ws & ys & Hws & Hys & Hread & ->)%for_loop_weighted_sum.
    exists lp. split; [done|]. by exists m, ws, ys.
  - intros (lp & -> & m & ws & ys & Hm & Hws & Hys & Hread & ->). simpl.
    rewrite Hm. simpl. apply for_loop_weighted_sum. by exists ws, ys.
Qed.
End SumCharacterisation.

(** Over the reals the order of the additions does not matter: the sum is
    the initial value plus the sum of the products. *)
Lemma weighted_sum_reals (init : R) (ws ys : list R) :
  weighted_sum init ws ys = (init + foldr Rplus 0 (zip_with Rmult ws ys))%R.
Proof.
  revert init ys. induction ws as [|w ws IH]; intros init [|y ys]; simpl;
    try lra.
  rewrite IH. lra.
Qed.

(** ** The chain rule in the states of [Predict] *)

Section ChainRuleStored.
Context {D : Type} `{MlpDouble D}.
Implicit Types (s net : CNeuralNetwork D) (inputs : list D).
Local Open Scope mlp_scope.

Lemma stores_chain_rule_sums s l i :
  stores_chain_rule s l i → chain_rule_stored s l i (λ v, v).
Proof.
  intros (X & act & HX & Hact & Hall). exists X, act.
  split_and!; [done|by apply ComputeX_sum|done|].
  intros j Hj. destruct (Hall j Hj) as (psi_j & Hpsi & Hfirst & Hsecond).
  exists psi_j. split_and!; [done|by apply ComputePsi_sum|done|].
  intros Hcsg k Hk. destruct (Hsecond Hcsg k Hk) as (psi_k & chi & Hpk & Hchi & Hread).
  exists psi_k, chi.
  split_and!; [done|by apply ComputePsi_sum|done|by apply ComputeChi_sum|done].
Qed.

(** The output stage multiplies the derivatives of an output neuron by
    [scale] and leaves alone what the chain rule of that neuron reads. *)
Lemma stores_chain_rule_rescaled s s' lp i scale :
  evolves (λ c, ∀ i' j k, c ≠ FirstCell (outputLayer_index s) i' j ∧
                          c ≠ SecondCell (outputLayer_index s) i' j k) s s' →
  outputLayer_index s = S lp →
  compute_gradient s = true → activations_assigned s →
  stores_chain_rule s (S lp) i → first_scaled s s' i scale →
  chain_rule_stored s' (S lp) i (mlp_mul scale).
Proof.
  intros Hev Hout Hcg Hnamed (X & act & HX & Hact & Hall) Hscaled.
  rewrite Hout in Hev. unfold first_scaled in Hscaled. rewrite Hout in Hscaled.
  destruct (static_fields _ _ (ev_static _ _ _ Hev))
    as (_ & _ & _ & _ & _ & Hcg' & Hcsg' & Ht).
  pose proof (evolves_nInputs _ _ _ Hev) as HnI.
  unfold ActivationFunction in Hact.
  destruct (activation_function_types s !! S lp) as [tag|] eqn:Htag;
    simpl in Hact; [|done].
  injection Hact as <-.
  assert (Hn : named_tag tag) by (apply (Hnamed (S lp)); [lia|done]).
  assert (HX' : ComputeX s' (S lp) i = Some X).
  { rewrite <-HX. eapply ComputeX_evolves; [done|]. by intros jN i' j k. }
  assert (Hpsi' : ∀ j psi, ComputePsi s (S lp) i j = Some psi →
                           ComputePsi s' (S lp) i j = Some psi).
  { intros j psi <-. eapply ComputePsi_evolves; [done|].
    intros jN i' j' k. split; intros [=]; lia. }
  exists X, (ActivationFunction_switch s' tag X).
  split_and!; [done|by apply ComputeX_sum| |].
  { unfold ActivationFunction. by rewrite Ht, Htag. }
  rewrite <-(ActivationFunction_switch_prime s s' tag X) by congruence.
  rewrite HnI, Hcsg'. intros j Hj.
  destruct (Hall j Hj) as (psi_j & Hpsi & Hfirst & Hsecond).
  destruct (Hscaled j Hj) as (d & Hd & Hd' & _ & Hsnd).
  rewrite Hfirst in Hd. injection Hd as <-.
  exists psi_j. split_and!; [by apply Hpsi'|by apply ComputePsi_sum, Hpsi'|done|].
  intros Hcsg k Hk.
  rewrite <-(ActivationFunction_switch_dprime s s' tag X) by congruence.
  destruct (Hsecond Hcsg k Hk) as (psi_k & chi & Hpk & Hchi & Hread).
  destruct (Hsnd Hcsg k Hk) as (d2 & Hd2 & Hd2' & _).
  rewrite Hout, Hread in Hd2. injection Hd2 as <-. rewrite Hout in Hd2'.
  assert (Hchi' : ComputeChi s' (S lp) i j k = Some chi).
  { rewrite <-Hchi. eapply ComputeChi_evolves; [done|].
    intros jN i' j' k'. split; intros [=]; lia. }
  exists psi_k, chi.
  split_and!; [by apply Hpsi'|by apply ComputePsi_sum, Hpsi'|done
              |by apply ComputeChi_sum|done].
Qed.

(** C1.  On a sized network with first-derivative mode enabled and a named
    activation function on every layer after the input layer, [Predict]
    ends without a fault.  For a neuron [i] of a layer [l] after the input
    layer let [X] be its pre-activation, the bias plus the weighted sum of the
    outputs of layer [l - 1]; [act] the result of the activation-function
    evaluator at [X]; [psi_j] the weighted sum of the first derivatives of
    layer [l - 1] with respect to input [j]; and [chi] the weighted sum of
    its second derivatives with respect to [(j, k)].  These are the values
    of [ComputeX], [ComputePsi] and [ComputeChi].  In the state [net1] the
    loop over the layers ends in, every neuron of every layer after the input
    layer holds the first derivative [Phi_prime act * psi_j] and, with
    second-derivative mode also enabled, the second derivative
    [Phi_dprime act * psi_j * psi_k + Phi_prime act * chi].  In the state
    [net'] that [Predict] returns the hidden layers hold the same, and
    neuron [i] of the output layer holds these two values multiplied by
    [GetRegularizationScale (i, false)]: the output stage has rescaled them
    in place.  The source computes the first derivative as
    [psi_j * Phi_prime]; multiplication of [mlpdouble] values is taken to
    commute, as it does for floating point numbers and for the reals. *)
Theorem Predict_chain_rule net inputs :
  (∀ a b : D, a * b = b * a) →
  sized net → nInputs net ≤ length inputs →
  compute_gradient net = true → activations_assigned net →
  ∃ net1 net',
    Predict_layers net inputs = Some net1 ∧
    DeNormalizeOutputs net1 = Some net' ∧
    Predict net inputs = Some net' ∧
    (∀ l n i, 0 < l < n_hidden_layers net + 2 → GetNNeurons net l = Some n → i < n →
              chain_rule_stored net1 l i (λ v, v)) ∧
    (∀ l n i, 0 < l < n_hidden_layers net + 1 → GetNNeurons net l = Some n → i < n →
              chain_rule_stored net' l i (λ v, v)) ∧
    (∀ i, i < nOutputs net →
       ∃ scale, GetRegularizationScale net i false = Some scale ∧
                chain_rule_stored net' (outputLayer_index net) i (mlp_mul scale)).
Proof.
  intros mlp_mul_comm Hsized Hlen Hcg Hnamed.
  pose proof (sized_allocated _ Hsized) as Hal.
  destruct (Predict_layers_spec net inputs Hal Hlen Hcg Hnamed)
    as (net1 & Hrun & Hev & Hdone).
  assert (Hal1 : allocated net1) by (by eapply allocated_evolves).
  destruct (DeNormalizeOutputs_spec net1 Hal1) as (net' & Hout & Hev').
  assert (Hal' : allocated net') by (by eapply allocated_evolves).
  pose proof (n_hidden_layers_evolves _ _ _ Hev) as Hh1.
  pose proof (n_hidden_layers_evolves _ _ _ Hev') as Hh'.
  assert (Hcg1 : compute_gradient net1 = true)
    by (by rewrite (compute_gradient_evolves _ _ _ Hev)).
  assert (Hnamed1 : activations_assigned net1)
    by (by eapply activations_assigned_evolves).
  assert (Hstores : ∀ lp n i, S lp < n_hidden_layers net + 2 →
            GetNNeurons net (S lp) = Some n → i < n → stores_chain_rule net1 (S lp) i).
  { intros lp n i Hl Hn Hi.
    rewrite <-(evolves_neurons _ _ _ (S lp) Hev) in Hn.
    destruct (al_neurons _ Hal1 lp) as [m Hm]; [lia|].
    eapply neuron_done_stores; try done; [lia|].
    eapply Hdone; [lia|done..]. }
  exists net1, net'. split_and!; [done..|unfold Predict; by rewrite Hrun| | |].
  - intros [|lp] n i Hl Hn Hi; [lia|].
    apply stores_chain_rule_sums. eapply Hstores; [lia|done..].
  - intros [|lp] n i Hl Hn Hi; [lia|]. apply stores_chain_rule_sums.
    rewrite <-(evolves_neurons _ _ _ (S lp) Hev) in Hn.
    destruct (al_neurons _ Hal' lp) as [m Hm]; [lia|].
    eapply neuron_done_stores; try done;
      [lia|by rewrite (evolves_neurons _ _ _ _ Hev')|].
    eapply neuron_done_evolves; [exact Hev'| | |done|done|eapply Hdone; [lia|done..]].
    + intros c Hc i' j' k'. unfold outputLayer_index.
      split; intros ->; simpl in Hc; lia.
    + intros c Hc%cell_neuron_layer i' j' k'. unfold outputLayer_index.
      split; intros ->; simpl in Hc; lia.
  - intros i Hi.
    assert (Hidx : outputLayer_index net1 = S (n_hidden_layers net))
      by (unfold outputLayer_index; lia).
    assert (Hidx0 : outputLayer_index net = S (n_hidden_layers net))
      by (unfold outputLayer_index; lia).
    destruct (DeNormalizeOutputs_values _ _ Hout i)
      as (y & scale & Y & _ & Hscale & _ & _ & Hfirst);
      [by rewrite (evolves_nOutputs _ _ _ Hev)|].
    exists scale. split; [by rewrite <-(GetRegularizationScale_evolves _ _ _ _ _ Hev)|].
    rewrite Hidx0. unfold nOutputs in Hi. rewrite Hidx0 in Hi.
    destruct (GetNNeurons net (S (n_hidden_layers net))) as [n|] eqn:Hn;
      simpl in Hi; [|lia].
    eapply stores_chain_rule_rescaled; [exact Hev'|done..| |by apply Hfirst].
    eapply Hstores; [lia|done..].
Qed.
End ChainRuleStored.

(** The small network with linear activations, first-derivative mode and
    the inputs [1, 1].  Output [y] has the normalisation pair [(1, 3)], so
    its scale under min-max is [2].  In the state [Predict] returns, output
    neuron 0 has pre-activation [4], activation slope [1] and [psi_0 = 1],
    and its stored derivative with respect to input 0 is [2], not
    [Phi_prime * psi_0 = 1]: the output stage has multiplied it by the
    scale. *)
Lemma Predict_output_layer_rescaled :
  let net := Example.network true false ACT.LINEAR MINMAX MINMAX in
  ∃ net' act,
    Predict net [1; 1]%R = Some net' ∧
    ComputeX net' 2 0 = Some 4%R ∧ ActivationFunction net' 2 4%R = Some act ∧
    Phi_prime act = 1%R ∧ ComputePsi net' 2 0 0 = Some 1%R ∧
    net_GetdYdX net' 2 0 0 = Some 2%R ∧
    ¬ chain_rule_stored net' 2 0 (λ v, v).
Proof.
  eexists _, _.
  split; [lazy -[Rplus Rmult Rminus Rdiv Rinv Ropp IZR Q2R]; reflexivity|].
  split_and!.
  - lazy -[Rplus Rmult Rminus Rdiv Rinv Ropp IZR Q2R]. f_equal. lra.
  - reflexivity.
  - lazy -[Rplus Rmult Rminus Rdiv Rinv Ropp IZR Q2R]. apply RMicromega.Q2R_1.
  - lazy -[Rplus Rmult Rminus Rdiv Rinv Ropp IZR Q2R]. f_equal.
    rewrite RMicromega.Q2R_0, RMicromega.Q2R_1. lra.
  - lazy -[Rplus Rmult Rminus Rdiv Rinv Ropp IZR Q2R]. f_equal.
    rewrite RMicromega.Q2R_0, RMicromega.Q2R_1. lra.
  - intros (X & act & _ & _ & Hact & Hall).
    destruct (Hall 0) as (psi_j & Hpsi & _ & Hread & _);
      [unfold nInputs; simpl; lia|].
    lazy -[Rplus Rmult Rminus Rdiv Rinv Ropp IZR Q2R] in Hact, Hpsi, Hread.
    injection Hact as <-. injection Hpsi as <-. injection Hread as Hread.
    lazy -[Rplus Rmult Rminus Rdiv Rinv Ropp IZR Q2R] in Hread.
    rewrite RMicromega.Q2R_0, RMicromega.Q2R_1 in Hread. lra.
Qed.

Lemma Predict_chain_rule_witness :
  let net := Example.network true true ACT.TANH MINMAX MINMAX in
  (∀ a b : R, mlp_mul a b = mlp_mul b a) ∧
  sized net ∧ nInputs net ≤ length [1; 1]%R ∧
  compute_gradient net = true ∧ activations_assigned net ∧
  ∃ net1 net', Predict_layers net [1; 1]%R = Some net1 ∧
               Predict net [1; 1]%R = Some net' ∧
               chain_rule_stored net1 2 0 (λ v, v) ∧
               chain_rule_stored net' 1 2 (λ v, v) ∧
               ∃ scale, GetRegularizationScale net 0 false = Some scale ∧
                        chain_rule_stored net' 2 0 (mlp_mul scale).
Proof.
  assert (Hlen : 2 ≤ 2) by lia.
  assert (Hcomm : ∀ a b : R, mlp_mul a b = mlp_mul b a)
    by (simpl; exact Rmult_comm).
  split_and!; [exact Hcomm|apply network_sized|exact Hlen|reflexivity
              |apply network_activations_assigned|].
  destruct (Predict_chain_rule
              (Example.network true true ACT.TANH MINMAX MINMAX) [1; 1]%R
              Hcomm (network_sized _ _ _ _ _) Hlen eq_refl
              (network_activations_assigned _ _ _ _))
    as (net1 & net' & Hrun & _ & Hall & Hloop & Hhidden & Houtput).
  assert (H02 : 0 < 2) by lia. assert (H01 : 0 < 1) by lia.
  assert (H12 : 1 < 2) by lia. assert (H23 : 2 < 3) by lia.
  exists net1, net'. split_and!; [exact Hrun|exact Hall| | |].
  - exact (Hloop 2 2 0 (conj H02 H23) eq_refl H02).
  - exact (Hhidden 1 3 2 (conj H01 H12) eq_refl H23).
  - exact (Houtput 0 H02).
Defined.

(** ** The prediction as a whole *)

Section PredictValues.
Context {D : Type} `{MlpDouble D}.
Implicit Types (net : CNeuralNetwork D) (inputs : list D).
Local Open Scope mlp_scope.

(** The weighted sum reads the biases, the weights and the outputs of the
    layer before, and nothing else. *)
Lemma ComputeX_same net1 net2 lp i :
  skeleton net2 lp = skeleton net1 lp → skeleton net2 (S lp) = skeleton net1 (S lp) →
  weights_mat net2 = weights_mat net1 →
  (∀ j m, GetNNeurons net1 lp = Some m → j < m →
          net_GetOutput net2 lp j = net_GetOutput net1 lp j) →
  ComputeX net2 (S lp) i = ComputeX net1 (S lp) i.
Proof.
  intros Hprev Hthis Hw Hout. unfold ComputeX.
  rewrite (net_GetBias_skeleton _ _ _ _ Hthis).
  destruct (net_GetBias net1 (S lp) i) as [b|]; simpl; [|done].
  rewrite (GetNNeurons_skeleton _ _ _ Hprev).
  destruct (GetNNeurons net1 lp) as [m|]; simpl; [|done].
  apply for_loop_ext. intros j t Hj. rewrite Hw, (Hout j m); [done..|lia].
Qed.

(** The state [Predict] returns, and what it has in common with the state
    it started from. *)
Lemma Predict_forward net inputs :
  sized net → nInputs net ≤ length inputs → activations_assigned net →
  ∃ net', Predict net inputs = Some net' ∧
    evolves (λ _, False) net net' ∧
    (∀ i, i < nInputs net → forward_input net' inputs i) ∧
    (∀ l i n, 0 < l < n_hidden_layers net + 2 → GetNNeurons net l = Some n → i < n →
              forward_neuron net' l i) ∧
    (∀ i, i < nOutputs net →
       ∃ y Y, net_GetOutput net' (outputLayer_index net) i = Some y ∧
              DimensionalizeOutput net y i = Some Y ∧
              GetANNOutput net' i = Some Y).
Proof.
  intros Hsized Hlen Hnamed. pose proof (sized_allocated _ Hsized) as Hal.
  destruct (Predict_layers_forward net inputs Hal Hlen Hnamed)
    as (net1 & Hrun & Hev & Hin & Hfw).
  assert (Hal1 : allocated net1) by (by eapply allocated_evolves).
  destruct (DeNormalizeOutputs_spec net1 Hal1) as (net' & Hout & Hev').
  pose proof (DeNormalizeOutputs_values _ _ Hout) as Hvalues.
  pose proof (outputLayer_index_evolves _ _ _ Hev) as Hidx.
  exists net'. unfold Predict. rewrite Hrun. simpl. split_and!; [done| | | |].
  - eapply evolves_trans; [done|]. by eapply evolves_weaken; [|exact Hev'].
  - intros i Hi. destruct (Hin i Hi) as [Hfi _].
    eapply forward_input_evolves; [exact Hev'| |done]. by intros i' j k.
  - intros [|lp] i n Hl Hn Hi; [lia|].
    eapply forward_neuron_evolves; [exact Hev'| | | |by eapply Hfw].
    + by intros j i' j' k.
    + by intros i' j k.
    + by eapply activations_assigned_evolves.
  - intros i Hi. rewrite <-(evolves_nOutputs _ _ _ Hev) in Hi.
    destruct (Hvalues i Hi) as (y & scale & Y & Hy & _ & HY & HA & _).
    exists y, Y. split_and!; [|by rewrite <-(DimensionalizeOutput_evolves _ _ _ _ _ Hev)|done].
    rewrite <-Hidx, <-Hy. apply (kept_output _ _ _ _ _ Hev'). by intros i' j k.
Qed.

(** X16.  On a sized network whose layers after the first carry named tags,
    [Predict] ends and has evaluated the network forward, in either
    derivative mode: input neuron [i] holds [NormalizeInput] of input [i];
    every neuron of every later layer holds the value the evaluator produces
    at the pre-activation of the neuron, which is the value of [ComputeX]:
    its bias plus the weighted sum of the outputs stored in the layer before;
    and [ANN_outputs[i]] is [DimensionalizeOutput] of the value of output
    neuron [i]. *)
Theorem Predict_forward_pass net inputs :
  sized net → nInputs net ≤ length inputs → activations_assigned net →
  ∃ net', Predict net inputs = Some net' ∧
    (∀ i, i < nInputs net → forward_input net' inputs i) ∧
    (∀ l i n, 0 < l < n_hidden_layers net + 2 → GetNNeurons net l = Some n → i < n →
              forward_value net' l i) ∧
    (∀ i, i < nOutputs net →
       ∃ y Y, net_GetOutput net' (outputLayer_index net) i = Some y ∧
              DimensionalizeOutput net y i = Some Y ∧
              GetANNOutput net' i = Some Y).
Proof.
  intros Hsized Hlen Hnamed.
  destruct (Predict_forward net inputs Hsized Hlen Hnamed)
    as (net' & Hrun & _ & Hin & Hfw & Hout).
  exists net'. split_and!; [done..| |done].
  intros l i n Hl Hn Hi.
  destruct (Hfw l i n Hl Hn Hi) as (tag & X & Htag & HX & Hread).
  exists tag, X. split_and!; [done..|by apply ComputeX_sum|done].
Qed.

(** X17.  In first-derivative mode [Predict] leaves in the input layer the
    derivatives of the normalised inputs with respect to the inputs: for
    input neuron [i] the reciprocal of [GetRegularizationScale (i, true)]
    with respect to input [i] and zero with respect to every other input,
    and, in second-derivative mode, zero second derivatives. *)
Theorem Predict_input_derivatives net inputs :
  sized net → nInputs net ≤ length inputs → activations_assigned net →
  compute_gradient net = true →
  ∃ net', Predict net inputs = Some net' ∧
          ∀ i, i < nInputs net → input_seeded net' i.
Proof.
  intros Hsized Hlen Hnamed Hcg. pose proof (sized_allocated _ Hsized) as Hal.
  destruct (Predict_layers_forward net inputs Hal Hlen Hnamed)
    as (net1 & Hrun & Hev & Hin & _).
  assert (Hal1 : allocated net1) by (by eapply allocated_evolves).
  destruct (DeNormalizeOutputs_spec net1 Hal1) as (net' & Hout & Hev').
  exists net'. unfold Predict. rewrite Hrun. simpl. split; [done|].
  intros i Hi. destruct (Hin i Hi) as [_ Hseed].
  eapply input_seeded_evolves; [exact Hev'| |by apply Hseed].
  intros c Hc i' j k. unfold outputLayer_index.
  split; intros ->; simpl in Hc; injection Hc as Hc _; lia.
Qed.

(** X18.  The output stage on a sized network ends, and for every output
    [i]: [ANN_outputs[i]] is [DimensionalizeOutput] of the value of output
    neuron [i]; in first-derivative mode each derivative of that neuron has
    been multiplied in place by [GetRegularizationScale (i, false)] and
    [dOutputs_dInputs[i][j]] holds the product; in second-derivative mode
    the same holds of the second derivatives and [d2Outputs_dInputs2]. *)
Theorem DeNormalizeOutputs_scales net :
  sized net →
  ∃ net', DeNormalizeOutputs net = Some net' ∧
          ∀ i, i < nOutputs net → output_done net net' i.
Proof.
  intros Hsized. pose proof (sized_allocated _ Hsized) as Hal.
  destruct (DeNormalizeOutputs_spec net Hal) as (net' & Hout & _).
  exists net'. split; [done|]. by apply DeNormalizeOutputs_values.
Qed.

(** X19.  The derivatives [Predict] makes readable are those of the
    propagation, rescaled: with [net1] the state after the loop over the
    layers, every output [i] of the final state is [output_done] with respect
    to [net1]. *)
Theorem Predict_output_stage net inputs :
  sized net → nInputs net ≤ length inputs → activations_assigned net →
  ∃ net1 net', Predict_layers net inputs = Some net1 ∧
    Predict net inputs = Some net' ∧
    ∀ i, i < nOutputs net → output_done net1 net' i.
Proof.
  intros Hsized Hlen Hnamed. pose proof (sized_allocated _ Hsized) as Hal.
  destruct (Predict_layers_forward net inputs Hal Hlen Hnamed)
    as (net1 & Hrun & Hev & _).
  assert (Hal1 : allocated net1) by (by eapply allocated_evolves).
  destruct (DeNormalizeOutputs_spec net1 Hal1) as (net' & Hout & _).
  exists net1, net'. unfold Predict. rewrite Hrun. simpl. split_and!; [done..|].
  intros i Hi. apply DeNormalizeOutputs_values; [done|].
  by rewrite (evolves_nOutputs _ _ _ Hev).
Qed.

(** X20.  [Predict] faults when it is given fewer inputs than the input
    layer has neurons: the loop over the first layer reads [inputs] past its
    end. *)
Theorem Predict_short_input net inputs :
  length inputs < nInputs net → Predict net inputs = None.
Proof.
  intros Hlen.
  assert (Hfirst : Predict_layer net inputs 0 = None).
  { unfold Predict_layer. unfold nInputs in Hlen.
    destruct (GetNNeurons net 0) as [n|]; simpl in *; [|lia].
    apply (for_loop_fault 0 n _ net (length inputs)); [lia|].
    intros t. unfold Predict_neuron.
    destruct (net_IsInput t 0) as [[]|]; simpl; [| |done].
    - unfold ComputeInputLayer. by rewrite (lookup_ge_None_2 inputs (length inputs)).
    - unfold ComputeX. by destruct (net_GetBias t 0 (length inputs)). }
  unfold Predict, Predict_layers.
  replace (n_hidden_layers net + 2)%nat with (S (n_hidden_layers net + 1)) by lia.
  simpl. by rewrite Hfirst.
Qed.

(** X21.  What [Predict] computes depends on the parameters of the network
    and on the inputs only: two sized networks with the same weights, biases,
    normalisation and named activation tags, given the same inputs, end with
    the same output in every neuron of every layer and the same
    [ANN_outputs], whatever their buffers and the scalars [Phi], [Phi_prime],
    [Phi_dprime] held before (an earlier evaluation, say) and whichever
    derivative modes are enabled in either. *)
Theorem Predict_outputs_determined net1 net2 inputs :
  sized net1 → sized net2 → same_parameters net1 net2 →
  nInputs net1 ≤ length inputs → activations_assigned net1 →
  ∃ net1' net2',
    Predict net1 inputs = Some net1' ∧ Predict net2 inputs = Some net2' ∧
    (∀ l i n, l < n_hidden_layers net1 + 2 → GetNNeurons net1 l = Some n → i < n →
              net_GetOutput net2' l i = net_GetOutput net1' l i) ∧
    (∀ i, i < nOutputs net1 → GetANNOutput net2' i = GetANNOutput net1' i).
Proof.
  intros Hs1 Hs2 (Hh & Hw & Hin & Hon & Hm & Ht & Hsk) Hlen Hnamed.
  assert (Hcount : ∀ l, GetNNeurons net2 l = GetNNeurons net1 l)
    by (intros l; by apply GetNNeurons_skeleton).
  assert (HnI : nInputs net2 = nInputs net1) by (unfold nInputs; by rewrite Hcount).
  assert (HnO : nOutputs net2 = nOutputs net1)
    by (unfold nOutputs, outputLayer_index; by rewrite Hh, Hcount).
  assert (Hnamed2 : activations_assigned net2)
    by (intros l tag Hl; rewrite Ht; by apply Hnamed).
  destruct (Predict_forward net1 inputs Hs1 Hlen Hnamed)
    as (net1' & Hrun1 & Hev1 & Hin1 & Hfw1 & Hout1).
  destruct (Predict_forward net2 inputs Hs2) as (net2' & Hrun2 & Hev2 & Hin2 & Hfw2 & Hout2);
    [by rewrite HnI|done|].
  assert (Hlayers : ∀ l, l < n_hidden_layers net1 + 2 →
              ∀ i n, GetNNeurons net1 l = Some n → i < n →
                     net_GetOutput net2' l i = net_GetOutput net1' l i).
    { induction l as [|lp IH]; intros Hl i n Hn Hi.
      - assert (Hi' : i < nInputs net1) by (unfold nInputs; by rewrite Hn).
        destruct (Hin1 i Hi') as (x & v & Hx & Hv & ->).
        destruct (Hin2 i) as (x2 & v2 & Hx2 & Hv2 & ->); [by rewrite HnI|].
        rewrite Hx in Hx2. injection Hx2 as <-.
        rewrite (NormalizeInput_evolves _ _ _ _ _ Hev1) in Hv.
        rewrite (NormalizeInput_evolves _ _ _ _ _ Hev2) in Hv2.
        unfold NormalizeInput in Hv, Hv2. rewrite Hin, Hm in Hv2. congruence.
      - destruct (Hfw1 (S lp) i n) as (tag & X & Htag & HX & ->); [lia|done..|].
        destruct (Hfw2 (S lp) i n) as (tag2 & X2 & Htag2 & HX2 & ->);
          [lia|by rewrite Hcount|done|].
        destruct (static_fields _ _ (ev_static _ _ _ Hev1)) as (_&Hw1&_&_&_&_&_&Ht1).
        destruct (static_fields _ _ (ev_static _ _ _ Hev2)) as (_&Hw2&_&_&_&_&_&Ht2).
        assert (tag2 = tag) as -> by congruence.
        assert (X2 = X) as ->.
        { assert (HXeq : ComputeX net2' (S lp) i = ComputeX net1' (S lp) i).
          { apply ComputeX_same.
            - by rewrite (ev_skeleton _ _ _ Hev1), (ev_skeleton _ _ _ Hev2).
            - by rewrite (ev_skeleton _ _ _ Hev1), (ev_skeleton _ _ _ Hev2).
            - congruence.
            - intros j m Hm1 Hj.
              rewrite (evolves_neurons _ _ _ _ Hev1) in Hm1.
              by apply (IH ltac:(lia) j m). }
          congruence. }
        f_equal. apply ActivationFunction_switch_Phi.
        apply (Hnamed (S lp)); [lia|congruence]. }
  exists net1', net2'. split_and!; [done..| |].
  - intros l i n Hl Hn Hi. by eapply Hlayers.
  - intros i Hi.
    destruct (Hout1 i Hi) as (y & Y & Hy & HY & ->).
    destruct (Hout2 i) as (y2 & Y2 & Hy2 & HY2 & ->); [by rewrite HnO|].
    assert (Hidx : outputLayer_index net2 = outputLayer_index net1)
      by (unfold outputLayer_index; by rewrite Hh).
    unfold nOutputs in Hi.
    destruct (GetNNeurons net1 (outputLayer_index net1)) as [n|] eqn:Hn;
      simpl in Hi; [|lia].
    assert (Hlast : outputLayer_index net1 < n_hidden_layers net1 + 2)
      by (unfold outputLayer_index; lia).
    rewrite Hidx, (Hlayers _ Hlast i n Hn Hi), Hy in Hy2.
    injection Hy2 as <-.
    unfold DimensionalizeOutput in HY, HY2. rewrite Hon, Hm in HY2. congruence.
Qed.
End PredictValues.

(** ** The pairs of the variable matcher *)

Section MatcherPairs.
Implicit Types (m : gmap string nat) (names : list string).

(** The index the map holds for a name is that of its last occurrence. *)
Lemma fill_lookup_map_Some names from m s k :
  fill_lookup_map names from m !! s = Some k →
  (m !! s = Some k ∧ s ∉ names) ∨
  (from ≤ k ∧ names !! (k - from) = Some s ∧
   ∀ k', k < k' → names !! (k' - from) ≠ Some s).
Proof.
  revert from m. induction names as [|a names IH]; intros from m; simpl.
  - intros Hm. left. split; [done|]. apply not_elem_of_nil.
  - intros [[Hm Hnot]|(Hle & Hk & Hlast)]%IH.
    + destruct (decide (a = s)) as [->|Hne].
      * rewrite lookup_insert_eq in Hm. injection Hm as <-. right.
        rewrite Nat.sub_diag. split_and!; [lia|done|].
        intros k' Hk'. replace (k' - from) with (S (k' - S from)) by lia. simpl.
        intros Hin%list_elem_of_lookup_2. done.
      * rewrite lookup_insert_ne in Hm by done. left. split; [done|].
        rewrite elem_of_cons. intros [?|?]; [congruence|done].
    + right. split_and!; [lia| |].
      * by replace (k - from) with (S (k - S from)) by lia.
      * intros k' Hk'. replace (k' - from) with (S (k' - S from)) by lia. simpl.
        apply Hlast. lia.
Qed.

Lemma match_inputs_pairs m names i acc r k j :
  match_inputs m names i acc = Some r → (k, j) ∈ r →
  (k, j) ∈ acc ∨ ∃ s, i ≤ j ∧ names !! (j - i) = Some s ∧ m !! s = Some k.
Proof.
  revert i acc. induction names as [|a names IH]; intros i acc; simpl.
  - intros [= <-]. by left.
  - destruct (m !! a) as [k0|] eqn:Ha; [|done]. intros Hr Hin.
    destruct (IH _ _ Hr Hin) as [Hacc|(s & Hle & Hs & Hm)].
    + apply elem_of_app in Hacc as [?|Hnew]; [by left|].
      apply list_elem_of_singleton in Hnew. injection Hnew as -> ->.
      right. exists a. rewrite Nat.sub_diag. by split_and!.
    + right. exists s. split_and!; [lia| |done].
      by replace (j - i) with (S (j - S i)) by lia.
Qed.

Lemma match_outputs_pairs m names i acc k j :
  (k, j) ∈ match_outputs m names i acc →
  (k, j) ∈ acc ∨ ∃ s, i ≤ j ∧ names !! (j - i) = Some s ∧ m !! s = Some k.
Proof.
  revert i acc. induction names as [|a names IH]; intros i acc; simpl.
  - by left.
  - assert (Hshift : ∀ s, S i ≤ j ∧ names !! (j - S i) = Some s ∧ m !! s = Some k →
              i ≤ j ∧ (a :: names) !! (j - i) = Some s ∧ m !! s = Some k).
    { intros s (Hle & Hs & Hm). split_and!; [lia| |done].
      by replace (j - i) with (S (j - S i)) by lia. }
    destruct (m !! a) as [k0|] eqn:Ha; intros [Hacc|(s & Hs)]%IH.
    + apply elem_of_app in Hacc as [?|Hnew]; [by left|].
      apply list_elem_of_singleton in Hnew. injection Hnew as -> ->.
      right. exists a. rewrite Nat.sub_diag. by split_and!.
    + right. exists s. by apply Hshift.
    + by left.
    + right. exists s. by apply Hshift.
Qed.
End MatcherPairs.

(** X22.  Every pair [GetVariableMapping] returns joins equal names: for a
    pair [(k, i)] of the input-index list the network input [i] and the
    lookup input [k] have the same name, and [k] is the last position of
    that name among the lookup inputs (a later duplicate overwrites the
    earlier one in the map); the same holds of the output-index list and the
    outputs.  This is so whether or not the result is a match. *)
Theorem GetVariableMapping_pairs_sound {D} (net : CNeuralNetwork D)
    (lookup_inputs lookup_outputs : list string) :
  let r := GetVariableMapping net lookup_inputs lookup_outputs in
  (∀ k i, (k, i) ∈ input_indices r →
     ∃ s, input_names net !! i = Some s ∧ lookup_inputs !! k = Some s ∧
          ∀ k', k < k' → lookup_inputs !! k' ≠ Some s) ∧
  (∀ k i, (k, i) ∈ output_indices r →
     ∃ s, output_names net !! i = Some s ∧ lookup_outputs !! k = Some s ∧
          ∀ k', k < k' → lookup_outputs !! k' ≠ Some s).
Proof.
  assert (Hlast : ∀ (names : list string) s k,
            fill_lookup_map names 0 ∅ !! s = Some k →
            names !! k = Some s ∧ ∀ k', k < k' → names !! k' ≠ Some s).
  { intros names s k [[Hm _]|(_ & Hk & Hl)]%fill_lookup_map_Some.
    - by rewrite lookup_empty in Hm.
    - rewrite Nat.sub_0_r in Hk. split; [done|]. intros k' Hk'.
      specialize (Hl k' Hk'). by rewrite Nat.sub_0_r in Hl. }
  unfold GetVariableMapping. simpl.
  case_decide; simpl; [split; intros k i Hin; by apply elem_of_nil in Hin|].
  destruct (match_inputs _ (input_names net) 0 []) as [ins|] eqn:Hins; simpl;
    [|split; intros k i Hin; by apply elem_of_nil in Hin].
  assert (Hinputs : ∀ k i, (k, i) ∈ ins →
            ∃ s, input_names net !! i = Some s ∧ lookup_inputs !! k = Some s ∧
                 ∀ k', k < k' → lookup_inputs !! k' ≠ Some s).
  { intros k i Hin.
    destruct (match_inputs_pairs _ _ _ _ _ _ _ Hins Hin) as [Hnil|(s & _ & Hs & Hm)];
      [by apply elem_of_nil in Hnil|].
    rewrite Nat.sub_0_r in Hs. destruct (Hlast _ _ _ Hm). by exists s. }
  assert (Houtputs : ∀ k i,
            (k, i) ∈ match_outputs (fill_lookup_map lookup_outputs 0 ∅)
                       (output_names net) 0 [] →
            ∃ s, output_names net !! i = Some s ∧ lookup_outputs !! k = Some s ∧
                 ∀ k', k < k' → lookup_outputs !! k' ≠ Some s).
  { intros k i Hin.
    destruct (match_outputs_pairs _ _ _ _ _ _ Hin) as [Hnil|(s & _ & Hs & Hm)];
      [by apply elem_of_nil in Hnil|].
    rewrite Nat.sub_0_r in Hs. destruct (Hlast _ _ _ Hm). by exists s. }
  destruct (match_outputs _ (output_names net) 0 []) as [|p outs] eqn:Houts; simpl;
    (split; [exact Hinputs|exact Houtputs]).
Qed.

(** ** Destruction *)

Section Destruction.
Context {D : Type}.
Implicit Types (net : CNeuralNetwork D).

(** X23.  The loop of the destructor deletes, on a sized network, exactly
    the hidden layers, each once and in order, and leaves the first and the
    last position to the two [delete]s before it.  On an object whose
    [total_layers] is still empty (one on which [SizeWeights] was never
    called) the bound [total_layers.size() - 1] wraps and the loop faults on
    its first pass, reading [total_layers[1]]. *)
Theorem destructor_loop_spec (width : N) net :
  (sized net → (Z.of_nat (n_hidden_layers net) + 2 ≤ 2 ^ Z.of_N width)%Z →
   destructor_loop width net = Some (seq 1 (n_hidden_layers net))) ∧
  (total_layers net = [] → (2 ≤ width)%N → destructor_loop width net = None).
Proof.
  unfold destructor_loop. split.
  - intros Hs Hfit. rewrite (sized_total_layers _ Hs).
    rewrite Z.mod_small by lia.
    replace (Z.to_nat (Z.of_nat (n_hidden_layers net + 2) - 1) - 1)
      with (n_hidden_layers net) by lia.
    destruct (for_loop_rule (λ i deleted, deleted = seq 1 (i - 1)) 1
                (n_hidden_layers net)
                (λ i deleted, _ ← total_layers net !! i; Some (deleted ++ [i])) [])
      as (deleted & -> & Hdel); [done| |].
    + intros i t Hi ->.
      destruct (lookup_lt_is_Some_2 (total_layers net) i) as [L ->];
        [rewrite (sized_total_layers _ Hs); lia|].
      simpl. eexists; split; [done|].
      destruct i as [|i]; [lia|].
      simpl. rewrite !Nat.sub_0_r. change (1 :: seq 2 i) with (seq 1 (S i)).
      by rewrite seq_S.
    + rewrite Hdel. do 2 f_equal. lia.
  - intros Hnil Hw. rewrite Hnil.
    change (Z.of_nat (length (@nil (CLayer D))) - 1)%Z with (-1)%Z.
    assert (Hpow : (4 ≤ 2 ^ Z.of_N width)%Z).
    { change 4%Z with (2 ^ 2)%Z. apply Z.pow_le_mono_r; lia. }
    assert (Hbound : ((-1) mod 2 ^ Z.of_N width = 2 ^ Z.of_N width - 1)%Z).
    { rewrite <-(Z.mod_add _ 1) by lia. rewrite Z.mod_small; lia. }
    rewrite Hbound.
    apply (for_loop_fault 1 _ _ [] 1); [lia|]. intros t. done.
Qed.
End Destruction.

(** ** Instances of the further properties on the small network *)

Lemma dimensionalize_then_normalize_witness :
  let net := Example.network true true ACT.LINEAR STANDARD MINMAX in
  input_norm net !! 1 = Some (0, 1)%R ∧ output_norm net !! 1 = Some (0, 1)%R ∧
  scale_nonzero (input_reg_method net) (0, 1)%R ∧
  (DimensionalizeOutput net 5%R 1 ≫= λ x, NormalizeInput net x 1) = Some 5%R.
Proof.
  assert (Hscale : scale_nonzero STANDARD (0, 1)%R) by (simpl; lra).
  split_and!; try reflexivity; [exact Hscale|].
  exact (dimensionalize_then_normalize
           (Example.network true true ACT.LINEAR STANDARD MINMAX) 1 (0, 1)%R 5%R
           eq_refl eq_refl Hscale).
Defined.

Lemma NormalizeInput_slope_witness :
  let net := Example.network true true ACT.LINEAR MINMAX MINMAX in
  input_norm net !! 0 = Some (0, 2)%R ∧
  scale_nonzero (input_reg_method net) (0, 2)%R ∧
  ∃ scale a b,
    GetRegularizationScale net 0 true = Some scale ∧ scale ≠ 0%R ∧
    NormalizeInput net 1%R 0 = Some a ∧ NormalizeInput net (1 + 3)%R 0 = Some b ∧
    (b - a = 1 / scale * 3)%R.
Proof.
  assert (Hscale : scale_nonzero MINMAX (0, 2)%R) by (simpl; lra).
  split_and!; [reflexivity|exact Hscale|].
  exact (NormalizeInput_slope
           (Example.network true true ACT.LINEAR MINMAX MINMAX) 0 (0, 2)%R 1%R 3%R
           eq_refl Hscale).
Defined.

Lemma DimensionalizeOutput_slope_witness :
  let net := Example.network true true ACT.LINEAR MINMAX MINMAX in
  output_norm net !! 0 = Some (1, 3)%R ∧
  ∃ scale a b,
    GetRegularizationScale net 0 false = Some scale ∧
    DimensionalizeOutput net 1%R 0 = Some a ∧
    DimensionalizeOutput net (1 + 3)%R 0 = Some b ∧
    (b - a = scale * 3)%R.
Proof.
  split; [reflexivity|].
  exact (DimensionalizeOutput_slope
           (Example.network true true ACT.LINEAR MINMAX MINMAX) 0 (1, 3)%R 1%R 3%R
           eq_refl).
Defined.

Lemma NormalizeInput_offset_witness :
  let net := Example.network true true ACT.LINEAR MINMAX MINMAX in
  input_norm net !! 0 = Some (0, 2)%R ∧
  scale_nonzero (input_reg_method net) (0, 2)%R ∧
  (GetRegularizationOffset net 0 true ≫= λ x, NormalizeInput net x 0) =
    Some (if decide (input_reg_method net = MINMAX) then 1 / 2 else 0)%R.
Proof.
  assert (Hscale : scale_nonzero MINMAX (0, 2)%R) by (simpl; lra).
  split_and!; [reflexivity|exact Hscale|].
  exact (NormalizeInput_offset
           (Example.network true true ACT.LINEAR MINMAX MINMAX) 0 (0, 2)%R
           eq_refl Hscale).
Defined.

Lemma CheckInputInclusion_normalized_witness :
  let net := Example.network true true ACT.LINEAR MINMAX MINMAX in
  input_norm net !! 0 = Some (0, 2)%R ∧
  (input_reg_method net = MINMAX → (0 < 2)%R) ∧
  ∃ inside v,
    CheckInputInclusion net 3%R 0 = Some inside ∧ NormalizeInput net 3%R 0 = Some v ∧
    (inside = true ↔ (0 <= v <= 1)%R).
Proof.
  assert (Horder : MINMAX = MINMAX → (0 < 2)%R) by (intros _; lra).
  split_and!; [reflexivity|exact Horder|].
  exact (CheckInputInclusion_normalized
           (Example.network true true ACT.LINEAR MINMAX MINMAX) 0 (0, 2)%R 3%R
           eq_refl Horder).
Defined.

Lemma SetWeight_spec_witness :
  let net := Example.network true true ACT.LINEAR MINMAX MINMAX in
  sized net ∧
  layer_at net 0 = Some (Example.layer 2 2 true [0; 0]%R) ∧
  layer_at net 1 = Some (Example.layer 3 2 false [0; 0; 1]%R) ∧
  1 < 2 ∧ 2 < 3 ∧
  ∃ net', SetWeight net 0 1 2 5%R = Some net' ∧ sized net' ∧
    total_layers net' = total_layers net ∧
    ∀ l' j' i', vget3 l' j' i' (weights_mat net') =
      if decide (l' = 0 ∧ j' = 2 ∧ i' = 1) then Some 5%R
      else vget3 l' j' i' (weights_mat net).
Proof.
  assert (Hi : 1 < 2) by lia. assert (Hj : 2 < 3) by lia.
  split_and!; [apply network_sized|reflexivity|reflexivity|exact Hi|exact Hj|].
  exact (SetWeight_spec
           (Example.network true true ACT.LINEAR MINMAX MINMAX) 0 1 2 5%R
           (Example.layer 2 2 true [0; 0]%R) (Example.layer 3 2 false [0; 0; 1]%R)
           (network_sized _ _ _ _ _) eq_refl eq_refl Hi Hj).
Defined.

Lemma SetBias_spec_witness :
  let net := Example.network true true ACT.LINEAR MINMAX MINMAX in
  sized net ∧
  layer_at net 1 = Some (Example.layer 3 2 false [0; 0; 1]%R) ∧ 2 < 3 ∧
  ∃ net', SetBias net 1 2 7%R = Some net' ∧ sized net' ∧
    weights_mat net' = weights_mat net ∧
    (∀ l' i', net_GetBias net' l' i' =
       if decide (l' = 1 ∧ i' = 2) then Some 7%R else net_GetBias net l' i') ∧
    (∀ c, read_cell net' c = read_cell net c).
Proof.
  assert (Hi : 2 < 3) by lia.
  split_and!; [apply network_sized|reflexivity|exact Hi|].
  exact (SetBias_spec
           (Example.network true true ACT.LINEAR MINMAX MINMAX) 1 2 7%R
           (Example.layer 3 2 false [0; 0; 1]%R)
           (network_sized _ _ _ _ _) eq_refl Hi).
Defined.

Lemma SetNorm_GetNorm_witness :
  let net := Example.network true true ACT.LINEAR MINMAX MINMAX in
  1 < length (input_norm net) ∧
  ∃ net', SetInputNorm net 1 (-1)%R 4%R = Some net' ∧
    (∀ i', GetInputNorm net' i' =
       if decide (i' = 1) then Some ((-1)%R, 4%R) else GetInputNorm net i') ∧
    output_norm net' = output_norm net ∧ (sized net → sized net').
Proof.
  assert (Hi : 1 < 2) by lia.
  split; [exact Hi|].
  exact (proj1 (SetNorm_GetNorm
                  (Example.network true true ACT.LINEAR MINMAX MINMAX) 1 (-1)%R 4%R) Hi).
Defined.

Lemma SetName_GetName_witness :
  let net := Example.network true true ACT.LINEAR MINMAX MINMAX in
  1 < GetnInputs net ∧
  ∃ net', SetInputName net 1 "w" = Some net' ∧
    (∀ i', GetInputName net' i' =
       if decide (i' = 1) then Some "w"%string else GetInputName net i') ∧
    output_names net' = output_names net ∧ GetnInputs net' = GetnInputs net.
Proof.
  assert (Hi : 1 < 2) by lia.
  split; [exact Hi|].
  exact (proj1 (SetName_GetName
                  (Example.network true true ACT.LINEAR MINMAX MINMAX) 1 "w") Hi).
Defined.

Lemma GetNWeightLayers_spec_witness :
  let net := Example.network true true ACT.LINEAR MINMAX MINMAX in
  sized net ∧ (Z.of_nat (n_hidden_layers net) + 2 ≤ 2 ^ Z.of_N 64)%Z ∧
  GetNWeightLayers 64 net = 2%Z.
Proof.
  assert (Hfit : (Z.of_nat 1 + 2 ≤ 2 ^ Z.of_N 64)%Z) by (by vm_compute).
  split_and!; [apply network_sized|exact Hfit|].
  exact (proj1 (proj2 (GetNWeightLayers_spec 64
                         (Example.network true true ACT.LINEAR MINMAX MINMAX)))
           (network_sized _ _ _ _ _) Hfit).
Defined.

Lemma SetActivationFunction_recognized_spec_witness :
  let net := Example.network true true ACT.LINEAR MINMAX MINMAX in
  activation_function_map !! "relu"%string = Some ACT.RELU ∧
  sized net ∧ 1 < n_hidden_layers net + 2 ∧
  1 < length (activation_function_names net) ∧
  ∃ net', SetActivationFunction net 1 "relu" = Some net' ∧
    named_tag ACT.RELU ∧
    (∀ l, activation_function_types net' !! l =
            if decide (l = 1) then Some ACT.RELU
            else activation_function_types net !! l) ∧
    (∀ l, activation_function_names net' !! l =
            if decide (l = 1) then Some "relu"%string
            else activation_function_names net !! l) ∧
    sized net' ∧
    (activations_assigned net → activations_assigned net').
Proof.
  assert (Htag : activation_function_map !! "relu"%string = Some ACT.RELU)
    by (by vm_compute).
  assert (Hl : 1 < 3) by lia.
  split_and!; [exact Htag|apply network_sized|exact Hl|exact Hl|].
  exact (SetActivationFunction_recognized_spec
           (Example.network true true ACT.LINEAR MINMAX MINMAX) 1 "relu" ACT.RELU
           Htag (network_sized _ _ _ _ _) Hl Hl).
Defined.

Lemma SizeWeights_declare_witness :
  [3; 2] ≠ [] ∧
  ∃ net, SizeWeights 0%R (declare 0%R 2 1 [3; 2]) = Some net ∧
    sized net ∧
    n_hidden_layers net = 2 ∧
    (∀ l, GetNNeurons net l = [2; 3; 2; 1] !! l) ∧
    (∀ l j i w, vget3 l j i (weights_mat net) = Some w → w = mlp_lit 0) ∧
    activation_function_types net = replicate 4 ACT.NONE ∧
    activations_assigned net.
Proof.
  assert (Hne : [3; 2] ≠ ([] : list nat)) by discriminate.
  split; [exact Hne|].
  exact (SizeWeights_declare 0%R 2 1 [3; 2] Hne).
Defined.

Lemma SizeWeights_fault_witness :
  n_hidden_layers (members (declare 0%R 2 1 [])) = 0 ∧
  SizeWeights 0%R (declare 0%R 2 1 []) = None.
Proof.
  split; [reflexivity|].
  exact (SizeWeights_fault 0%R (declare 0%R 2 1 []) (or_introl eq_refl)).
Defined.

Lemma ActivationFunction_derivatives_witness :
  let net := Example.network true true ACT.TANH MINMAX MINMAX in
  compute_gradient net = true ∧ compute_second_gradient net = true ∧
  (ACT.SWISH ∈ [ACT.LINEAR; ACT.EXPONENTIAL; ACT.SIGMOID; ACT.TANH; ACT.SWISH] ∨
   ACT.SWISH ∈ [ACT.RELU; ACT.ELU; ACT.SELU] ∧ 1%R ≠ 0%R) ∧
  derivable_pt_lim (λ t, Phi (ActivationFunction_switch net ACT.SWISH t)) 1
    (Phi_prime (ActivationFunction_switch net ACT.SWISH 1%R)) ∧
  derivable_pt_lim (λ t, Phi_prime (ActivationFunction_switch net ACT.SWISH t)) 1
    (Phi_dprime (ActivationFunction_switch net ACT.SWISH 1%R)).
Proof.
  assert (Htag : ACT.SWISH ∈ [ACT.LINEAR; ACT.EXPONENTIAL; ACT.SIGMOID; ACT.TANH;
                              ACT.SWISH] ∨
                 ACT.SWISH ∈ [ACT.RELU; ACT.ELU; ACT.SELU] ∧ 1%R ≠ 0%R).
  { left. rewrite !elem_of_cons. tauto. }
  split_and!; [reflexivity|reflexivity|exact Htag|..];
    apply (ActivationFunction_derivatives
             (Example.network true true ACT.TANH MINMAX MINMAX) ACT.SWISH 1%R
             eq_refl eq_refl Htag).
Defined.

Lemma Predict_forward_pass_witness :
  let net := Example.network false true ACT.TANH MINMAX MINMAX in
  sized net ∧ nInputs net ≤ length [1; 1]%R ∧ activations_assigned net ∧
  ∃ net', Predict net [1; 1]%R = Some net' ∧
    forward_input net' [1; 1]%R 1 ∧ forward_value net' 1 2 ∧
    ∃ y Y, net_GetOutput net' (outputLayer_index net) 0 = Some y ∧
           DimensionalizeOutput net y 0 = Some Y ∧ GetANNOutput net' 0 = Some Y.
Proof.
  assert (Hlen : 2 ≤ 2) by lia.
  split_and!; [apply network_sized|exact Hlen|apply network_activations_assigned|].
  destruct (Predict_forward_pass
              (Example.network false true ACT.TANH MINMAX MINMAX) [1; 1]%R
              (network_sized _ _ _ _ _) Hlen (network_activations_assigned _ _ _ _))
    as (net' & Hrun & Hin & Hfw & Hout).
  assert (H01 : 0 < 1) by lia. assert (H12 : 1 < 2) by lia.
  assert (H13 : 1 < 3) by lia. assert (H23 : 2 < 3) by lia.
  assert (H02 : 0 < 2) by lia.
  exists net'. split_and!; [exact Hrun| | |].
  - exact (Hin 1 H12).
  - exact (Hfw 1 2 3 (conj H01 H13) eq_refl H23).
  - exact (Hout 0 H02).
Defined.

Lemma Predict_input_derivatives_witness :
  let net := Example.network true true ACT.TANH MINMAX MINMAX in
  sized net ∧ nInputs net ≤ length [1; 1]%R ∧ activations_assigned net ∧
  compute_gradient net = true ∧
  ∃ net', Predict net [1; 1]%R = Some net' ∧ input_seeded net' 0.
Proof.
  assert (Hlen : 2 ≤ 2) by lia.
  split_and!; [apply network_sized|exact Hlen|apply network_activations_assigned
              |reflexivity|].
  destruct (Predict_input_derivatives
              (Example.network true true ACT.TANH MINMAX MINMAX) [1; 1]%R
              (network_sized _ _ _ _ _) Hlen (network_activations_assigned _ _ _ _)
              eq_refl)
    as (net' & Hrun & Hseed).
  assert (H02 : 0 < 2) by lia.
  exists net'. split; [exact Hrun|]. exact (Hseed 0 H02).
Defined.

Lemma DeNormalizeOutputs_scales_witness :
  let net := Example.network true true ACT.TANH MINMAX MINMAX in
  sized net ∧ ∃ net', DeNormalizeOutputs net = Some net' ∧ output_done net net' 1.
Proof.
  split; [apply network_sized|].
  destruct (DeNormalizeOutputs_scales
              (Example.network true true ACT.TANH MINMAX MINMAX)
              (network_sized _ _ _ _ _))
    as (net' & Hrun & Hdone).
  assert (H12 : 1 < 2) by lia.
  exists net'. split; [exact Hrun|]. exact (Hdone 1 H12).
Defined.

Lemma Predict_output_stage_witness :
  let net := Example.network true true ACT.TANH MINMAX MINMAX in
  sized net ∧ nInputs net ≤ length [1; 1]%R ∧ activations_assigned net ∧
  ∃ net1 net', Predict_layers net [1; 1]%R = Some net1 ∧
    Predict net [1; 1]%R = Some net' ∧ output_done net1 net' 0.
Proof.
  assert (Hlen : 2 ≤ 2) by lia.
  split_and!; [apply network_sized|exact Hlen|apply network_activations_assigned|].
  destruct (Predict_output_stage
              (Example.network true true ACT.TANH MINMAX MINMAX) [1; 1]%R
              (network_sized _ _ _ _ _) Hlen (network_activations_assigned _ _ _ _))
    as (net1 & net' & Hrun & Hall & Hdone).
  assert (H02 : 0 < 2) by lia.
  exists net1, net'. split_and!; [exact Hrun|exact Hall|]. exact (Hdone 0 H02).
Defined.

Lemma Predict_short_input_witness :
  let net := Example.network true true ACT.TANH MINMAX MINMAX in
  length [1%R] < nInputs net ∧ Predict net [1%R] = None.
Proof.
  assert (Hlen : 1 < 2) by lia.
  split; [exact Hlen|].
  exact (Predict_short_input
           (Example.network true true ACT.TANH MINMAX MINMAX) [1%R] Hlen).
Defined.

Lemma destructor_loop_spec_witness :
  let net := Example.network true true ACT.LINEAR MINMAX MINMAX in
  sized net ∧ (Z.of_nat (n_hidden_layers net) + 2 ≤ 2 ^ Z.of_N 64)%Z ∧
  destructor_loop 64 net = Some [1] ∧
  total_layers (members (declare 0%R 2 1 [3])) = [] ∧ (2 ≤ 64)%N ∧
  destructor_loop 64 (members (declare 0%R 2 1 [3])) = None.
Proof.
  assert (Hfit : (Z.of_nat 1 + 2 ≤ 2 ^ Z.of_N 64)%Z) by (by vm_compute).
  assert (Hw : (2 ≤ 64)%N) by (by vm_compute).
  split_and!; [apply network_sized|exact Hfit| |reflexivity|exact Hw|].
  - exact (proj1 (destructor_loop_spec 64
                    (Example.network true true ACT.LINEAR MINMAX MINMAX))
             (network_sized _ _ _ _ _) Hfit).
  - exact (proj2 (destructor_loop_spec 64 (members (declare 0%R 2 1 [3])))
             eq_refl Hw).
Defined.

Lemma ActivationFunction_GELU_second_witness :
  let net := Example.network true true ACT.GELU MINMAX MINMAX in
  compute_gradient net = true ∧ compute_second_gradient net = true ∧
  derivable_pt_lim (λ t, Phi_prime (ActivationFunction_switch net ACT.GELU t)) 1
    (Q2R 1.702 * Q2R 1.702 * 1 * exp (- Q2R 1.702 * 1) *
     (exp (- Q2R 1.702 * 1) - 1) / (exp (- Q2R 1.702 * 1) + 1) ^ 3)%R ∧
  ¬ derivable_pt_lim (λ t, Phi_prime (ActivationFunction_switch net ACT.GELU t)) 0
      (Phi_dprime (ActivationFunction_switch net ACT.GELU 0%R)).
Proof.
  split_and!; [reflexivity|reflexivity|..].
  - exact (proj1 (ActivationFunction_GELU_second
                    (Example.network true true ACT.GELU MINMAX MINMAX) 1%R
                    eq_refl eq_refl)).
  - exact (proj2 (proj2 (ActivationFunction_GELU_second
                           (Example.network true true ACT.GELU MINMAX MINMAX) 1%R
                           eq_refl eq_refl))).
Defined.

Lemma Predict_outputs_determined_witness :
  let net1 := Example.network true true ACT.TANH MINMAX MINMAX in
  let net2 := Example.network false false ACT.TANH MINMAX STANDARD in
  sized net1 ∧ sized net2 ∧ same_parameters net1 net2 ∧
  nInputs net1 ≤ length [1; 1]%R ∧ activations_assigned net1 ∧
  ∃ net1' net2',
    Predict net1 [1; 1]%R = Some net1' ∧ Predict net2 [1; 1]%R = Some net2' ∧
    net_GetOutput net2' 1 2 = net_GetOutput net1' 1 2 ∧
    GetANNOutput net2' 1 = GetANNOutput net1' 1.
Proof.
  assert (Hlen : 2 ≤ 2) by lia.
  assert (Hsame : same_parameters
                    (Example.network true true ACT.TANH MINMAX MINMAX)
                    (Example.network false false ACT.TANH MINMAX STANDARD))
    by (by repeat split).
  split_and!; [apply network_sized|apply network_sized|exact Hsame|exact Hlen
              |apply network_activations_assigned|].
  destruct (Predict_outputs_determined
              (Example.network true true ACT.TANH MINMAX MINMAX)
              (Example.network false false ACT.TANH MINMAX STANDARD) [1; 1]%R
              (network_sized _ _ _ _ _) (network_sized _ _ _ _ _) Hsame Hlen
              (network_activations_assigned _ _ _ _))
    as (net1' & net2' & Hrun1 & Hrun2 & Hlayers & Hout).
  assert (H13 : 1 < 3) by lia. assert (H23 : 2 < 3) by lia.
  assert (H12 : 1 < 2) by lia.
  exists net1', net2'. split_and!; [exact Hrun1|exact Hrun2| |].
  - exact (Hlayers 1 2 3 H13 eq_refl H23).
  - exact (Hout 1 H12).
Defined.
